(** * Kynetix steady-state solver: [pynetics/solvers/solver_base.py]

  A shallow embedding of [SolverBase] (reaction energies, Eyring rate
  constants, Boltzmann coverages, the classified numerical Jacobian, the
  turnover-frequency routine) and of the [NewtonRoot] iterator.

  Numbers of the [mpmath] backend are read as exact reals: [mpf] is [R],
  [mp.exp] is [exp], and an equality of reals stands for an agreement of
  the computed numbers to within the working precision.  Where a claim
  asks for the equality of the computed numbers themselves, the routine
  is read a second time with the rounding of [mpmath] ([Mpf], [Numbers]).
  Python exceptions are values of [Py.exn] and every routine that can
  raise returns a [Py.result]; a method of the solver is a function on the
  solver's state that keeps the state it reached when it raises.  Each
  part gives the definitions taken from the source first, then reference
  definitions and facts, then the claims C1 to C10 with their theorems,
  then further methods of the solver and the properties that the code
  shows besides (X1 to X29); the last part runs all of them on small
  networks. *)

From Stdlib Require Import Reals Lra Lia ZArith Ascii String.
From stdpp Require Import base gmap strings list.

Local Open Scope R_scope.

#[global] Instance R_eq_dec : EqDecision R := Req_dec_T.
#[global] Instance R_inhabited : Inhabited R := populate 0.

(** ** The Python runtime the solver relies on *)

Module Py.

(** The exceptions that the modelled code meets; [LinAlgError] is what
    [numpy.linalg.solve] raises on a singular matrix. *)
Inductive exn : Type :=
| KeyError (key : string)
| IndexError
| ZeroDivisionError
| ValueError (msg : string)
| AttributeError (msg : string)
| UnboundLocalError (var : string)
| LinAlgError (msg : string).

Inductive result (A : Type) : Type :=
| Ok (a : A)
| Raise (e : exn).
Arguments Ok {A} a.
Arguments Raise {A} e.

#[global] Instance result_ret : MRet result := fun A a => Ok a.
#[global] Instance result_bind : MBind result := fun A B f m =>
  match m with
  | Ok a => f a
  | Raise e => Raise e
  end.

(** [d[k]] on a dict. *)
Definition getitem {V} (d : gmap string V) (k : string) : result V :=
  match d !! k with
  | Some v => Ok v
  | None => Raise (KeyError k)
  end.

(** [l[i]] on a list or tuple, negative indices counting from the end. *)
Definition index {A} (l : list A) (i : Z) : result A :=
  let n := Z.of_nat (length l) in
  let j := (if (i <? 0)%Z then n + i else i)%Z in
  if (j <? 0)%Z then Raise IndexError
  else match l !! Z.to_nat j with
       | Some a => Ok a
       | None => Raise IndexError
       end.

(** [a / b] on [mpf]: a zero divisor raises. *)
Definition truediv (a b : R) : result R :=
  if decide (b = 0) then Raise ZeroDivisionError else Ok (a / b).

(** The builtin [max(a, b)]: the first argument unless the second is
    strictly greater. *)
Definition max (a b : R) : R := if Rlt_dec a b then b else a.

(** [sum(l)], starting from [0] and adding from the left. *)
Definition sum (l : list R) : R := foldl Rplus 0 l.

(** [d.setdefault(k, v)]: only an absent key is written. *)
Definition setdefault {V} (k : string) (v : V) (d : gmap string V)
  : gmap string V :=
  match d !! k with
  | Some _ => d
  | None => <[k := v]> d
  end.

(** [l.index(x)]: the first position holding [x]. *)
Fixpoint index_of `{EqDecision A} (x : A) (l : list A) : result nat :=
  match l with
  | [] => Raise (ValueError "x not in list")
  | y :: rest =>
      if decide (y = x) then Ok 0%nat
      else match index_of x rest with
           | Ok i => Ok (S i)
           | Raise e => Raise e
           end
  end.

(** [x ** n] for an integer exponent. *)
Definition pow (x : R) (n : Z) : result R :=
  if (0 <=? n)%Z then Ok (x ^ Z.to_nat n)
  else truediv 1 (x ^ Z.to_nat (- n)).

(** [sep.join(l)]. *)
Fixpoint join (sep : string) (l : list string) : string :=
  match l with
  | [] => ""
  | [x] => x
  | x :: rest => x +:+ sep +:+ join sep rest
  end.

(** [c in s] for a one-character [c]. *)
Fixpoint contains (c : Ascii.ascii) (s : string) : bool :=
  match s with
  | EmptyString => false
  | String d rest => if Ascii.eqb c d then true else contains c rest
  end.

(** [for x in l: body], threading a loop-carried value, stopping at the
    first exception. *)
Fixpoint for_each {A B} (body : B -> A -> result B) (acc : B) (l : list A)
  : result B :=
  match l with
  | [] => Ok acc
  | x :: rest =>
      match body acc x with
      | Ok acc' => for_each body acc' rest
      | Raise e => Raise e
      end
  end.

End Py.

Abbreviation result := Py.result.
Abbreviation Ok := Py.Ok.
Abbreviation Raise := Py.Raise.

(** ** The model object ([self._owner]) *)

(** An elementary reaction is a list of two or three states, each state a
  list of species terms such as ["3H2_g"]. *)
Definition state_t : Type := list string.
Definition rxn_t : Type := list state_t.

(** One entry of [species_definitions]; a key that may be absent from the
  entry is an [option]. *)
Record species_def : Type := {
  sp_type : string;
  sp_site : option string;
  sp_pressure : option R;
  sp_formation_energy : option R;
  sp_frequencies : option (list R);
  sp_total : option R
}.

Record owner : Type := {
  elementary_rxns_list : list rxn_t;
  adsorbate_names : list string;
  transition_state_names : list string;
  site_names : list string;
  gas_names : list string;
  hasdata : bool;
  species_definitions : list (string * species_def);
  _kB : R;
  _h : R;
  temperature : R;
  gas_matrix : list (list R)
}.

(** A Python [float]: a double, or the infinity that a conversion gives
  beyond the range of the doubles. *)
Inductive pyfloat : Type :=
| Double (x : R)
| Infinity (negative : bool).

(** Values stored by [setattr] or handed to the logger. *)
Inductive pyval : Type :=
| PyBool (b : bool)
| PyFloats (l : list R)
| PyDoubles (l : list pyfloat)
| PyStrs (l : list string)
| PyRates (rfs rrs : list R)
| PyFreqs (d : gmap string (list R)).

(** One generated rate statement, e.g.
  ["rfs[0] = kf[0]*p['CO_g']*theta['*_s']**2"]: the target list and the
  reaction index, then the factors in order. *)
Inductive direction : Type := dir_f | dir_r.
Inductive factor_table : Type := tbl_theta | tbl_p.
Record factor : Type := {
  fac_table : factor_table;
  fac_name : string;
  fac_power : option Z        (* [None]: no [**] was written *)
}.
Record rate_stmt : Type := {
  stmt_target : direction;    (* [rfs] or [rrs] *)
  stmt_target_idx : nat;
  stmt_k : direction;         (* [kf] or [kr] *)
  stmt_k_idx : nat;
  stmt_factors : list factor
}.

(** A [sympy] expression, as far as the barriers need it. *)
Inductive sym_expr : Type :=
| Symbol (name : string)
| SMul (n : Z) (e : sym_expr)
| SAdd (a b : sym_expr)
| SSub (a b : sym_expr).

(** ** The solver object ([self]) *)

Record solver : Type := {
  E : gmap string R;
  p : gmap string R;
  has_data : bool;
  has_symbols : bool;
  sp_list : list string;
  rate_expressions : option (list rate_stmt * list rate_stmt);
  initial_guess : option (list R);
  (* [self._owner.state_energy_dict], created on first use *)
  state_energy_dict : option (gmap string R);
  (* attributes that are only ever written: [_Gaf], [_kfs], [tof], ... *)
  attrs : gmap string pyval;
  (* [self.logger.archive_data(name, value)], oldest first *)
  archive : list (string * pyval)
}.

Definition set_E (f : gmap string R -> gmap string R) (s : solver) : solver :=
  {| E := f (E s); p := p s; has_data := has_data s;
     has_symbols := has_symbols s; sp_list := sp_list s;
     rate_expressions := rate_expressions s;
     initial_guess := initial_guess s;
     state_energy_dict := state_energy_dict s;
     attrs := attrs s; archive := archive s |}.

Definition set_p (v : gmap string R) (s : solver) : solver :=
  {| E := E s; p := v; has_data := has_data s;
     has_symbols := has_symbols s; sp_list := sp_list s;
     rate_expressions := rate_expressions s;
     initial_guess := initial_guess s;
     state_energy_dict := state_energy_dict s;
     attrs := attrs s; archive := archive s |}.

Definition set_has_data (v : bool) (s : solver) : solver :=
  {| E := E s; p := p s; has_data := v;
     has_symbols := has_symbols s; sp_list := sp_list s;
     rate_expressions := rate_expressions s;
     initial_guess := initial_guess s;
     state_energy_dict := state_energy_dict s;
     attrs := attrs s; archive := archive s |}.

Definition set_rate_expressions (v : list rate_stmt * list rate_stmt)
  (s : solver) : solver :=
  {| E := E s; p := p s; has_data := has_data s;
     has_symbols := has_symbols s; sp_list := sp_list s;
     rate_expressions := Some v;
     initial_guess := initial_guess s;
     state_energy_dict := state_energy_dict s;
     attrs := attrs s; archive := archive s |}.

Definition set_state_energy_dict (v : gmap string R) (s : solver) : solver :=
  {| E := E s; p := p s; has_data := has_data s;
     has_symbols := has_symbols s; sp_list := sp_list s;
     rate_expressions := rate_expressions s;
     initial_guess := initial_guess s;
     state_energy_dict := Some v;
     attrs := attrs s; archive := archive s |}.

(** [setattr(self, name, value)] for the write-only attributes. *)
Definition setattr (name : string) (v : pyval) (s : solver) : solver :=
  {| E := E s; p := p s; has_data := has_data s;
     has_symbols := has_symbols s; sp_list := sp_list s;
     rate_expressions := rate_expressions s;
     initial_guess := initial_guess s;
     state_energy_dict := state_energy_dict s;
     attrs := <[name := v]> (attrs s); archive := archive s |}.

(** [self.logger.archive_data(name, value)]. *)
Definition archive_data (name : string) (v : pyval) (s : solver) : solver :=
  {| E := E s; p := p s; has_data := has_data s;
     has_symbols := has_symbols s; sp_list := sp_list s;
     rate_expressions := rate_expressions s;
     initial_guess := initial_guess s;
     state_energy_dict := state_energy_dict s;
     attrs := attrs s; archive := archive s ++ [(name, v)] |}.

(** Methods of the solver: they return a value or raise, and in both cases
  leave the object in the state reached so far. *)
Definition M (A : Type) : Type := solver -> result A * solver.

#[global] Instance M_ret : MRet M := fun A a s => (Ok a, s).
#[global] Instance M_bind : MBind M := fun A B f m s =>
  match m s with
  | (Ok a, s') => f a s'
  | (Raise e, s') => (Raise e, s')
  end.

Definition lift {A} (r : result A) : M A := fun s => (r, s).
Definition get {A} (proj : solver -> A) : M A := fun s => (Ok (proj s), s).
Definition modify (f : solver -> solver) : M unit := fun s => (Ok tt, f s).

Section SolverBase.

(** [ModelShell.split_species] is inherited from a base class that is not
    part of this file: it splits a term into its stoichiometric
    coefficient and its species name. *)
Variable split_species : string -> Z * string.

(** [cvg_tuple2dict] (coverage tuple to the [theta] dict) and
    [get_steady_state_cvgs] (the root finder's driver) are defined outside
    this file as well; they are methods, so they run on the solver. *)
Variable cvg_tuple2dict : owner -> list R -> M (gmap string R).
Variable get_steady_state_cvgs : owner -> list R -> M (list R).

Implicit Types (o : owner) (s : solver).

(** *** Data *)

Definition lookup_species o (name : string) : result species_def :=
  match list_find (fun kv => kv.1 = name) (species_definitions o) with
  | Some (_, kv) => Ok kv.2
  | None => Raise (Py.KeyError name)
  end.

Definition entry {A} (key : string) (v : option A) : result A :=
  match v with
  | Some a => Ok a
  | None => Raise (Py.KeyError key)
  end.

(** [SolverBase.get_data_dict]. *)
Definition get_data_dict o : M unit :=
  if negb (hasdata o)
  then lift (Raise (Py.AttributeError
               "model object has no input data in species_definitions"))
  else
    p_dict ← lift (Py.for_each (fun p_dict gas_name =>
                d ← lookup_species o gas_name;
                pr ← entry "pressure" (sp_pressure d);
                Ok (Py.setdefault gas_name pr p_dict))
              ∅ (gas_names o));
    '(E_dict, frequencies_dict) ← lift (Py.for_each
              (fun '(E_dict, frequencies_dict) '(species, d) =>
                let key := if decide (sp_type d = "site")
                           then "*_" +:+ species else species in
                energy ← entry "formation_energy" (sp_formation_energy d);
                frequencies ← entry "frequencies" (sp_frequencies d);
                Ok (Py.setdefault key energy E_dict,
                    Py.setdefault key frequencies frequencies_dict))
              (∅, ∅) (species_definitions o));
    modify (setattr "energy_correction" (PyBool false));;
    modify (set_p p_dict);;
    modify (set_E (fun _ => E_dict));;
    modify (setattr "frequencies" (PyFreqs frequencies_dict));;
    modify (set_has_data true).

(** *** Reaction energies and rate constants *)

(** The accumulation [G += stoichiometry * self.E[species_name]] over the
    terms of one state, from the running value [G]. *)
Fixpoint accumulate_state (E : gmap string R) (G : R) (state : state_t)
  : result R :=
  match state with
  | [] => Ok G
  | sp :: rest =>
      let '(stoichiometry, species_name) := split_species sp in
      e ← Py.getitem E species_name;
      accumulate_state E (G + IZR stoichiometry * e) rest
  end.

(** [SolverBase.get_reaction_energies]: the forward and reverse barrier
    of one elementary reaction. *)
Definition get_reaction_energies (E : gmap string R)
    (elementary_rxn_list : rxn_t) : result (R * R) :=
  IS ← Py.index elementary_rxn_list 0;
  G_IS ← accumulate_state E 0 IS;
  FS ← Py.index elementary_rxn_list (-1);
  G_FS ← accumulate_state E 0 FS;
  let G_TS := 0 in
  let G_TS :=
    if decide (length elementary_rxn_list = 2%nat) then Py.max G_IS G_FS
    else G_TS in
  G_TS ← (if decide (length elementary_rxn_list = 3%nat)
          then TS ← Py.index elementary_rxn_list 1;
               accumulate_state E G_TS TS
          else Ok G_TS);
  let f_barrier := G_TS - G_IS in
  let r_barrier := G_TS - G_FS in
  Ok (f_barrier, r_barrier).

(** The loop of [SolverBase.get_rate_constants] over [self.rxns_list],
    appending to the four lists. *)
Fixpoint rate_constants_loop (E : gmap string R) (kB T prefactor : R)
    (rxns : list rxn_t) (delta_Gfs delta_Grs kfs krs : list R)
  : result (list R * list R * list R * list R) :=
  match rxns with
  | [] => Ok (delta_Gfs, delta_Grs, kfs, krs)
  | elementary_rxn :: rest =>
      '(delta_Gf, delta_Gr) ← get_reaction_energies E elementary_rxn;
      ef ← Py.truediv (- delta_Gf) (kB * T);
      let kf := prefactor * exp ef in
      er ← Py.truediv (- delta_Gr) (kB * T);
      let kr := prefactor * exp er in
      rate_constants_loop E kB T prefactor rest
        (delta_Gfs ++ [delta_Gf]) (delta_Grs ++ [delta_Gr])
        (kfs ++ [kf]) (krs ++ [kr])
  end.

(** The computation of [SolverBase.get_rate_constants]: the barriers and
    the rate constants of every reaction, in network order. *)
Definition rate_constants o (E : gmap string R)
  : result (list R * list R * list R * list R) :=
  let kB := _kB o in
  let h := _h o in
  let T := temperature o in
  prefactor ← Py.truediv (kB * T) h;
  rate_constants_loop E kB T prefactor (elementary_rxns_list o) [] [] [] [].

(** [SolverBase.get_rate_constants]: stores [_Gaf], [_Gar], [_kfs] and
    [_krs] on the solver and returns the two tuples of rate constants. *)
Definition get_rate_constants o : M (list R * list R) :=
  E_now ← get E;
  '(delta_Gfs, delta_Grs, kfs, krs) ← lift (rate_constants o E_now);
  modify (setattr "_Gaf" (PyFloats delta_Gfs));;
  modify (setattr "_Gar" (PyFloats delta_Grs));;
  modify (setattr "_kfs" (PyFloats kfs));;
  modify (setattr "_krs" (PyFloats krs));;
  mret (kfs, krs).

(** One round of the loop of [get_single_state_energy_dict]: the energy
    of a state goes under its joined name unless the name is taken. *)
Definition add_state_energy (E : gmap string R)
    (single_state_energy_dict : gmap string R) (state : state_t)
  : result (gmap string R) :=
  state_energy ← accumulate_state E 0 state;
  let state_str := Py.join " + " state in
  Ok (Py.setdefault state_str state_energy single_state_energy_dict).

(** [SolverBase.get_single_state_energy_dict]. *)
Definition get_single_state_energy_dict (E : gmap string R)
    (elementary_rxn_list : rxn_t) : result (gmap string R) :=
  Py.for_each (add_state_energy E) ∅ elementary_rxn_list.

(** One round of the loop of [get_state_energy_dict]; [dict.update] lets
    the later reaction win. *)
Definition update_state_energies (E : gmap string R)
    (state_energy_dict : gmap string R) (elementary_rxn_list : rxn_t)
  : result (gmap string R) :=
  single_state_energy_dict ←
    get_single_state_energy_dict E elementary_rxn_list;
  Ok (single_state_energy_dict ∪ state_energy_dict).

(** [SolverBase.get_state_energy_dict]. *)
Definition get_state_energy_dict o : M (gmap string R) :=
  E_now ← get E;
  state_energy_dict ← lift (Py.for_each (update_state_energies E_now)
                              ∅ (elementary_rxns_list o));
  modify (set_state_energy_dict state_energy_dict);;
  mret state_energy_dict.

(** [SolverBase.boltzmann_coverages]. *)
Definition boltzmann_coverages o : M (list R) :=
  let free_site_names := (fun site => "*_" +:+ site) <$> site_names o in
  modify (setattr "_cvg_types"
            (PyStrs (adsorbate_names o ++ free_site_names)));;
  let kB := _kB o in
  let T := temperature o in
  loaded ← get has_data;
  (if negb loaded then get_data_dict o else mret tt);;
  E_now ← get E;
  terms ← lift (Py.for_each (fun terms adsorbate =>
              e ← Py.getitem E_now adsorbate;
              q ← Py.truediv (- e) (kB * T);
              Ok (terms ++ [exp q]))
            [] (adsorbate_names o));
  let boltz_sum := Py.sum terms in
  lift (Py.for_each (fun cvgs adsorbate =>
          e ← Py.getitem E_now adsorbate;
          q ← Py.truediv (- e) (kB * T);
          cvg ← Py.truediv (exp q) boltz_sum;
          Ok (cvgs ++ [cvg]))
        [] (adsorbate_names o)).

(** *** Rate expressions *)

(** The inner [list2string] of [get_elementary_rate_expression].  The
    loop variable [sp_expr] survives from one term to the next, so a term
    whose species is neither an adsorbate nor a gas repeats the previous
    factor, and fails when there is none. *)
Definition list2string o (sp_list : state_t)
  : result (list factor) :=
  let mk (table : factor_table) (stoichiometry : Z) (species_name : string) :=
    {| fac_table := table; fac_name := species_name;
       fac_power := if decide (stoichiometry = 1%Z) then None
                    else Some stoichiometry |} in
  '(rate_str, _) ← Py.for_each
    (fun '(rate_str, sp_expr) sp =>
      let '(stoichiometry, species_name) := split_species sp in
      sp_expr ←
        (if Py.contains "*"%char sp
         then Ok (Some (mk tbl_theta stoichiometry species_name))
         else
           d ← lookup_species o species_name;
           let sp_type := sp_type d in
           let sp_expr :=
             if decide (sp_type = "adsorbate")
             then Some (mk tbl_theta stoichiometry species_name)
             else sp_expr in
           let sp_expr :=
             if decide (sp_type = "gas")
             then Some (mk tbl_p stoichiometry species_name)
             else sp_expr in
           Ok sp_expr);
      match sp_expr with
      | Some fac => Ok (rate_str ++ [fac], Some fac)
      | None => Raise (Py.UnboundLocalError "sp_expr")
      end)
    ([], None) sp_list;
  Ok rate_str.

(** [SolverBase.get_elementary_rate_expression]: the index of the
    reaction in [self.rxns_list] and the factors of its forward and
    reverse rate. *)
Definition get_elementary_rate_expression o (elementary_rxn_list : rxn_t)
  : result (nat * list factor * list factor) :=
  idx ← Py.index_of elementary_rxn_list (elementary_rxns_list o);
  IS ← Py.index elementary_rxn_list 0;
  f_expr ← list2string o IS;
  FS ← Py.index elementary_rxn_list (-1);
  r_expr ← list2string o FS;
  Ok (idx, f_expr, r_expr).

(** [SolverBase.get_rate_expressions]. *)
Definition get_rate_expressions o (rxns_list : list rxn_t)
  : M (list rate_stmt * list rate_stmt) :=
  exprs ← lift (Py.for_each
    (fun '(f_rate_expressions, r_rate_expressions) rxn_list =>
      '(k_idx, f_expr, r_expr) ← get_elementary_rate_expression o rxn_list;
      idx ← Py.index_of rxn_list rxns_list;
      Ok (f_rate_expressions ++
            [{| stmt_target := dir_f; stmt_target_idx := idx;
                stmt_k := dir_f; stmt_k_idx := k_idx;
                stmt_factors := f_expr |}],
          r_rate_expressions ++
            [{| stmt_target := dir_r; stmt_target_idx := idx;
                stmt_k := dir_r; stmt_k_idx := k_idx;
                stmt_factors := r_expr |}]))
    ([], []) rxns_list);
  modify (set_rate_expressions exprs);;
  mret exprs.

(** What [exec] does with one generated statement, in the local scope of
    [get_rates]: [theta], [p], [kf], [kr] are read, [rfs] or [rrs] is
    written. *)
Definition exec_stmt (theta p : gmap string R) (kf kr : list R)
    (lists : list R * list R) (st : rate_stmt)
  : result (list R * list R) :=
  let '(rfs, rrs) := lists in
  let ks := match stmt_k st with dir_f => kf | dir_r => kr end in
  k ← Py.index ks (Z.of_nat (stmt_k_idx st));
  value ← Py.for_each (fun value fac =>
      let table := match fac_table fac with
                   | tbl_theta => theta | tbl_p => p end in
      base ← Py.getitem table (fac_name fac);
      x ← match fac_power fac with
          | None => Ok base
          | Some n => Py.pow base n
          end;
      Ok (value * x))
    k (stmt_factors st);
  let idx := stmt_target_idx st in
  match stmt_target st with
  | dir_f => if decide (idx < length rfs)%nat
             then Ok (<[idx := value]> rfs, rrs) else Raise Py.IndexError
  | dir_r => if decide (idx < length rrs)%nat
             then Ok (rfs, <[idx := value]> rrs) else Raise Py.IndexError
  end.

(** [SolverBase.get_rates]. *)
Definition get_rates o
    (rate_expressions : list rate_stmt * list rate_stmt)
    (cvgs_tuple : list R) : M (list R * list R) :=
  theta ← cvg_tuple2dict o cvgs_tuple;
  '(kf, kr) ← get_rate_constants o;
  p ← get p;
  let n := length (elementary_rxns_list o) in
  let lists := (replicate n 0, replicate n 0) in
  lists ← lift (Py.for_each (exec_stmt theta p kf kr) lists
                  (rate_expressions.1));
  '(rfs, rrs) ← lift (Py.for_each (exec_stmt theta p kf kr) lists
                  (rate_expressions.2));
  modify (setattr "_rates" (PyRates rfs rrs));;
  modify (archive_data "rates" (PyRates rfs rrs));;
  mret (rfs, rrs).

(** [SolverBase.get_net_rates]. *)
Definition get_net_rates (rfs rrs : list R) : M (list R) :=
  let net_rates := (fun '(rf, rr) => rf - rr) <$> zip rfs rrs in
  modify (setattr "net_rates" (PyFloats net_rates));;
  modify (archive_data "net_rates" (PyFloats net_rates));;
  mret net_rates.

(** *** Turnover frequencies *)

(** [(rate_vector * abs(gas_matrix)).tolist()[0]]: a row vector times the
    matrix of absolute stoichiometries, one row per reaction. *)
Definition row_times_abs (rate_vector : list R) (gas_matrix : list (list R))
  : result (list R) :=
  if decide (length rate_vector = length gas_matrix)
  then
    let width := match gas_matrix with [] => 0%nat | r :: _ => length r end in
    Ok ((fun j =>
           Py.sum ((fun '(r, row) => r * Rabs (row !!! j))
                     <$> zip rate_vector gas_matrix))
          <$> seq 0 width)
  else Raise (Py.ValueError "shapes not aligned").

(** The loop [for intermediate, G in zip(Gs_order, Gs):
    self.E[intermediate] = G]. *)
Definition overwrite_energies (Gs_order : list string) (Gs : list R)
    (E : gmap string R) : gmap string R :=
  foldl (fun E '(intermediate, G) => <[intermediate := G]> E)
        E (zip Gs_order Gs).

(** [SolverBase.get_tof]. *)
Definition get_tof o (Gs : list R) : M (list R) :=
  let Gs_order := adsorbate_names o ++ transition_state_names o in
  modify (setattr "Gs_order" (PyStrs Gs_order));;
  modify (set_E (overwrite_energies Gs_order Gs));;
  get_rate_constants o;;
  guess ← get initial_guess;
  init_guess ← lift (match guess with
                     | Some g => Ok g
                     | None => Raise (Py.AttributeError "initial_guess")
                     end);
  steady_state_cvg ← get_steady_state_cvgs o init_guess;
  known ← get rate_expressions;
  rate_expressions ← match known with
                     | Some e => mret e
                     | None => get_rate_expressions o (elementary_rxns_list o)
                     end;
  '(rfs, rrs) ← get_rates o rate_expressions steady_state_cvg;
  net_rates ← get_net_rates rfs rrs;
  tof_list ← lift (row_times_abs net_rates (gas_matrix o));
  modify (setattr "tof" (PyFloats tof_list));;
  modify (archive_data "tofs" (PyFloats tof_list));;
  mret tof_list.

(** *** The classified numerical Jacobian *)

(** Difference and scalar quotient of [mpmath] column vectors. *)
Definition vec_sub (a b : list R) : result (list R) :=
  if decide (length a = length b)
  then Ok (zip_with Rminus a b)
  else Raise (Py.ValueError "incompatible dimensions for subtraction").

Definition vec_div (a : list R) (d : R) : result (list R) :=
  Py.for_each (fun acc x => q ← Py.truediv x d; Ok (acc ++ [q])) [] a.

(** [for i in xrange(m): J[i, j] = Jj[i]] on a matrix kept as its rows. *)
Definition set_column (J : list (list R)) (j : nat) (Jj : list R)
  : list (list R) :=
  imap (fun i row => <[j := Jj !!! i]> row) J.

(** One round of the loop [for j in xrange(n)] of
    [classified_numerical_jacobian] (its [print j] is left out): column
    [j] of [J] is written. *)
Definition jacobian_round o (f : list R -> list R) (x fx : list R) (h : R)
    (J : list (list R)) (j : nat) : result (list (list R)) :=
  let inter_num := length (adsorbate_names o) in
  let xj := x in
  xjj ← Py.index xj (Z.of_nat j);
  let delta := Rabs (h * xjj) in
  let delta := Py.max delta h in
  Jj ← (if decide (Z.of_nat j <= Z.of_nat inter_num - 1)%Z
        then
          let xj := <[j := xjj + delta]> xj in
          d ← vec_sub (f xj) fx;
          vec_div d delta
        else
          let xj := <[j := xjj - delta]> xj in
          d ← vec_sub (f xj) fx;
          vec_div d (- delta));
  Ok (set_column J j Jj).

(** [matrix.reshape(rows, cols)] on a matrix of [mpmath]: [mp.matrix] has
    no attribute of that name (its transpose is [T]), so the attribute
    lookup raises before anything is called. *)
Definition mp_matrix_reshape (matrix : list R) (rows cols : Z)
  : result (list R) :=
  Raise (Py.AttributeError "'matrix' object has no attribute 'reshape'").

(** [SolverBase.classified_numerical_jacobian]; [self._matrix] is
    [mp.matrix], which turns a list into a column vector and leaves a
    matrix as it is. *)
Definition classified_numerical_jacobian o (f : list R -> list R)
    (x : list R) (h : R) : result (list (list R)) :=
  let _matrix (v : list R) := v in
  let x := _matrix x in
  x ← mp_matrix_reshape (_matrix x) (-1) 1;
  let fx := _matrix (f x) in
  let m := length fx in
  let n := length x in
  let J := replicate m (replicate n 0) in
  Py.for_each (jacobian_round o f x fx h) J (seq 0 n).

(** *** The symbolic barriers *)

(** [self.G_sym], as [get_data_symbols] builds it from [self.sp_list]. *)
Definition G_sym s : list sym_expr :=
  (fun sp_name => Symbol ("G_" +:+ sp_name)) <$> sp_list s.

(** [extract_symbol(sp_name, symbol_type='free_energy')]. *)
Definition extract_symbol_free_energy s (sp_name : string)
  : result sym_expr :=
  idx ← Py.index_of sp_name (sp_list s);
  Py.index (G_sym s) (Z.of_nat idx).

(** The symbol of one state's energy: it starts from the symbol named
    ["0"] and adds one term per species. *)
Definition state_energy_symbol s (state_list : state_t) : result sym_expr :=
  Py.for_each (fun state_energy_sym sp_str =>
      let '(stoichiometry, species_name) := split_species sp_str in
      sp_sym ← extract_symbol_free_energy s species_name;
      let sp_energy_sym :=
        if decide (stoichiometry = 1%Z) then sp_sym
        else SMul stoichiometry sp_sym in
      Ok (SAdd state_energy_sym sp_energy_sym))
    (Symbol "0") state_list.

(** [TS_idx = -1 if IS_energy <= FS_energy else 0]. *)
Definition TS_idx (IS_energy FS_energy : R) : Z :=
  if Rle_dec IS_energy FS_energy then (-1)%Z else 0%Z.

(** The state energies that [get_single_delta_G_symbols] reads for a
    reaction without transition state: [self._owner.state_energy_dict],
    built (after loading the data if need be) when the owner has none. *)
Definition ensure_state_energy_dict o : M (gmap string R) :=
  cached ← get state_energy_dict;
  match cached with
  | Some d => mret d
  | None =>
      loaded ← get has_data;
      (if negb loaded then get_data_dict o else mret tt);;
      get_state_energy_dict o
  end.

(** [SolverBase.get_single_delta_G_symbols]. *)
Definition get_single_delta_G_symbols o (elementary_rxn_list : rxn_t)
  : M (sym_expr * sym_expr) :=
  symbols ← get has_symbols;
  (if negb symbols
   then lift (Raise (Py.AttributeError "Solver has no data symbol."))
   else mret tt);;
  self ← get (fun s => s);
  state_energy_sym_list ← lift (Py.for_each (fun acc state_list =>
      state_energy_sym ← state_energy_symbol self state_list;
      Ok (acc ++ [state_energy_sym]))
    [] elementary_rxn_list);
  IS_energy_sym ← lift (Py.index state_energy_sym_list 0);
  FS_energy_sym ← lift (Py.index state_energy_sym_list (-1));
  TS_energy_sym ←
    (if decide (length state_energy_sym_list = 3%nat)
     then lift (Py.index state_energy_sym_list 1)
     else if decide (length state_energy_sym_list = 2%nat)
     then
       state_energy_dict ← ensure_state_energy_dict o;
       let get_state_energy (sp_list : state_t) :=
         Py.getitem state_energy_dict (Py.join " + " sp_list) in
       IS ← lift (Py.index elementary_rxn_list 0);
       IS_energy ← lift (get_state_energy IS);
       FS ← lift (Py.index elementary_rxn_list (-1));
       FS_energy ← lift (get_state_energy FS);
       lift (Py.index state_energy_sym_list (TS_idx IS_energy FS_energy))
     else lift (Raise (Py.UnboundLocalError "TS_energy_sym")));
  let delta_Gf_sym := SSub TS_energy_sym IS_energy_sym in
  let delta_Gr_sym := SSub TS_energy_sym FS_energy_sym in
  mret (delta_Gf_sym, delta_Gr_sym).

(** *** Reference definitions *)

(** The stoichiometry-weighted sum of the free energies of one state:
    coefficient times energy, summed over its terms. *)
Fixpoint weighted_sum (E : gmap string R) (state : state_t) : option R :=
  match state with
  | [] => Some 0
  | sp :: rest =>
      e ← E !! (split_species sp).2;
      g ← weighted_sum E rest;
      Some (IZR (split_species sp).1 * e + g)
  end.

(** The species a state names. *)
Definition species_of (state : state_t) : list string :=
  (fun sp => (split_species sp).2) <$> state.

(** Every species of every state of the reaction has a free energy. *)
Definition energies_known (E : gmap string R) (rxn : rxn_t) : Prop :=
  ∀ state name, state ∈ rxn → name ∈ species_of state → is_Some (E !! name).

(** An elementary reaction has two or three states. *)
Definition elementary (rxn : rxn_t) : Prop :=
  length rxn = 2%nat ∨ length rxn = 3%nat.

(** The three state energies of a reaction: with an explicit transition
    state its weighted sum, without one the larger of the two ends. *)
Definition state_energies (E : gmap string R) (rxn : rxn_t)
  : option (R * R * R) :=
  match rxn with
  | [initial; final] =>
      G_IS ← weighted_sum E initial;
      G_FS ← weighted_sum E final;
      Some (G_IS, Rmax G_IS G_FS, G_FS)
  | [initial; transition; final] =>
      G_IS ← weighted_sum E initial;
      G_TS ← weighted_sum E transition;
      G_FS ← weighted_sum E final;
      Some (G_IS, G_TS, G_FS)
  | _ => None
  end.

(** The Eyring expression [(kB*T/h) * exp(-dG/(kB*T))]. *)
Definition eyring (kB T h dG : R) : R := kB * T / h * exp (- dG / (kB * T)).

(** *** Facts about the Python runtime *)

Lemma max_is_Rmax a b : Py.max a b = Rmax a b.
Proof.
  unfold Py.max, Rmax.
  destruct (Rlt_dec a b), (Rle_dec a b); try reflexivity; lra.
Qed.

Lemma truediv_ok a b : b ≠ 0 → Py.truediv a b = Ok (a / b).
Proof.
  intros Hb. unfold Py.truediv. case_decide; [contradiction | reflexivity].
Qed.

Lemma truediv_zero a : Py.truediv a 0 = Raise Py.ZeroDivisionError.
Proof. unfold Py.truediv. case_decide; [reflexivity | contradiction]. Qed.

Lemma getitem_Some {V} (d : gmap string V) k v :
  d !! k = Some v → Py.getitem d k = Ok v.
Proof. intros H. unfold Py.getitem. by rewrite H. Qed.

Lemma getitem_None {V} (d : gmap string V) k :
  d !! k = None → Py.getitem d k = Raise (Py.KeyError k).
Proof. intros H. unfold Py.getitem. by rewrite H. Qed.

Lemma sum_from (l : list R) (a : R) : foldl Rplus a l = a + Py.sum l.
Proof.
  unfold Py.sum. revert a.
  induction l as [|x l IH]; intros a; simpl; [lra|].
  rewrite IH, (IH (0 + x)). lra.
Qed.

Lemma sum_snoc (l : list R) (x : R) : Py.sum (l ++ [x]) = Py.sum l + x.
Proof. unfold Py.sum. rewrite foldl_app. reflexivity. Qed.

Lemma sum_cons (x : R) (l : list R) : Py.sum (x :: l) = x + Py.sum l.
Proof. unfold Py.sum at 1. simpl. rewrite sum_from. lra. Qed.

Lemma sum_positive (l : list R) :
  l ≠ [] → Forall (fun x => 0 < x) l → 0 < Py.sum l.
Proof.
  intros Hne Hall. induction Hall as [|x l Hx Hall IH]; [done|].
  rewrite sum_cons. destruct l as [|y l].
  - unfold Py.sum. simpl. lra.
  - assert (0 < Py.sum (y :: l)) by (by apply IH). lra.
Qed.

Lemma sum_scaled (l : list R) (c : R) :
  Py.sum ((fun x => x / c) <$> l) = Py.sum l / c.
Proof.
  induction l as [|x l IH].
  - unfold Py.sum. simpl. lra.
  - rewrite fmap_cons, !sum_cons, IH. lra.
Qed.

(** A loop that appends one value per element builds the mapped list. *)
Lemma for_each_snoc {A B} (body : list B → A → result (list B))
    (g : A → B) (l : list A) (acc : list B) :
  (∀ acc x, x ∈ l → body acc x = Ok (acc ++ [g x])) →
  Py.for_each body acc l = Ok (acc ++ (g <$> l)).
Proof.
  revert acc. induction l as [|x l IH]; intros acc Hbody; simpl.
  - by rewrite app_nil_r.
  - rewrite Hbody by apply list_elem_of_here.
    rewrite IH.
    + by rewrite <- app_assoc.
    + intros acc' y Hy. apply Hbody. by apply list_elem_of_further.
Qed.

(** A method that leaves the free-energy mapping as it found it, whether
    it returns or raises. *)
Definition preserves_E {A} (m : M A) : Prop := ∀ s, E (m s).2 = E s.

Lemma preserves_E_ret {A} (a : A) : preserves_E (mret a).
Proof. by intros s. Qed.

Lemma preserves_E_lift {A} (r : result A) : preserves_E (lift r).
Proof. by intros s. Qed.

Lemma preserves_E_get {A} (proj : solver → A) : preserves_E (get proj).
Proof. by intros s. Qed.

Lemma preserves_E_modify (f : solver → solver) :
  (∀ s, E (f s) = E s) → preserves_E (modify f).
Proof. intros Hf s. apply Hf. Qed.

Lemma preserves_E_bind {A B} (m : M A) (f : A → M B) :
  preserves_E m → (∀ a, preserves_E (f a)) → preserves_E (m ≫= f).
Proof.
  intros Hm Hf s. unfold mbind, M_bind.
  specialize (Hm s). destruct (m s) as [[a|e] s']; simpl in *.
  - by rewrite Hf.
  - done.
Qed.

Create HintDb frame discriminated.
#[local] Hint Resolve preserves_E_ret preserves_E_lift preserves_E_get : frame.

(** *** Facts about reaction energies *)

Implicit Types (E : gmap string R) (state : state_t) (rxn : rxn_t).

(** The running accumulation computes the weighted sum. *)
Lemma accumulate_state_sum E G state g :
  weighted_sum E state = Some g →
  accumulate_state E G state = Ok (G + g).
Proof.
  revert G g. induction state as [|sp rest IH]; intros G g; simpl.
  - intros [= <-]. f_equal. lra.
  - destruct (split_species sp) as [n name] eqn:Hsp; simpl.
    destruct (E !! name) as [e|] eqn:He; simpl; [|discriminate].
    destruct (weighted_sum E rest) as [g'|] eqn:Hg; simpl; [|discriminate].
    intros [= <-]. rewrite (getitem_Some _ _ _ He); simpl.
    rewrite (IH _ g' eq_refl). f_equal. lra.
Qed.

(** When an energy is missing, the accumulation raises the [KeyError] of
    the first species of the state that has none. *)
Lemma accumulate_state_missing E G state :
  weighted_sum E state = None →
  ∃ name, name ∈ species_of state ∧ E !! name = None ∧
          accumulate_state E G state = Raise (Py.KeyError name).
Proof.
  revert G. induction state as [|sp rest IH]; intros G; simpl; [discriminate|].
  destruct (split_species sp) as [n name] eqn:Hsp; simpl.
  destruct (E !! name) as [e|] eqn:He; simpl.
  - destruct (weighted_sum E rest) as [g'|] eqn:Hg; simpl; [discriminate|].
    intros _. destruct (IH (G + IZR n * e) eq_refl) as (k & Hk & HE & Hacc).
    exists k. split_and!; [|done|].
    + apply list_elem_of_further, Hk.
    + by rewrite (getitem_Some _ _ _ He).
  - intros _. exists name. split_and!; [|done|].
    + replace name with (split_species sp).2 by (by rewrite Hsp).
      apply list_elem_of_here.
    + by rewrite (getitem_None _ _ He).
Qed.

Lemma weighted_sum_known E state :
  (∀ name, name ∈ species_of state → is_Some (E !! name)) →
  is_Some (weighted_sum E state).
Proof.
  induction state as [|sp rest IH]; intros Hk; simpl; [by eexists|].
  destruct (Hk (split_species sp).2) as [e He].
  { apply list_elem_of_here. }
  rewrite He; simpl.
  destruct IH as [g Hg].
  { intros name Hn. apply Hk. by apply list_elem_of_further. }
  rewrite Hg; simpl. by eexists.
Qed.

Lemma weighted_sum_unknown E state :
  weighted_sum E state = None →
  ∃ name, name ∈ species_of state ∧ E !! name = None.
Proof.
  intros H. destruct (accumulate_state_missing E 0 state H) as (k & ? & ? & _).
  eauto.
Qed.

(** The barriers of an elementary reaction are the differences of its
    state energies. *)
Lemma get_reaction_energies_barriers E rxn G_IS G_TS G_FS :
  state_energies E rxn = Some (G_IS, G_TS, G_FS) →
  get_reaction_energies E rxn = Ok (G_TS - G_IS, G_TS - G_FS).
Proof.
  unfold state_energies, get_reaction_energies.
  destruct rxn as [|s1 [|s2 [|s3 [|s4 rest]]]]; try discriminate.
  - destruct (weighted_sum E s1) as [a|] eqn:Ha; simpl; [|discriminate].
    destruct (weighted_sum E s2) as [b|] eqn:Hb; simpl; [|discriminate].
    intros [= <- <- <-]. cbn.
    rewrite (accumulate_state_sum _ _ _ _ Ha); cbn.
    rewrite (accumulate_state_sum _ _ _ _ Hb); cbn.
    rewrite max_is_Rmax, !Rplus_0_l. reflexivity.
  - destruct (weighted_sum E s1) as [a|] eqn:Ha; simpl; [|discriminate].
    destruct (weighted_sum E s2) as [t|] eqn:Ht; simpl; [|discriminate].
    destruct (weighted_sum E s3) as [b|] eqn:Hb; simpl; [|discriminate].
    intros [= <- <- <-]. cbn.
    rewrite (accumulate_state_sum _ _ _ _ Ha); cbn.
    rewrite (accumulate_state_sum _ _ _ _ Hb); cbn.
    rewrite (accumulate_state_sum _ _ _ _ Ht); cbn.
    rewrite !Rplus_0_l. reflexivity.
Qed.

Lemma state_energies_known E rxn :
  elementary rxn → energies_known E rxn → is_Some (state_energies E rxn).
Proof.
  intros Hel Hk.
  assert (∀ state, state ∈ rxn → is_Some (weighted_sum E state)) as Hs.
  { intros state Hin. apply weighted_sum_known. intros name. by apply Hk. }
  destruct rxn as [|s1 [|s2 [|s3 [|s4 rest]]]];
    try (destruct Hel as [Hel|Hel]; simpl in Hel; lia).
  - destruct (Hs s1) as [a Ha]; [by repeat constructor|].
    destruct (Hs s2) as [b Hb]; [by repeat constructor|].
    simpl. rewrite Ha, Hb. by eexists.
  - destruct (Hs s1) as [a Ha]; [by repeat constructor|].
    destruct (Hs s2) as [t Ht]; [by repeat constructor|].
    destruct (Hs s3) as [b Hb]; [by repeat constructor|].
    simpl. rewrite Ha, Ht, Hb. by eexists.
Qed.

Lemma weighted_sum_Some_known E state g name :
  weighted_sum E state = Some g → name ∈ species_of state →
  is_Some (E !! name).
Proof.
  intros Hg Hin. destruct (E !! name) eqn:He; [by eexists|].
  exfalso. revert g Hg. induction state as [|sp rest IH]; intros g.
  - inversion Hin.
  - simpl. apply elem_of_cons in Hin as [->|Hin].
    + rewrite He. discriminate.
    + destruct (E !! (split_species sp).2); simpl; [|discriminate].
      destruct (weighted_sum E rest) eqn:Hr; simpl; [|discriminate].
      intros _. by eapply IH.
Qed.

(** With a state whose energy sum is undefined, an elementary reaction
    has no barriers: the lookup of the first missing species raises. *)
Lemma get_reaction_energies_missing E rxn :
  elementary rxn → state_energies E rxn = None →
  ∃ name, E !! name = None ∧
          get_reaction_energies E rxn = Raise (Py.KeyError name).
Proof.
  intros Hel. unfold state_energies, get_reaction_energies.
  destruct rxn as [|s1 [|s2 [|s3 [|s4 rest]]]];
    try (destruct Hel as [Hel|Hel]; simpl in Hel; lia).
  - destruct (weighted_sum E s1) as [a|] eqn:Ha; simpl.
    + destruct (weighted_sum E s2) as [b|] eqn:Hb; simpl; [discriminate|].
      intros _. cbn. rewrite (accumulate_state_sum _ _ _ _ Ha); cbn.
      destruct (accumulate_state_missing E 0 s2 Hb) as (k & _ & Hk & ->).
      eauto.
    + intros _. cbn.
      destruct (accumulate_state_missing E 0 s1 Ha) as (k & _ & Hk & ->).
      eauto.
  - destruct (weighted_sum E s1) as [a|] eqn:Ha; simpl.
    + cbn. rewrite (accumulate_state_sum _ _ _ _ Ha); cbn.
      destruct (weighted_sum E s3) as [b|] eqn:Hb.
      * rewrite (accumulate_state_sum _ _ _ _ Hb); cbn.
        destruct (weighted_sum E s2) as [t|] eqn:Ht; simpl; [discriminate|].
        intros _.
        destruct (accumulate_state_missing E 0 s2 Ht) as (k & _ & Hk & ->).
        eauto.
      * intros _.
        destruct (accumulate_state_missing E 0 s3 Hb) as (k & _ & Hk & ->).
        eauto.
    + intros _. cbn.
      destruct (accumulate_state_missing E 0 s1 Ha) as (k & _ & Hk & ->).
      eauto.
Qed.

Lemma state_energies_unknown E rxn state name :
  elementary rxn → state ∈ rxn → name ∈ species_of state → E !! name = None →
  state_energies E rxn = None.
Proof.
  intros Hel Hst Hin He.
  assert (weighted_sum E state = None) as Hnone.
  { destruct (weighted_sum E state) as [g|] eqn:Hg; [|done].
    destruct (weighted_sum_Some_known _ _ _ _ Hg Hin) as [e He'].
    congruence. }
  destruct rxn as [|s1 [|s2 [|s3 [|s4 rest]]]];
    try (destruct Hel as [Hel|Hel]; simpl in Hel; lia); simpl.
  - apply elem_of_cons in Hst as [->|Hst];
      [|apply elem_of_cons in Hst as [->|Hst]; [|by apply elem_of_nil in Hst]].
    + by rewrite Hnone.
    + rewrite Hnone. by destruct (weighted_sum E s1).
  - apply elem_of_cons in Hst as [->|Hst];
      [|apply elem_of_cons in Hst as [->|Hst];
        [|apply elem_of_cons in Hst as [->|Hst];
          [|by apply elem_of_nil in Hst]]].
    + by rewrite Hnone.
    + rewrite Hnone. by destruct (weighted_sum E s1).
    + rewrite Hnone.
      destruct (weighted_sum E s1); simpl; [|done].
      by destruct (weighted_sum E s2).
Qed.

(** *** Facts about the rate constants *)

(** Row [i] of the four tables that [get_rate_constants] builds, for the
    reaction at index [i]. *)
Definition rate_row o (E : gmap string R) (rxn : rxn_t)
    (delta_Gf delta_Gr kf kr : R) : Prop :=
  ∃ G_IS G_TS G_FS,
    state_energies E rxn = Some (G_IS, G_TS, G_FS) ∧
    delta_Gf = G_TS - G_IS ∧ delta_Gr = G_TS - G_FS ∧
    kf = eyring (_kB o) (temperature o) (_h o) (G_TS - G_IS) ∧
    kr = eyring (_kB o) (temperature o) (_h o) (G_TS - G_FS).

Definition rate_rows o (E : gmap string R) (rxns : list rxn_t)
    (delta_Gfs delta_Grs kfs krs : list R) : Prop :=
  length delta_Gfs = length rxns ∧ length delta_Grs = length rxns ∧
  length kfs = length rxns ∧ length krs = length rxns ∧
  ∀ i rxn, rxns !! i = Some rxn →
    ∃ delta_Gf delta_Gr kf kr,
      delta_Gfs !! i = Some delta_Gf ∧ delta_Grs !! i = Some delta_Gr ∧
      kfs !! i = Some kf ∧ krs !! i = Some kr ∧
      rate_row o E rxn delta_Gf delta_Gr kf kr.

Lemma rate_constants_loop_rows o E rxns a b c d :
  _kB o * temperature o ≠ 0 →
  Forall (fun rxn => is_Some (state_energies E rxn)) rxns →
  ∃ delta_Gfs delta_Grs kfs krs,
    rate_constants_loop E (_kB o) (temperature o)
      (_kB o * temperature o / _h o) rxns a b c d
    = Ok (a ++ delta_Gfs, b ++ delta_Grs, c ++ kfs, d ++ krs) ∧
    rate_rows o E rxns delta_Gfs delta_Grs kfs krs.
Proof.
  intros HkT Hall. revert a b c d.
  induction Hall as [|rxn rxns [[[G_IS G_TS] G_FS] Hst] _ IH]; intros a b c d.
  - exists [], [], [], []. rewrite !app_nil_r. split; [done|].
    unfold rate_rows. split_and!; try done.
  - simpl. rewrite (get_reaction_energies_barriers _ _ _ _ _ Hst); cbn.
    rewrite !truediv_ok by done; cbn.
    destruct (IH (a ++ [G_TS - G_IS]) (b ++ [G_TS - G_FS])
                 (c ++ [_kB o * temperature o / _h o
                        * exp (- (G_TS - G_IS) / (_kB o * temperature o))])
                 (d ++ [_kB o * temperature o / _h o
                        * exp (- (G_TS - G_FS) / (_kB o * temperature o))]))
      as (Gf & Gr & kf & kr & -> & (L1 & L2 & L3 & L4 & Hrows)).
    eexists (_ :: Gf), (_ :: Gr), (_ :: kf), (_ :: kr).
    rewrite <- !app_assoc. split; [reflexivity|].
    repeat split; simpl; try by f_equal.
    intros [|i] r Hi; simpl in *.
    + injection Hi as <-. do 4 eexists. repeat split; try reflexivity.
      exists G_IS, G_TS, G_FS. repeat split; done.
    + by apply Hrows.
Qed.

(** With a reaction whose energies are incomplete, the loop raises a
    [KeyError] for a species that has no energy. *)
Lemma rate_constants_loop_missing E kB T pre rxns a b c d :
  kB * T ≠ 0 →
  Forall elementary rxns →
  Exists (fun rxn => state_energies E rxn = None) rxns →
  ∃ name, E !! name = None ∧
    rate_constants_loop E kB T pre rxns a b c d = Raise (Py.KeyError name).
Proof.
  intros HkT Hel Hex. revert a b c d.
  induction rxns as [|rxn rxns IH]; intros a b c d; [by inversion Hex|].
  apply Forall_cons in Hel as [Hel1 Hel]. simpl.
  destruct (state_energies E rxn) as [[[G_IS G_TS] G_FS]|] eqn:Hst.
  - rewrite (get_reaction_energies_barriers _ _ _ _ _ Hst); cbn.
    rewrite !truediv_ok by done; cbn.
    apply IH; [done|]. inversion Hex; subst; [congruence|done].
  - destruct (get_reaction_energies_missing E rxn Hel1 Hst) as (k & Hk & ->).
    eauto.
Qed.

Lemma rate_constants_rows o E :
  _h o ≠ 0 → _kB o * temperature o ≠ 0 →
  (∀ rxn, rxn ∈ elementary_rxns_list o →
          elementary rxn ∧ energies_known E rxn) →
  ∃ delta_Gfs delta_Grs kfs krs,
    rate_constants o E = Ok (delta_Gfs, delta_Grs, kfs, krs) ∧
    rate_rows o E (elementary_rxns_list o) delta_Gfs delta_Grs kfs krs.
Proof.
  intros Hh HkT Hwf. unfold rate_constants.
  rewrite truediv_ok by done; cbn.
  destruct (rate_constants_loop_rows o E (elementary_rxns_list o) [] [] [] [])
    as (Gf & Gr & kf & kr & Hloop & Hrows); [done| |].
  - apply Forall_forall. intros rxn Hin.
    destruct (Hwf rxn Hin). by apply state_energies_known.
  - exists Gf, Gr, kf, kr. by rewrite Hloop.
Qed.

Lemma get_rate_constants_run o s delta_Gfs delta_Grs kfs krs :
  rate_constants o (E s) = Ok (delta_Gfs, delta_Grs, kfs, krs) →
  get_rate_constants o s =
    (Ok (kfs, krs),
     setattr "_krs" (PyFloats krs)
       (setattr "_kfs" (PyFloats kfs)
          (setattr "_Gar" (PyFloats delta_Grs)
             (setattr "_Gaf" (PyFloats delta_Gfs) s)))).
Proof.
  intros H. unfold get_rate_constants, mbind, M_bind, get, lift.
  rewrite H. reflexivity.
Qed.

Lemma get_rate_constants_raise o s e :
  rate_constants o (E s) = Raise e →
  get_rate_constants o s = (Raise e, s).
Proof.
  intros H. unfold get_rate_constants, mbind, M_bind, get, lift.
  rewrite H. reflexivity.
Qed.

(** *** Claims on energies and rate constants *)

(** C1, amended.  When every reaction of the network has two or three
    states and every species it names has a free energy (and [h] and
    [kB*T] are not zero), [get_rate_constants] returns one forward and one
    reverse rate constant per reaction, equal to
    [(kB*T/h)*exp(-(G_TS - G_IS)/(kB*T))] and
    [(kB*T/h)*exp(-(G_TS - G_FS)/(kB*T))], where [G_IS], [G_TS], [G_FS]
    are the stoichiometry-weighted sums over the states (the larger end
    state standing for a transition state that is not written); the free
    energies are left as they were, and for every reaction the forward
    barrier minus the reverse barrier is [G_FS - G_IS] to within the
    numeric precision, which is what the equality of exact reals states
    here.  As rounded numbers the two differences need not be equal (the
    isomerisation among the worked instances); they agree to within four
    units of the precision ([barrier_identity_within_precision]). *)
Theorem eyring_rate_constants o s :
  _h o ≠ 0 → _kB o * temperature o ≠ 0 →
  (∀ rxn, rxn ∈ elementary_rxns_list o →
          elementary rxn ∧ energies_known (E s) rxn) →
  ∃ kfs krs s',
    get_rate_constants o s = (Ok (kfs, krs), s') ∧ E s' = E s ∧
    length kfs = length (elementary_rxns_list o) ∧
    length krs = length (elementary_rxns_list o) ∧
    ∀ i rxn, elementary_rxns_list o !! i = Some rxn →
      ∃ G_IS G_TS G_FS forward_barrier reverse_barrier,
        state_energies (E s) rxn = Some (G_IS, G_TS, G_FS) ∧
        kfs !! i = Some (eyring (_kB o) (temperature o) (_h o) (G_TS - G_IS)) ∧
        krs !! i = Some (eyring (_kB o) (temperature o) (_h o) (G_TS - G_FS)) ∧
        get_reaction_energies (E s) rxn
          = Ok (forward_barrier, reverse_barrier) ∧
        forward_barrier - reverse_barrier = G_FS - G_IS.
Proof.
  intros Hh HkT Hwf.
  destruct (rate_constants_rows o (E s) Hh HkT Hwf)
    as (Gf & Gr & kfs & krs & Hrc & (L1 & L2 & L3 & L4 & Hrows)).
  exists kfs, krs. eexists.
  split; [by apply get_rate_constants_run|].
  split; [reflexivity|]. split; [done|]. split; [done|].
  intros i rxn Hi.
  destruct (Hrows i rxn Hi)
    as (gf & gr & kf & kr & _ & _ & Hkf & Hkr & G_IS & G_TS & G_FS & Hst
        & -> & -> & -> & ->).
  exists G_IS, G_TS, G_FS, (G_TS - G_IS), (G_TS - G_FS).
  split_and!; try done.
  - by apply get_reaction_energies_barriers.
  - lra.
Qed.



(** C7.  In a network of elementary reactions (and with [h] and [kB*T]
    not zero), a species that a reaction names and that has no entry in the
    free-energy mapping makes both [get_reaction_energies] on that reaction
    and [get_rate_constants] fail: each raises the [KeyError] of a species
    without energy (the error the specification calls
    [MissingEnergyError]), and the solver is left as it was. *)
Theorem missing_energy_raises o s rxn state name :
  _h o ≠ 0 → _kB o * temperature o ≠ 0 →
  Forall elementary (elementary_rxns_list o) →
  rxn ∈ elementary_rxns_list o → state ∈ rxn →
  name ∈ species_of state → E s !! name = None →
  (∃ missing, E s !! missing = None ∧
     get_reaction_energies (E s) rxn = Raise (Py.KeyError missing)) ∧
  (∃ missing, E s !! missing = None ∧
     get_rate_constants o s = (Raise (Py.KeyError missing), s)).
Proof.
  intros Hh HkT Hel Hrxn Hst Hname Hnone.
  assert (elementary rxn) as Hel1.
  { eapply Forall_forall in Hel; eauto. }
  pose proof (state_energies_unknown _ _ _ _ Hel1 Hst Hname Hnone) as Hun.
  split.
  - by apply get_reaction_energies_missing.
  - destruct (rate_constants_loop_missing (E s) (_kB o) (temperature o)
                (_kB o * temperature o / _h o)
                (elementary_rxns_list o) [] [] [] [] HkT Hel)
      as (k & Hk & Hloop).
    { apply Exists_exists. eauto. }
    exists k. split; [done|].
    apply get_rate_constants_raise. unfold rate_constants.
    rewrite truediv_ok by done. cbn. exact Hloop.
Qed.

(** With a cached dict nothing is computed. *)
Lemma ensure_state_energy_dict_cached o s d :
  state_energy_dict s = Some d →
  ensure_state_energy_dict o s = (Ok d, s).
Proof.
  intros H. unfold ensure_state_energy_dict, mbind, M_bind, get.
  by rewrite H.
Qed.

Lemma setdefault_lookup {V} k (v : V) d k' v' :
  Py.setdefault k v d !! k' = Some v' →
  d !! k' = Some v' ∨ (k' = k ∧ v' = v).
Proof.
  unfold Py.setdefault. destruct (d !! k) eqn:Hk; [by left|].
  destruct (decide (k = k')) as [<-|Hne].
  - rewrite lookup_insert_eq. intros [= <-]. by right.
  - rewrite lookup_insert_ne by done. by left.
Qed.

Lemma setdefault_keeps {V} k (v : V) d k' v' :
  d !! k' = Some v' → Py.setdefault k v d !! k' = Some v'.
Proof.
  intros H. unfold Py.setdefault. destruct (d !! k) eqn:Hk; [done|].
  rewrite lookup_insert_ne; [done|]. intros ->. congruence.
Qed.

Lemma setdefault_defined {V} k (v : V) d :
  is_Some (Py.setdefault k v d !! k).
Proof.
  unfold Py.setdefault. destruct (d !! k) eqn:Hk; [by rewrite Hk|].
  rewrite lookup_insert_eq. by eexists.
Qed.

(** The dict of one reaction, started from [acc]: every entry is an old
    one or the accumulated energy of a state under its joined name, old
    entries stay, and every state has an entry. *)
Lemma single_state_energy_loop E rxn : ∀ acc,
  (∀ st, st ∈ rxn → is_Some (weighted_sum E st)) →
  ∃ d,
    Py.for_each (add_state_energy E) acc rxn = Ok d ∧
    (∀ key v, d !! key = Some v →
       acc !! key = Some v ∨
       ∃ st g, st ∈ rxn ∧ Py.join " + " st = key ∧
               weighted_sum E st = Some g ∧ v = 0 + g) ∧
    (∀ key v, acc !! key = Some v → d !! key = Some v) ∧
    (∀ st, st ∈ rxn → is_Some (d !! Py.join " + " st)).
Proof.
  induction rxn as [|st rest IH]; intros acc Hknown.
  - exists acc. split_and!; [done | by left | done |].
    intros st Hst. by apply elem_of_nil in Hst.
  - destruct (Hknown st) as [g Hg]; [apply list_elem_of_here|].
    destruct (IH (Py.setdefault (Py.join " + " st) (0 + g) acc))
      as (d & Hrun & Hsound & Hkeep & Hdef).
    { intros st' Hst'. apply Hknown. by apply list_elem_of_further. }
    exists d. split_and!.
    + cbn [Py.for_each]. unfold add_state_energy at 1.
      rewrite (accumulate_state_sum _ _ _ _ Hg). cbn. exact Hrun.
    + intros key v Hv. destruct (Hsound key v Hv) as [Hacc|Hnew].
      * apply setdefault_lookup in Hacc as [Hacc|[-> ->]]; [by left|].
        right. exists st, g. split_and!; try done. apply list_elem_of_here.
      * destruct Hnew as (st' & g' & Hin & ? & ? & ?). right.
        exists st', g'. split_and!; try done. by apply list_elem_of_further.
    + intros key v Hv. by apply Hkeep, setdefault_keeps.
    + intros st' Hst'. apply elem_of_cons in Hst' as [->|Hst'].
      * destruct (setdefault_defined (Py.join " + " st) (0 + g) acc)
          as [v Hv].
        rewrite (Hkeep _ _ Hv). by eexists.
      * by apply Hdef.
Qed.

(** The dict of the whole network, under the same reading. *)
Lemma state_energy_loop E rxns : ∀ acc,
  (∀ rxn st, rxn ∈ rxns → st ∈ rxn → is_Some (weighted_sum E st)) →
  ∃ d,
    Py.for_each (update_state_energies E) acc rxns = Ok d ∧
    (∀ key v, d !! key = Some v →
       acc !! key = Some v ∨
       ∃ rxn st g, rxn ∈ rxns ∧ st ∈ rxn ∧ Py.join " + " st = key ∧
                   weighted_sum E st = Some g ∧ v = 0 + g) ∧
    (∀ key, is_Some (acc !! key) → is_Some (d !! key)) ∧
    (∀ rxn st, rxn ∈ rxns → st ∈ rxn → is_Some (d !! Py.join " + " st)).
Proof.
  induction rxns as [|rxn rest IH]; intros acc Hknown.
  - exists acc. split_and!; [done | by left | done |].
    intros rxn st Hrxn. by apply elem_of_nil in Hrxn.
  - destruct (single_state_energy_loop E rxn ∅)
      as (single & Hsingle & Hs_sound & _ & Hs_def).
    { intros st Hst. eapply Hknown; [apply list_elem_of_here | done]. }
    destruct (IH (single ∪ acc)) as (d & Hrun & Hsound & Hkeep & Hdef).
    { intros rxn' st Hrxn' Hst. eapply Hknown; [|done].
      by apply list_elem_of_further. }
    exists d. split_and!.
    + cbn [Py.for_each]. unfold update_state_energies at 1.
      unfold get_single_state_energy_dict. rewrite Hsingle. cbn. exact Hrun.
    + intros key v Hv. destruct (Hsound key v Hv) as [Hacc|Hnew].
      * apply lookup_union_Some_raw in Hacc as [Hacc|[_ Hacc]]; [|by left].
        destruct (Hs_sound key v Hacc) as [Hempty|(st & g & ? & ? & ? & ?)];
          [by rewrite lookup_empty in Hempty|].
        right. exists rxn, st, g. split_and!; try done.
        apply list_elem_of_here.
      * destruct Hnew as (rxn' & st & g & ? & ? & ? & ? & ?). right.
        exists rxn', st, g. split_and!; try done.
        by apply list_elem_of_further.
    + intros key [v Hv]. apply Hkeep.
      destruct (single !! key) as [w|] eqn:Hw.
      * exists w. apply lookup_union_Some_raw. by left.
      * exists v. apply lookup_union_Some_raw. by right.
    + intros rxn' st Hrxn' Hst. apply elem_of_cons in Hrxn' as [->|Hrxn'].
      * apply Hkeep. destruct (Hs_def st Hst) as [w Hw].
        exists w. apply lookup_union_Some_raw. by left.
      * by eapply Hdef.
Qed.

(** When every state of the network has an energy sum and no two
    different states share a joined name, the dict that
    [get_state_energy_dict] builds and stores holds, for every state, its
    stoichiometry-weighted energy sum. *)
Lemma get_state_energy_dict_lookup o s :
  (∀ rxn st, rxn ∈ elementary_rxns_list o → st ∈ rxn →
             is_Some (weighted_sum (E s) st)) →
  (∀ rxn1 st1 rxn2 st2,
     rxn1 ∈ elementary_rxns_list o → st1 ∈ rxn1 →
     rxn2 ∈ elementary_rxns_list o → st2 ∈ rxn2 →
     Py.join " + " st1 = Py.join " + " st2 → st1 = st2) →
  ∃ d,
    get_state_energy_dict o s = (Ok d, set_state_energy_dict d s) ∧
    ∀ rxn st g, rxn ∈ elementary_rxns_list o → st ∈ rxn →
                weighted_sum (E s) st = Some g →
                d !! Py.join " + " st = Some g.
Proof.
  intros Hknown Hinj.
  destruct (state_energy_loop (E s) (elementary_rxns_list o) ∅ Hknown)
    as (d & Hrun & Hsound & _ & Hdef).
  exists d. split.
  - unfold get_state_energy_dict, mbind, M_bind, get, lift.
    rewrite Hrun. reflexivity.
  - intros rxn st g Hrxn Hst Hg.
    destruct (Hdef rxn st Hrxn Hst) as [v Hv]. rewrite Hv.
    destruct (Hsound _ _ Hv)
      as [Hempty|(rxn' & st' & g' & Hrxn' & Hst' & Hkey & Hg' & ->)];
      [by rewrite lookup_empty in Hempty|].
    assert (st' = st) as -> by exact (Hinj _ _ _ _ Hrxn' Hst' Hrxn Hst Hkey).
    rewrite Hg in Hg'. injection Hg' as <-. f_equal. lra.
Qed.

(** The symbolic barriers of a two-state reaction: the transition state
    is the final state when the dict's energy of the initial state is at
    most that of the final state, and the initial state otherwise. *)
Lemma two_state_symbols o s s' s_IS s_FS d IS_sym FS_sym
    IS_energy FS_energy :
  has_symbols s = true →
  state_energy_symbol s s_IS = Ok IS_sym →
  state_energy_symbol s s_FS = Ok FS_sym →
  ensure_state_energy_dict o s = (Ok d, s') →
  d !! Py.join " + " s_IS = Some IS_energy →
  d !! Py.join " + " s_FS = Some FS_energy →
  get_single_delta_G_symbols o [s_IS; s_FS] s
    = (Ok (SSub (if Rle_dec IS_energy FS_energy then FS_sym else IS_sym)
                IS_sym,
           SSub (if Rle_dec IS_energy FS_energy then FS_sym else IS_sym)
                FS_sym), s').
Proof.
  intros Hsym HsI HsF Hd HdI HdF.
  unfold get_single_delta_G_symbols, mbind, M_bind, get, lift, mret, M_ret.
  rewrite Hsym. cbn [negb Py.for_each]. rewrite HsI.
  cbn [Py.result_bind app]. rewrite HsF. cbn [Py.result_bind app].
  change (Py.index [IS_sym; FS_sym] 0) with (Ok (A:=sym_expr) IS_sym).
  change (Py.index [IS_sym; FS_sym] (-1)) with (Ok (A:=sym_expr) FS_sym).
  cbv iota beta.
  rewrite decide_False by (simpl; lia).
  rewrite decide_True by reflexivity.
  rewrite Hd.
  change (Py.index [s_IS; s_FS] 0) with (Ok (A:=state_t) s_IS).
  change (Py.index [s_IS; s_FS] (-1)) with (Ok (A:=state_t) s_FS).
  cbv iota beta.
  rewrite (getitem_Some _ _ _ HdI), (getitem_Some _ _ _ HdF).
  unfold TS_idx. destruct (Rle_dec IS_energy FS_energy); reflexivity.
Qed.

(** On a solver that has its data and symbols but no cached state
    energies, for a two-state reaction of a network whose states all have
    an energy sum and distinct joined names, the comparison is between the
    weighted sums of the current energies. *)
Lemma two_state_symbols_from_current_energies o s s_IS s_FS G_IS G_FS
    IS_sym FS_sym :
  [s_IS; s_FS] ∈ elementary_rxns_list o →
  (∀ rxn st, rxn ∈ elementary_rxns_list o → st ∈ rxn →
             is_Some (weighted_sum (E s) st)) →
  (∀ rxn1 st1 rxn2 st2,
     rxn1 ∈ elementary_rxns_list o → st1 ∈ rxn1 →
     rxn2 ∈ elementary_rxns_list o → st2 ∈ rxn2 →
     Py.join " + " st1 = Py.join " + " st2 → st1 = st2) →
  weighted_sum (E s) s_IS = Some G_IS →
  weighted_sum (E s) s_FS = Some G_FS →
  has_symbols s = true → has_data s = true → state_energy_dict s = None →
  state_energy_symbol s s_IS = Ok IS_sym →
  state_energy_symbol s s_FS = Ok FS_sym →
  ∃ d,
    get_single_delta_G_symbols o [s_IS; s_FS] s
    = (Ok (SSub (if Rle_dec G_IS G_FS then FS_sym else IS_sym) IS_sym,
           SSub (if Rle_dec G_IS G_FS then FS_sym else IS_sym) FS_sym),
       set_state_energy_dict d s).
Proof.
  intros Hrxn Hknown Hinj HIS HFS Hsym Hdata Hnone HsI HsF.
  destruct (get_state_energy_dict_lookup o s Hknown Hinj) as (d & Hrun & Hd).
  exists d.
  eapply (two_state_symbols o s _ s_IS s_FS d); try eassumption.
  - unfold ensure_state_energy_dict, mbind at 1 2 3, M_bind, get, mret, M_ret.
    rewrite Hnone, Hdata. cbn [negb]. exact Hrun.
  - eapply Hd; [exact Hrxn | apply list_elem_of_here | exact HIS].
  - eapply Hd; [exact Hrxn | | exact HFS].
    apply list_elem_of_further, list_elem_of_here.
Qed.

(** C6.  For a reaction of two states [IS] and [FS] whose energy sums are
    [G_IS] and [G_FS], the barriers that [get_reaction_energies] returns
    are those of the transition energy [max(G_IS, G_FS)]; and in the
    symbolic path, with [IS_energy] and [FS_energy] the energies that the
    state-energy dict (cached, or built at this call) holds for the two
    states, [get_single_delta_G_symbols] takes the final state's symbol as
    the transition state exactly when [IS_energy <= FS_energy], so in
    particular when the two are equal. *)
Theorem two_state_transition_energy o s s' s_IS s_FS G_IS G_FS
    d IS_sym FS_sym IS_energy FS_energy :
  weighted_sum (E s) s_IS = Some G_IS →
  weighted_sum (E s) s_FS = Some G_FS →
  has_symbols s = true →
  state_energy_symbol s s_IS = Ok IS_sym →
  state_energy_symbol s s_FS = Ok FS_sym →
  ensure_state_energy_dict o s = (Ok d, s') →
  d !! Py.join " + " s_IS = Some IS_energy →
  d !! Py.join " + " s_FS = Some FS_energy →
  get_reaction_energies (E s) [s_IS; s_FS]
    = Ok (Rmax G_IS G_FS - G_IS, Rmax G_IS G_FS - G_FS) ∧
  (G_IS = G_FS → Py.max G_IS G_FS = G_FS) ∧
  get_single_delta_G_symbols o [s_IS; s_FS] s
    = (Ok (SSub (if Rle_dec IS_energy FS_energy then FS_sym else IS_sym)
                IS_sym,
           SSub (if Rle_dec IS_energy FS_energy then FS_sym else IS_sym)
                FS_sym), s') ∧
  (IS_energy = FS_energy →
   get_single_delta_G_symbols o [s_IS; s_FS] s
     = (Ok (SSub FS_sym IS_sym, SSub FS_sym FS_sym), s')).
Proof.
  intros HIS HFS Hsym HsI HsF Hd HdI HdF.
  pose proof (two_state_symbols o s s' s_IS s_FS d IS_sym FS_sym
                IS_energy FS_energy Hsym HsI HsF Hd HdI HdF) as Hsymbolic.
  split_and!.
  - apply get_reaction_energies_barriers. simpl. by rewrite HIS, HFS.
  - intros ->. rewrite max_is_Rmax. apply Rmax_left. lra.
  - exact Hsymbolic.
  - intros Heq. rewrite Hsymbolic.
    destruct (Rle_dec IS_energy FS_energy); [reflexivity | lra].
Qed.

(** *** Claims on the initial coverages *)

(** The Boltzmann factor [exp(-E[name]/(kB*T))] of a species. *)
Definition boltzmann_weight o (E : gmap string R) (name : string) : R :=
  exp (- default 0 (E !! name) / (_kB o * temperature o)).

Lemma boltzmann_weight_pos o E name : 0 < boltzmann_weight o E name.
Proof. apply exp_pos. Qed.

(** C10, amended.  On a solver that has its data, with [kB*T] not zero,
    at least one adsorbate and an energy for every adsorbate,
    [boltzmann_coverages] returns one value per adsorbate, in
    [adsorbate_names] order: the Boltzmann factor of the adsorbate divided
    by the sum of the factors of all adsorbates, whatever their sites.
    Each value is strictly positive, the values sum to 1 to within the
    numeric precision, which is what the equality of exact reals states
    here, so nothing is left for free sites, and the free-energy mapping
    is unchanged.  As rounded numbers the values need not add up to 1
    (the six level adsorbates among the worked instances); they do to
    within the roundings of one addition per adsorbate and one division
    ([coverages_within_precision]). *)
Theorem boltzmann_coverages_normalised o s :
  has_data s = true →
  _kB o * temperature o ≠ 0 →
  adsorbate_names o ≠ [] →
  (∀ name, name ∈ adsorbate_names o → is_Some (E s !! name)) →
  ∃ cvgs s',
    boltzmann_coverages o s = (Ok cvgs, s') ∧ E s' = E s ∧
    cvgs = (fun name =>
              boltzmann_weight o (E s) name
              / Py.sum (boltzmann_weight o (E s) <$> adsorbate_names o))
           <$> adsorbate_names o ∧
    length cvgs = length (adsorbate_names o) ∧
    Forall (fun cvg => 0 < cvg) cvgs ∧
    Py.sum cvgs = 1 ∧
    1 - Py.sum cvgs = 0.
Proof.
  intros Hdata HkT Hne Hknown.
  set (w := boltzmann_weight o (E s)).
  set (total := Py.sum (w <$> adsorbate_names o)).
  assert (0 < total) as Htotal.
  { apply sum_positive.
    - destruct (adsorbate_names o); [done | discriminate].
    - apply Forall_fmap, Forall_forall. intros name _.
      apply boltzmann_weight_pos. }
  assert (∀ name, name ∈ adsorbate_names o →
            Py.getitem (E s) name = Ok (default 0 (E s !! name))) as Hget.
  { intros name Hin. destruct (Hknown name Hin) as [e He].
    rewrite (getitem_Some _ _ _ He), He. reflexivity. }
  exists ((fun name => w name / total) <$> adsorbate_names o).
  eexists. split_and!.
  - unfold boltzmann_coverages, mbind at 1 2 3 4 5, M_bind, get, lift, modify.
    simpl. rewrite Hdata. simpl.
    rewrite (for_each_snoc _ w).
    2:{ intros acc name Hin. rewrite (Hget name Hin). cbn.
        rewrite truediv_ok by done. reflexivity. }
    simpl. fold total.
    rewrite (for_each_snoc _ (fun name => w name / total)).
    2:{ intros acc name Hin. rewrite (Hget name Hin). cbn.
        rewrite truediv_ok by done. cbn.
        rewrite truediv_ok by lra. reflexivity. }
    reflexivity.
  - reflexivity.
  - reflexivity.
  - by rewrite length_fmap.
  - apply Forall_fmap, Forall_forall. intros name _. simpl.
    apply Rdiv_lt_0_compat; [apply boltzmann_weight_pos | done].
  - rewrite (list_fmap_compose w (fun x => x / total)).
    rewrite sum_scaled. fold total. field. lra.
  - rewrite (list_fmap_compose w (fun x => x / total)).
    rewrite sum_scaled. fold total. field. lra.
Qed.

(** *** Claims on the turnover-frequency routine *)

Lemma overwrite_energies_cons name G Gs_order Gs E :
  overwrite_energies (name :: Gs_order) (G :: Gs) E
  = overwrite_energies Gs_order Gs (<[name := G]> E).
Proof. reflexivity. Qed.

(** A species outside the written names keeps its entry, present or not. *)
Lemma overwrite_energies_other Gs_order Gs E name :
  name ∉ Gs_order → overwrite_energies Gs_order Gs E !! name = E !! name.
Proof.
  revert Gs E. induction Gs_order as [|n Gs_order IH]; intros Gs E Hnot.
  - reflexivity.
  - destruct Gs as [|G Gs]; [reflexivity|].
    rewrite overwrite_energies_cons, IH.
    + apply lookup_insert_ne. intros ->. apply Hnot, list_elem_of_here.
    + intros Hin. by apply Hnot, list_elem_of_further.
Qed.

(** The name at position [i] receives the value at position [i] when no
    later position writes it again. *)
Lemma overwrite_energies_written Gs_order Gs E i name G :
  NoDup Gs_order → Gs_order !! i = Some name → Gs !! i = Some G →
  overwrite_energies Gs_order Gs E !! name = Some G.
Proof.
  revert Gs E i.
  induction Gs_order as [|n Gs_order IH]; intros Gs E i Hnd Hn HG.
  - by rewrite lookup_nil in Hn.
  - destruct Gs as [|G0 Gs]; [by rewrite lookup_nil in HG|].
    apply NoDup_cons in Hnd as [Hnot Hnd].
    rewrite overwrite_energies_cons. destruct i as [|i]; simpl in *.
    + injection Hn as ->. injection HG as ->.
      rewrite overwrite_energies_other by done. apply lookup_insert_eq.
    + by eapply IH.
Qed.

Lemma preserves_E_get_rate_constants o : preserves_E (get_rate_constants o).
Proof.
  unfold get_rate_constants.
  repeat first
    [ apply preserves_E_bind; [|intros]
    | apply preserves_E_modify; by intros
    | match goal with |- preserves_E (let '(_, _) := ?x in _) =>
        destruct x end
    | by auto with frame ].
Qed.

Lemma preserves_E_get_rate_expressions o rxns_list :
  preserves_E (get_rate_expressions o rxns_list).
Proof.
  unfold get_rate_expressions.
  repeat first
    [ apply preserves_E_bind; [|intros]
    | apply preserves_E_modify; by intros
    | by auto with frame ].
Qed.

Lemma preserves_E_get_net_rates rfs rrs :
  preserves_E (get_net_rates rfs rrs).
Proof.
  unfold get_net_rates.
  repeat first
    [ apply preserves_E_bind; [|intros]
    | apply preserves_E_modify; by intros
    | by auto with frame ].
Qed.

Lemma preserves_E_get_rates o exprs cvgs :
  (∀ c, preserves_E (cvg_tuple2dict o c)) →
  preserves_E (get_rates o exprs cvgs).
Proof.
  intros Htheta. unfold get_rates.
  repeat first
    [ apply preserves_E_bind; [|intros]
    | apply preserves_E_modify; by intros
    | apply preserves_E_get_rate_constants
    | apply Htheta
    | match goal with |- preserves_E (let '(_, _) := ?x in _) =>
        destruct x end
    | by auto with frame ].
Qed.

(** The mapping after [get_tof], returned or raised: the mapping before
    with the loop's assignments applied, provided the two routines defined
    outside this file do not write it themselves. *)
Lemma get_tof_energies o Gs s :
  (∀ c, preserves_E (cvg_tuple2dict o c)) →
  (∀ c, preserves_E (get_steady_state_cvgs o c)) →
  E (get_tof o Gs s).2
  = overwrite_energies (adsorbate_names o ++ transition_state_names o) Gs
      (E s).
Proof.
  intros Htheta Hroot. unfold get_tof.
  set (Gs_order := adsorbate_names o ++ transition_state_names o).
  unfold mbind at 1 2, M_bind at 1 2, modify at 1 2. cbv beta iota.
  match goal with |- E (?m ?s0).2 = _ =>
    assert (preserves_E m) as Hrest; [|by rewrite Hrest] end.
  repeat first
    [ apply preserves_E_bind; [|intros]
    | apply preserves_E_modify; by intros
    | apply preserves_E_get_rate_constants
    | apply preserves_E_get_rate_expressions
    | apply preserves_E_get_net_rates
    | apply preserves_E_get_rates
    | apply Htheta | apply Hroot
    | match goal with
      | |- preserves_E (let '(_, _) := ?x in _) => destruct x
      | |- preserves_E (match ?x with Some _ => _ | None => _ end) =>
          destruct x
      end
    | by auto with frame ].
Qed.

(** C9.  Provided the two routines defined outside this file leave the
    free-energy mapping alone, and given one value per name of
    [adsorbate_names + transition_state_names] with no name listed twice, a
    call of [get_tof] leaves the mapping with the supplied value under each
    of those names, in that order, and with every other entry as before
    the call; nothing restores the old values, also when the call raises. *)
Theorem get_tof_overwrites_energies o Gs s :
  (∀ c, preserves_E (cvg_tuple2dict o c)) →
  (∀ c, preserves_E (get_steady_state_cvgs o c)) →
  length Gs = length (adsorbate_names o ++ transition_state_names o) →
  NoDup (adsorbate_names o ++ transition_state_names o) →
  (∀ i name,
     (adsorbate_names o ++ transition_state_names o) !! i = Some name →
     ∃ G, Gs !! i = Some G ∧ E (get_tof o Gs s).2 !! name = Some G) ∧
  (∀ name,
     name ∉ adsorbate_names o ++ transition_state_names o →
     E (get_tof o Gs s).2 !! name = E s !! name).
Proof.
  intros Htheta Hroot Hlen Hnd.
  rewrite (get_tof_energies o Gs s Htheta Hroot). split.
  - intros i name Hi.
    destruct (lookup_lt_is_Some_2 Gs i) as [G HG].
    { rewrite Hlen. by eapply lookup_lt_Some. }
    exists G. split; [done|]. by eapply overwrite_energies_written.
  - intros name Hnot. by apply overwrite_energies_other.
Qed.

(** *** Claims on the classified numerical Jacobian *)

(** The step [max(|h*x_j|, h)] and the perturbed point of coordinate [j]:
    forward below [inter_num], backward from there on. *)
Definition jacobian_delta (h xj : R) : R := Rmax (Rabs (h * xj)) h.

Definition forward_coordinate (inter_num j : nat) : bool :=
  bool_decide (j < inter_num)%nat.

Definition signed_delta (inter_num j : nat) (h xj : R) : R :=
  if forward_coordinate inter_num j
  then jacobian_delta h xj else - jacobian_delta h xj.

Definition perturbed (inter_num : nat) (x : list R) (h : R) (j : nat)
  : list R :=
  <[j := x !!! j + signed_delta inter_num j h (x !!! j)]> x.

(** Column [j] of the Jacobian: the one-sided difference quotient. *)
Definition jacobian_column (inter_num : nat) (f : list R → list R)
    (x : list R) (h : R) (j : nat) : list R :=
  (fun d => d / signed_delta inter_num j h (x !!! j))
    <$> zip_with Rminus (f (perturbed inter_num x h j)) (f x).

Lemma jacobian_delta_pos h xj : 0 < h → 0 < jacobian_delta h xj.
Proof.
  intros Hh. unfold jacobian_delta.
  pose proof (Rmax_r (Rabs (h * xj)) h). lra.
Qed.

Lemma vec_div_map (a : list R) (d : R) :
  d ≠ 0 → vec_div a d = Ok ((fun x => x / d) <$> a).
Proof.
  intros Hd. unfold vec_div.
  rewrite (for_each_snoc _ (fun x => x / d)); [done|].
  intros acc x _. cbn. by rewrite truediv_ok.
Qed.

Lemma set_column_lookup (J : list (list R)) j Jj i row :
  J !! i = Some row → set_column J j Jj !! i = Some (<[j := Jj !!! i]> row).
Proof. intros H. unfold set_column. by rewrite list_lookup_imap, H. Qed.

Lemma length_set_column (J : list (list R)) j Jj :
  length (set_column J j Jj) = length J.
Proof. unfold set_column. apply length_imap. Qed.

(** Writing the columns [js] one after the other: an entry of a written
    column holds that column's value, the others are as before. *)
Lemma write_columns_lookup (col : nat → list R) (js : list nat)
    (J : list (list R)) i row :
  NoDup js → J !! i = Some row →
  ∃ row', foldl (fun J j => set_column J j (col j)) J js !! i = Some row' ∧
          length row' = length row ∧
          ∀ j, (j < length row)%nat →
               row' !! j = if decide (j ∈ js) then Some (col j !!! i)
                           else row !! j.
Proof.
  intros Hnd. revert J row.
  induction Hnd as [|j0 js Hnot Hnd IH]; intros J row Hrow; cbn [foldl].
  - exists row. split_and!; [done..|].
    intros j _. rewrite decide_False; [done | apply not_elem_of_nil].
  - destruct (IH (set_column J j0 (col j0)) (<[j0 := col j0 !!! i]> row))
      as (row' & Hrow' & Hlen & Hentries).
    { by apply set_column_lookup. }
    exists row'. rewrite length_insert in Hlen. split_and!; [done..|].
    intros j Hj. specialize (Hentries j). rewrite length_insert in Hentries.
    rewrite (Hentries Hj).
    destruct (decide (j = j0)) as [->|Hne].
    + rewrite decide_False by done.
      rewrite decide_True by apply list_elem_of_here.
      by apply list_lookup_insert_eq.
    + rewrite list_lookup_insert_ne by done.
      case_decide as Hin.
      * rewrite decide_True; [done | by apply list_elem_of_further].
      * rewrite decide_False; [done|].
        intros Hin'. apply elem_of_cons in Hin' as [?|?]; done.
Qed.

Lemma jacobian_round_column o f x h J j :
  0 < h → (∀ y, length (f y) = length (f x)) → (j < length x)%nat →
  jacobian_round o f x (f x) h J j
  = Ok (set_column J j
          (jacobian_column (length (adsorbate_names o)) f x h j)).
Proof.
  intros Hh Hf Hj. unfold jacobian_round. cbv zeta.
  destruct (lookup_lt_is_Some_2 x j Hj) as [xj Hxj].
  assert (x !!! j = xj) as Htot by (by apply list_lookup_total_correct).
  assert (Py.index x (Z.of_nat j) = Ok xj) as ->.
  { unfold Py.index.
    destruct (Z.ltb_spec (Z.of_nat j) 0); [lia|].
    destruct (Z.ltb_spec (Z.of_nat j) 0); [lia|].
    by rewrite Nat2Z.id, Hxj. }
  cbn. rewrite max_is_Rmax. fold (jacobian_delta h xj).
  pose proof (jacobian_delta_pos h xj Hh) as Hpos.
  unfold jacobian_column, perturbed, signed_delta, forward_coordinate.
  rewrite Htot. unfold vec_sub.
  case_decide as Hfw.
  - rewrite bool_decide_eq_true_2 by lia.
    rewrite decide_True by apply Hf. cbn.
    rewrite vec_div_map by lra. reflexivity.
  - rewrite bool_decide_eq_false_2 by lia.
    rewrite decide_True by apply Hf. cbn.
    rewrite vec_div_map by lra. reflexivity.
Qed.

Lemma jacobian_loop o f x h js J :
  0 < h → (∀ y, length (f y) = length (f x)) →
  Forall (fun j => j < length x)%nat js →
  Py.for_each (jacobian_round o f x (f x) h) J js
  = Ok (foldl (fun J j =>
                 set_column J j
                   (jacobian_column (length (adsorbate_names o)) f x h j))
              J js).
Proof.
  intros Hh Hf Hjs. revert J.
  induction Hjs as [|j js Hj _ IH]; intros J; [reflexivity|].
  cbn [Py.for_each foldl].
  rewrite (jacobian_round_column o f x h J j Hh Hf Hj). apply IH.
Qed.

Lemma length_write_columns (col : nat → list R) js (J : list (list R)) :
  length (foldl (fun J j => set_column J j (col j)) J js) = length J.
Proof.
  revert J. induction js as [|j js IH]; intros J; simpl; [done|].
  by rewrite IH, length_set_column.
Qed.

Lemma jacobian_column_lookup inter_num f x h j i :
  (∀ y, length (f y) = length (f x)) → (i < length (f x))%nat →
  jacobian_column inter_num f x h j !!! i
  = (f (perturbed inter_num x h j) !!! i - f x !!! i)
    / signed_delta inter_num j h (x !!! j).
Proof.
  intros Hf Hi. apply list_lookup_total_correct.
  unfold jacobian_column. rewrite list_lookup_fmap.
  destruct (lookup_lt_is_Some_2 (f x) i Hi) as [b Hb].
  destruct (lookup_lt_is_Some_2 (f (perturbed inter_num x h j)) i)
    as [a Ha]; [by rewrite Hf|].
  rewrite (list_lookup_total_correct _ _ _ Ha).
  rewrite (list_lookup_total_correct _ _ _ Hb).
  rewrite lookup_zip_with, Ha. simpl. rewrite Hb. reflexivity.
Qed.

(** The loop of [classified_numerical_jacobian] at a column vector [x],
    for a positive [h] and a function [f] whose values all have the length
    of [f x]: it returns a matrix with one row per component of [f x],
    whose entry in row [i] and column [j] is the difference quotient of
    component [i] along coordinate [j], taken forward ([x_j + delta] over
    [delta]) when [j] is below the number of adsorbates and backward
    ([x_j - delta] over [-delta]) otherwise, with
    [delta = max(|h*x_j|, h)]. *)
Lemma jacobian_loop_directions o f x h :
  0 < h → (∀ y, length (f y) = length (f x)) →
  ∃ J,
    Py.for_each (jacobian_round o f x (f x) h)
      (replicate (length (f x)) (replicate (length x) 0))
      (seq 0 (length x)) = Ok J ∧
    length J = length (f x) ∧
    ∀ i j, (i < length (f x))%nat → (j < length x)%nat →
      let inter_num := length (adsorbate_names o) in
      let delta := Rmax (Rabs (h * x !!! j)) h in
      ∃ row, J !! i = Some row ∧ length row = length x ∧
        row !! j = Some
          (if bool_decide (j < inter_num)%nat
           then (f (<[j := x !!! j + delta]> x) !!! i - f x !!! i) / delta
           else (f (<[j := x !!! j - delta]> x) !!! i - f x !!! i)
                / (- delta)).
Proof.
  intros Hh Hf.
  rewrite (jacobian_loop o f x h) by
    (try done; apply Forall_forall; intros j Hj;
     apply elem_of_seq in Hj; lia).
  eexists. split; [reflexivity|]. split.
  { by rewrite length_write_columns, length_replicate. }
  intros i j Hi Hj.
  set (inter_num := length (adsorbate_names o)).
  set (delta := Rmax (Rabs (h * x !!! j)) h).
  destruct (write_columns_lookup
              (jacobian_column inter_num f x h) (seq 0 (length x))
              (replicate (length (f x)) (replicate (length x) 0))
              i (replicate (length x) 0))
    as (row & Hrow & Hlen & Hentries).
  { apply NoDup_seq. }
  { by apply lookup_replicate_2. }
  exists row. rewrite length_replicate in Hlen, Hentries.
  split_and!; [done..|].
  rewrite (Hentries j Hj).
  rewrite decide_True by (apply elem_of_seq; lia).
  f_equal. rewrite jacobian_column_lookup by done.
  unfold perturbed, signed_delta, forward_coordinate, jacobian_delta.
  fold delta. destruct (bool_decide (j < inter_num)%nat); reflexivity.
Qed.

(** C8.  The routine never reaches the loop that the claim describes: its
    second statement asks the column vector for [reshape], which a matrix
    of [mpmath] does not have, so for every function, point and step
    [classified_numerical_jacobian] raises an [AttributeError] and no
    coordinate is perturbed. *)
Theorem classified_jacobian_raises o f x h :
  classified_numerical_jacobian o f x h
  = Raise (Py.AttributeError "'matrix' object has no attribute 'reshape'").
Proof. reflexivity. Qed.

(** *** Further methods of the solver *)

(** [SolverBase.classify_adsorbates]: the dict that the method returns
    (and keeps as [self.classified_adsorbates]), from each site name to
    the adsorbates on that site. *)
Definition classify_adsorbates o : result (gmap string (list string)) :=
  let classified_adsorbates :=
    foldl (fun classified_adsorbates site_name =>
             Py.setdefault site_name [] classified_adsorbates)
          ∅ (site_names o) in
  Py.for_each (fun classified_adsorbates adsorbate_name =>
      d ← lookup_species o adsorbate_name;
      site_name ← entry "site" (sp_site d);
      names ← Py.getitem classified_adsorbates site_name;
      Ok (<[site_name := names ++ [adsorbate_name]]> classified_adsorbates))
    classified_adsorbates (adsorbate_names o).

(** The builtin [float(x)] on an [mpf] runs the number's [__float__],
    which is part of [mpmath] and not of this file: it gives the double
    nearest to [x], or an infinity beyond the range of the doubles, and
    does not raise. *)
Variable float : R -> pyfloat.

(** [SolverBase.get_reversibilities]. *)
Definition get_reversibilities (rfs rrs : list R) : M (list pyfloat) :=
  if decide (length rfs ≠ length rrs)
  then lift (Raise (Py.ValueError "Different rates number is detected."))
  else
    let zipped_rates := zip rfs rrs in
    reversibilities ← lift (Py.for_each (fun acc rate_tuple =>
                          q ← Py.truediv rate_tuple.2 rate_tuple.1;
                          Ok (acc ++ [float q]))
                        [] zipped_rates);
    modify (setattr "reversibilities" (PyDoubles reversibilities));;
    modify (archive_data "reversibilities" (PyDoubles reversibilities));;
    mret reversibilities.

(** [SolverBase.get_cvg_tof]: the turnover frequencies at given
    coverages.  It reads [self.rate_expressions] and never builds them. *)
Definition get_cvg_tof o (cvgs : list R) : M (list R) :=
  get_rate_constants o;;
  known ← get rate_expressions;
  rate_expressions ← lift (match known with
                           | Some e => Ok e
                           | None => Raise (Py.AttributeError
                                              "rate_expressions")
                           end);
  '(rfs, rrs) ← get_rates o rate_expressions cvgs;
  net_rates ← get_net_rates rfs rrs;
  tof_list ← lift (row_times_abs net_rates (gas_matrix o));
  modify (setattr "tof" (PyFloats tof_list));;
  modify (archive_data "tofs" (PyFloats tof_list));;
  mret tof_list.

(** [SolverBase.get_intermediates_Gs]: the energies of the adsorbates and
    transition states, in the order in which [get_tof] takes them (the
    list is also kept as [intermediates_Gs]). *)
Definition get_intermediates_Gs o : M (list R) :=
  E_now ← get E;
  Gs ← lift (Py.for_each (fun Gs intermediates_name =>
               G ← Py.getitem E_now intermediates_name;
               Ok (Gs ++ [G]))
             [] (adsorbate_names o ++ transition_state_names o));
  modify (setattr "intermediates_Gs" (PyFloats Gs));;
  mret Gs.

(** [self._owner.gas_thermo_mode] and the gas corrections of
    [self._owner.corrector.shomate_gas()] come from the model and its
    corrector, which are defined outside this file; the corrections are
    the items of the returned dict in iteration order. *)
Variable gas_thermo_mode : owner -> string.
Variable shomate_gas : owner -> result (list (string * R)).

(** The loop [for gas_name in correction_dict:
    self.E[gas_name] += correction_dict[gas_name]]. *)
Fixpoint add_corrections (correction_dict : list (string * R)) : M unit :=
  match correction_dict with
  | [] => mret tt
  | (gas_name, correction) :: rest =>
      E_now ← get E;
      e ← lift (Py.getitem E_now gas_name);
      modify (set_E <[gas_name := e + correction]>);;
      add_corrections rest
  end.

(** [SolverBase.correct_energies]: [correction_dict] is bound only in the
    Shomate mode. *)
Definition correct_energies o : M (gmap string R) :=
  correction_dict ← lift (if decide (gas_thermo_mode o = "shomate_gas")
                          then c ← shomate_gas o; Ok (Some c)
                          else Ok None);
  correction_dict ← lift (match correction_dict with
                          | Some c => Ok c
                          | None => Raise (Py.UnboundLocalError
                                             "correction_dict")
                          end);
  add_corrections correction_dict;;
  modify (setattr "energy_correction" (PyBool true));;
  get E.

(** *** Further facts about energies and rate constants *)

Lemma index_head {A} (l : list A) :
  Py.index l 0 = match head l with
                 | Some a => Ok a
                 | None => Raise Py.IndexError
                 end.
Proof. by destruct l. Qed.

Lemma index_last {A} (l : list A) :
  Py.index l (-1) = match last l with
                    | Some a => Ok a
                    | None => Raise Py.IndexError
                    end.
Proof.
  unfold Py.index. rewrite last_lookup.
  destruct l as [|a l]; [reflexivity|].
  change ((-1 <? 0)%Z) with true. cbv iota.
  destruct (Z.ltb_spec (Z.of_nat (length (a :: l)) + -1) 0) as [Hneg|_].
  { simpl in Hneg. lia. }
  replace (Z.to_nat (Z.of_nat (length (a :: l)) + -1))
    with (pred (length (a :: l))) by (simpl; lia).
  reflexivity.
Qed.

Lemma exp_le_one x : x <= 0 → exp x <= 1.
Proof.
  intros [Hlt| ->].
  - rewrite <- exp_0. left. by apply exp_increasing.
  - rewrite exp_0. lra.
Qed.

Lemma eyring_bounds kB T h dG :
  0 < h → 0 < kB * T → 0 <= dG →
  0 < eyring kB T h dG <= kB * T / h.
Proof.
  intros Hh HkT HdG. unfold eyring.
  assert (0 < kB * T / h) as Hpre by (by apply Rdiv_lt_0_compat).
  pose proof (exp_pos (- dG / (kB * T))) as Hexp.
  assert (exp (- dG / (kB * T)) <= 1) as Hle.
  { apply exp_le_one. unfold Rdiv.
    assert (0 < / (kB * T)) by (by apply Rinv_0_lt_compat). nra. }
  split; nra.
Qed.

Lemma eyring_zero kB T h : eyring kB T h 0 = kB * T / h.
Proof.
  unfold eyring. replace (- 0 / (kB * T)) with 0 by (unfold Rdiv; ring).
  rewrite exp_0. ring.
Qed.

(** X1.  In a network of elementary reactions with all energies present
    (and [h] and [kB*T] positive), the two rate constants of a reaction
    written without transition state are positive and at most the
    prefactor [kB*T/h], and the larger of the two is the prefactor itself:
    the downhill direction of such a reaction has no barrier. *)
Theorem two_state_rate_constants o s :
  0 < _h o → 0 < _kB o * temperature o →
  (∀ rxn, rxn ∈ elementary_rxns_list o →
          elementary rxn ∧ energies_known (E s) rxn) →
  ∃ kfs krs s',
    get_rate_constants o s = (Ok (kfs, krs), s') ∧
    ∀ i s_IS s_FS, elementary_rxns_list o !! i = Some [s_IS; s_FS] →
      ∃ kf kr,
        kfs !! i = Some kf ∧ krs !! i = Some kr ∧
        0 < kf <= _kB o * temperature o / _h o ∧
        0 < kr <= _kB o * temperature o / _h o ∧
        Rmax kf kr = _kB o * temperature o / _h o.
Proof.
  intros Hh HkT Hwf.
  destruct (rate_constants_rows o (E s)) as
    (Gf & Gr & kfs & krs & Hrc & (_ & _ & _ & _ & Hrows));
    [lra | lra | done |].
  exists kfs, krs. eexists.
  split; [by apply get_rate_constants_run|].
  intros i s_IS s_FS Hi.
  destruct (Hrows i _ Hi)
    as (gf & gr & kf & kr & _ & _ & Hkf & Hkr & G_IS & G_TS & G_FS & Hst
        & _ & _ & -> & ->).
  exists (eyring (_kB o) (temperature o) (_h o) (G_TS - G_IS)),
         (eyring (_kB o) (temperature o) (_h o) (G_TS - G_FS)).
  simpl in Hst.
  destruct (weighted_sum (E s) s_IS) as [a|]; simpl in Hst; [|discriminate].
  destruct (weighted_sum (E s) s_FS) as [b|]; simpl in Hst; [|discriminate].
  injection Hst as <- <- <-.
  pose proof (Rmax_l a b) as Hl. pose proof (Rmax_r a b) as Hr.
  pose proof (eyring_bounds (_kB o) (temperature o) (_h o) (Rmax a b - a)
                Hh HkT ltac:(lra)) as Hbf.
  pose proof (eyring_bounds (_kB o) (temperature o) (_h o) (Rmax a b - b)
                Hh HkT ltac:(lra)) as Hbr.
  split_and!; try done; try apply Hbf; try apply Hbr.
  destruct (Rle_dec a b) as [Hab|Hab].
  - revert Hbf Hbr. rewrite (Rmax_right a b Hab).
    replace (b - b) with 0 by lra. rewrite eyring_zero. intros Hbf Hbr.
    apply Rmax_right. lra.
  - revert Hbf Hbr. rewrite (Rmax_left a b) by lra.
    replace (a - a) with 0 by lra. rewrite eyring_zero. intros Hbf Hbr.
    apply Rmax_left. lra.
Qed.

(** X2.  A reaction list that has neither two nor three states is not
    refused: [get_reaction_energies] reads its first and its last state
    only and returns the barriers of a transition energy of [0], whatever
    lies between them; only the empty list fails, with an [IndexError]. *)
Theorem reaction_energies_other_lengths E rxn :
  length rxn ≠ 2%nat → length rxn ≠ 3%nat →
  match head rxn, last rxn with
  | Some initial, Some final =>
      ∀ G_IS G_FS,
        weighted_sum E initial = Some G_IS →
        weighted_sum E final = Some G_FS →
        get_reaction_energies E rxn = Ok (0 - G_IS, 0 - G_FS)
  | _, _ => get_reaction_energies E rxn = Raise Py.IndexError
  end.
Proof.
  intros H2 H3. unfold get_reaction_energies.
  rewrite index_head, index_last.
  destruct (head rxn) as [s_IS|] eqn:Hhead.
  - destruct (last rxn) as [s_FS|] eqn:Hlast.
    + intros G_IS G_FS HIS HFS. cbn.
      rewrite (accumulate_state_sum _ _ _ _ HIS). cbn.
      rewrite (accumulate_state_sum _ _ _ _ HFS). cbn.
      rewrite !decide_False by done. cbn.
      rewrite !Rplus_0_l. reflexivity.
    + apply last_None in Hlast. subst rxn. discriminate.
  - destruct rxn; [|discriminate]. reflexivity.
Qed.

(** X3.  With Planck's constant set to zero the prefactor cannot be
    formed, and at [kB*T = 0] the exponent of the first reaction cannot:
    in both cases [get_rate_constants] raises [ZeroDivisionError] and
    stores nothing. *)
Theorem zero_constants_raise o s :
  _h o = 0 ∨
  (_kB o * temperature o = 0 ∧
   ∃ rxn rest, elementary_rxns_list o = rxn :: rest ∧
               is_Some (state_energies (E s) rxn)) →
  get_rate_constants o s = (Raise Py.ZeroDivisionError, s).
Proof.
  intros Hzero. apply get_rate_constants_raise. unfold rate_constants.
  destruct (decide (_h o = 0)) as [Hh|Hh].
  { rewrite Hh, truediv_zero. reflexivity. }
  destruct Hzero as [?|(HkT & rxn & rest & Hrxns & [[[G_IS G_TS] G_FS] Hst])];
    [done|].
  rewrite truediv_ok by done. rewrite Hrxns.
  cbn [mbind Py.result_bind rate_constants_loop].
  rewrite (get_reaction_energies_barriers _ _ _ _ _ Hst). cbn.
  rewrite HkT, !truediv_zero. reflexivity.
Qed.

Lemma solver_eq s1 s2 :
  E s1 = E s2 → p s1 = p s2 → has_data s1 = has_data s2 →
  has_symbols s1 = has_symbols s2 → sp_list s1 = sp_list s2 →
  rate_expressions s1 = rate_expressions s2 →
  initial_guess s1 = initial_guess s2 →
  state_energy_dict s1 = state_energy_dict s2 →
  attrs s1 = attrs s2 → archive s1 = archive s2 → s1 = s2.
Proof. destruct s1, s2. simpl. intros. by subst. Qed.

Lemma insert_rate_constants_twice (m : gmap string pyval) a b c d :
  let put m :=
    <["_krs" := d]> (<["_kfs" := c]> (<["_Gar" := b]> (<["_Gaf" := a]> m))) in
  put (put m) = put m.
Proof.
  intros put. unfold put. apply map_eq. intros k.
  rewrite !lookup_insert. repeat case_decide; congruence.
Qed.

Lemma setattr_rate_constants_twice s a b c d :
  let store s :=
    setattr "_krs" (PyFloats d)
      (setattr "_kfs" (PyFloats c)
         (setattr "_Gar" (PyFloats b) (setattr "_Gaf" (PyFloats a) s))) in
  store (store s) = store s.
Proof.
  intros store. apply solver_eq; try reflexivity.
  exact (insert_rate_constants_twice (attrs s) (PyFloats a) (PyFloats b)
           (PyFloats c) (PyFloats d)).
Qed.

(** A second call of [get_rate_constants] on the solver that a first
    call has left returns the same constants and changes nothing. *)
Lemma get_rate_constants_fixed o s ks s' :
  get_rate_constants o s = (Ok ks, s') →
  get_rate_constants o s' = (Ok ks, s').
Proof.
  destruct (rate_constants o (E s)) as [[[[a b] c] d]|e] eqn:Hrc.
  - rewrite (get_rate_constants_run _ _ _ _ _ _ Hrc). intros [= <- <-].
    rewrite (get_rate_constants_run _ _ a b c d) by exact Hrc.
    f_equal. apply setattr_rate_constants_twice.
  - rewrite (get_rate_constants_raise _ _ _ Hrc). discriminate.
Qed.

(** X4.  [get_rate_constants] is idempotent: calling it twice in a row
    returns what one call returns and leaves the solver as one call
    leaves it, also when it raises. *)
Theorem get_rate_constants_idempotent o s :
  (get_rate_constants o ≫= fun _ => get_rate_constants o) s
  = get_rate_constants o s.
Proof.
  unfold mbind at 1, M_bind at 1.
  destruct (get_rate_constants o s) as [[ks|e] s'] eqn:Hrun; [|reflexivity].
  by apply get_rate_constants_fixed in Hrun.
Qed.

(** *** Facts about the loaded data *)

(** Running a method that is known to return, or to raise. *)
Lemma bind_run {A B} (m : M A) (f : A → M B) s a s' :
  m s = (Ok a, s') → (m ≫= f) s = f a s'.
Proof. intros H. unfold mbind, M_bind. by rewrite H. Qed.

Lemma bind_raise {A B} (m : M A) (f : A → M B) s e s' :
  m s = (Raise e, s') → (m ≫= f) s = (Raise e, s').
Proof. intros H. unfold mbind, M_bind. by rewrite H. Qed.

(** The key of a species in [self.E]: a site goes under ["*_" + name]. *)
Definition energy_key (kv : string * species_def) : string :=
  if decide (sp_type kv.2 = "site") then "*_" +:+ kv.1 else kv.1.

Lemma pressure_loop o (gases : list string) : ∀ acc,
  (∀ gas, gas ∈ gases →
     ∃ d pr, lookup_species o gas = Ok d ∧ sp_pressure d = Some pr) →
  ∃ p_dict,
    Py.for_each (fun p_dict gas_name =>
        d ← lookup_species o gas_name;
        pr ← entry "pressure" (sp_pressure d);
        Ok (Py.setdefault gas_name pr p_dict))
      acc gases = Ok p_dict ∧
    (∀ k v, p_dict !! k = Some v →
       acc !! k = Some v ∨
       (k ∈ gases ∧ ∃ d, lookup_species o k = Ok d ∧ sp_pressure d = Some v)) ∧
    (∀ k v, acc !! k = Some v → p_dict !! k = Some v) ∧
    (∀ gas, gas ∈ gases → is_Some (p_dict !! gas)).
Proof.
  induction gases as [|gas rest IH]; intros acc Hknown.
  - exists acc. split_and!; [done | by left | done |].
    intros gas Hgas. by apply elem_of_nil in Hgas.
  - destruct (Hknown gas) as (d & pr & Hd & Hpr); [apply list_elem_of_here|].
    destruct (IH (Py.setdefault gas pr acc))
      as (p_dict & Hrun & Hsound & Hkeep & Hdef).
    { intros g Hg. apply Hknown. by apply list_elem_of_further. }
    exists p_dict. split_and!.
    + cbn [Py.for_each]. rewrite Hd. cbn. rewrite Hpr. cbn. exact Hrun.
    + intros k v Hv. destruct (Hsound k v Hv) as [Hacc|[Hin Hnew]].
      * apply setdefault_lookup in Hacc as [Hacc|[-> ->]]; [by left|].
        right. split; [apply list_elem_of_here | eauto].
      * right. split; [by apply list_elem_of_further | done].
    + intros k v Hv. by apply Hkeep, setdefault_keeps.
    + intros g Hg. apply elem_of_cons in Hg as [->|Hg]; [|by apply Hdef].
      destruct (setdefault_defined gas pr acc) as [v Hv].
      rewrite (Hkeep _ _ Hv). by eexists.
Qed.

Lemma energy_loop
    (body : gmap string R * gmap string (list R) → string * species_def →
            result (gmap string R * gmap string (list R)))
    (defs : list (string * species_def)) :
  (∀ E_dict frequencies_dict kv,
     body (E_dict, frequencies_dict) kv
     = (energy ← entry "formation_energy" (sp_formation_energy kv.2);
        frequencies ← entry "frequencies" (sp_frequencies kv.2);
        Ok (Py.setdefault (energy_key kv) energy E_dict,
            Py.setdefault (energy_key kv) frequencies frequencies_dict))) →
  ∀ E_acc F_acc,
  (∀ kv, kv ∈ defs → is_Some (sp_formation_energy kv.2) ∧
                      is_Some (sp_frequencies kv.2)) →
  ∃ E_dict F_dict,
    Py.for_each body (E_acc, F_acc) defs = Ok (E_dict, F_dict) ∧
    (∀ k v, E_dict !! k = Some v →
       E_acc !! k = Some v ∨
       ∃ kv, kv ∈ defs ∧ energy_key kv = k ∧
             sp_formation_energy kv.2 = Some v) ∧
    (∀ k v, E_acc !! k = Some v → E_dict !! k = Some v) ∧
    (∀ kv, kv ∈ defs → is_Some (E_dict !! energy_key kv)).
Proof.
  intros Hbody.
  induction defs as [|[species d] rest IH]; intros E_acc F_acc Hknown.
  - exists E_acc, F_acc. split_and!; [done | by left | done |].
    intros kv Hkv. by apply elem_of_nil in Hkv.
  - destruct (Hknown (species, d)) as [[energy He] [freqs Hf]];
      [apply list_elem_of_here|]. simpl in He, Hf.
    destruct (IH (Py.setdefault (energy_key (species, d)) energy E_acc)
                 (Py.setdefault (energy_key (species, d)) freqs F_acc))
      as (E_dict & F_dict & Hrun & Hsound & Hkeep & Hdef).
    { intros kv Hkv. apply Hknown. by apply list_elem_of_further. }
    exists E_dict, F_dict. split_and!.
    + cbn [Py.for_each]. rewrite Hbody. cbn [snd]. rewrite He, Hf.
      cbn [mbind Py.result_bind]. exact Hrun.
    + intros k v Hv. destruct (Hsound k v Hv) as [Hacc|(kv & Hin & ? & ?)].
      * apply setdefault_lookup in Hacc as [Hacc|[-> ->]]; [by left|].
        right. exists (species, d). split_and!; try done.
        apply list_elem_of_here.
      * right. exists kv. split_and!; try done.
        by apply list_elem_of_further.
    + intros k v Hv. by apply Hkeep, setdefault_keeps.
    + intros kv Hkv. apply elem_of_cons in Hkv as [->|Hkv]; [|by apply Hdef].
      destruct (setdefault_defined (energy_key (species, d)) energy E_acc)
        as [v Hv].
      rewrite (Hkeep _ _ Hv). by eexists.
Qed.

Lemma NoDup_fmap_eq {A B} (f : A → B) (l : list A) x y :
  NoDup (f <$> l) → x ∈ l → y ∈ l → f x = f y → x = y.
Proof.
  induction l as [|a l IH]; intros Hnd Hx Hy Hxy; [by apply elem_of_nil in Hx|].
  rewrite fmap_cons in Hnd. apply NoDup_cons in Hnd as [Hnot Hnd].
  apply elem_of_cons in Hx as [->|Hx]; apply elem_of_cons in Hy as [->|Hy].
  - done.
  - exfalso. apply Hnot. rewrite Hxy. by apply list_elem_of_fmap_2.
  - exfalso. apply Hnot. rewrite <- Hxy. by apply list_elem_of_fmap_2.
  - by apply IH.
Qed.

(** X5.  When the model has its data, every gas has an entry with a
    pressure, every species has a formation energy and frequencies, and no
    two species share a key, [get_data_dict] succeeds and replaces the
    solver's tables: afterwards [self.E] holds exactly the formation
    energy of every species of [species_definitions], a site under
    ["*_" + name], and nothing of what it held before; [self.p] holds
    exactly the pressure of every gas; and [has_data] is set. *)
Theorem get_data_dict_loads o s :
  hasdata o = true →
  (∀ gas, gas ∈ gas_names o →
     ∃ d pr, lookup_species o gas = Ok d ∧ sp_pressure d = Some pr) →
  (∀ kv, kv ∈ species_definitions o →
     is_Some (sp_formation_energy kv.2) ∧ is_Some (sp_frequencies kv.2)) →
  NoDup (energy_key <$> species_definitions o) →
  ∃ s',
    get_data_dict o s = (Ok tt, s') ∧ has_data s' = true ∧
    (∀ kv, kv ∈ species_definitions o →
       E s' !! energy_key kv = sp_formation_energy kv.2) ∧
    (∀ k, k ∉ energy_key <$> species_definitions o → E s' !! k = None) ∧
    (∀ gas d, gas ∈ gas_names o → lookup_species o gas = Ok d →
       p s' !! gas = sp_pressure d) ∧
    (∀ gas, gas ∉ gas_names o → p s' !! gas = None).
Proof.
  intros Hdata Hgas Hdefs Hnd.
  destruct (pressure_loop o (gas_names o) ∅ Hgas)
    as (p_dict & Hp & Hp_sound & _ & Hp_def).
  assert (∃ E_dict F_dict,
    get_data_dict o s
    = (Ok tt,
       set_has_data true
         (setattr "frequencies" (PyFreqs F_dict)
            (set_E (fun _ => E_dict)
               (set_p p_dict
                  (setattr "energy_correction" (PyBool false) s))))) ∧
    (∀ k v, E_dict !! k = Some v →
       ∃ kv, kv ∈ species_definitions o ∧ energy_key kv = k ∧
             sp_formation_energy kv.2 = Some v) ∧
    (∀ kv, kv ∈ species_definitions o → is_Some (E_dict !! energy_key kv)))
    as (E_dict & F_dict & Hrun & HE_sound & HE_def).
  { unfold get_data_dict. destruct (hasdata o); [|discriminate]. cbn [negb].
    match goal with
    | |- context [Py.for_each ?body (∅, ∅) (species_definitions o)] =>
        destruct (energy_loop body (species_definitions o)
                    ltac:(by intros ? ? [? ?]) ∅ ∅ Hdefs)
          as (E_dict & F_dict & HE & HE_sound & _ & HE_def)
    end.
    exists E_dict, F_dict. split_and!.
    - erewrite bind_run by (unfold lift; rewrite Hp; reflexivity). cbv beta.
      erewrite bind_run by (unfold lift; rewrite HE; reflexivity).
      reflexivity.
    - intros k v Hv. destruct (HE_sound k v Hv) as [Hempty|?]; [|done].
      by rewrite lookup_empty in Hempty.
    - done. }
  eexists. split; [exact Hrun|].
  cbn. split_and!.
  - reflexivity.
  - intros kv Hkv. destruct (HE_def kv Hkv) as [v Hv]. rewrite Hv.
    destruct (HE_sound _ _ Hv) as (kv' & Hkv' & Hkey & Hval).
    by rewrite <- (NoDup_fmap_eq energy_key _ kv' kv Hnd Hkv' Hkv Hkey).
  - intros k Hk. destruct (E_dict !! k) as [v|] eqn:Hv; [|done].
    destruct (HE_sound _ _ Hv) as (kv' & Hkv' & Hkey & Hval).
    exfalso. apply Hk. rewrite <- Hkey. by apply list_elem_of_fmap_2.
  - intros gas d Hin Hd. destruct (Hp_def gas Hin) as [v Hv]. rewrite Hv.
    destruct (Hp_sound _ _ Hv) as [Hempty|(_ & d' & Hd' & Hpr)];
      [by rewrite lookup_empty in Hempty|].
    congruence.
  - intros gas Hnot. destruct (p_dict !! gas) as [v|] eqn:Hv; [|done].
    destruct (Hp_sound _ _ Hv) as [Hempty|(Hin & _)];
      [by rewrite lookup_empty in Hempty | done].
Qed.

(** X6.  [get_data_dict] is all or nothing: when it raises, for a model
    without data (an [AttributeError]) or for an entry without pressure,
    formation energy or frequencies (a [KeyError]), the solver is exactly
    as it was before the call. *)
Theorem get_data_dict_all_or_nothing o s e s' :
  get_data_dict o s = (Raise e, s') →
  s' = s ∧
  (hasdata o = false →
   e = Py.AttributeError
         "model object has no input data in species_definitions").
Proof.
  unfold get_data_dict. destruct (hasdata o); cbn [negb].
  - unfold mbind at 1, M_bind at 1, lift at 1.
    match goal with |- context [Py.for_each ?body ∅ (gas_names o)] =>
      destruct (Py.for_each body ∅ (gas_names o)) as [p_dict|e1] end.
    + unfold mbind at 1, M_bind at 1, lift at 1.
      match goal with
      | |- context [Py.for_each ?body (∅, ∅) (species_definitions o)] =>
          destruct (Py.for_each body (∅, ∅) (species_definitions o))
            as [[E_dict F_dict]|e2]
      end.
      * discriminate.
      * intros [= <- <-]. done.
    + intros [= <- <-]. done.
  - intros [= <- <-]. done.
Qed.

(** *** Facts about net rates, reversibilities and the projection *)

Lemma reversibilities_loop (rfs rrs : list R) :
  Forall (fun rf => rf ≠ 0) rfs →
  Py.for_each (fun acc rate_tuple =>
      q ← Py.truediv rate_tuple.2 rate_tuple.1;
      Ok (acc ++ [float q]))
    [] (zip rfs rrs)
  = Ok ((fun rate_tuple => float (rate_tuple.2 / rate_tuple.1))
          <$> zip rfs rrs).
Proof.
  intros Hnz.
  rewrite (for_each_snoc _
             (fun rate_tuple => float (rate_tuple.2 / rate_tuple.1)));
    [done|].
  intros acc [rf rr] Hin. cbn.
  rewrite truediv_ok; [done|].
  apply elem_of_zip_l in Hin. by eapply Forall_forall in Hnz.
Qed.

(** X7.  For as many reverse as forward rates, none of the forward rates
    zero, [get_reversibilities] returns one Python float per reaction,
    [float(rr/rf)], the reverse rate over the forward one, keeps the list
    as [reversibilities] and archives it, and [get_net_rates] returns
    [rf - rr]; a reaction whose two rates are equal has the net rate [0]
    and the reversibility [float(1)]. *)
Theorem reversibility_and_net_rate rfs rrs s :
  length rfs = length rrs → Forall (fun rf => rf ≠ 0) rfs →
  ∃ revs nets s2,
    get_reversibilities rfs rrs s
    = (Ok revs,
       archive_data "reversibilities" (PyDoubles revs)
         (setattr "reversibilities" (PyDoubles revs) s)) ∧
    get_net_rates rfs rrs s = (Ok nets, s2) ∧
    length revs = length rfs ∧ length nets = length rfs ∧
    ∀ i rf rr, rfs !! i = Some rf → rrs !! i = Some rr →
      revs !! i = Some (float (rr / rf)) ∧ nets !! i = Some (rf - rr) ∧
      (rf = rr → revs !! i = Some (float 1) ∧ nets !! i = Some 0).
Proof.
  intros Hlen Hnz.
  exists ((fun rate_tuple => float (rate_tuple.2 / rate_tuple.1))
            <$> zip rfs rrs),
         ((fun '(rf, rr) => rf - rr) <$> zip rfs rrs).
  eexists. split_and!.
  - unfold get_reversibilities. rewrite decide_False by (intros H; by apply H).
    unfold mbind at 1, M_bind at 1, lift at 1.
    rewrite (reversibilities_loop rfs rrs Hnz). reflexivity.
  - reflexivity.
  - rewrite length_fmap, length_zip. lia.
  - rewrite length_fmap, length_zip. lia.
  - intros i rf rr Hrf Hrr.
    assert (zip rfs rrs !! i = Some (rf, rr)) as Hzip.
    { rewrite lookup_zip_with, Hrf. simpl. by rewrite Hrr. }
    assert (rf ≠ 0) as Hrf0.
    { eapply Forall_forall in Hnz; [done|]. by eapply list_elem_of_lookup_2. }
    rewrite !list_lookup_fmap, Hzip. simpl.
    split_and!; try done.
    intros <-. split; do 2 f_equal; [by field | lra].
Qed.

(** X8.  [get_reversibilities] refuses what [get_net_rates] accepts: with
    lists of different lengths it raises a [ValueError], and with a zero
    forward rate a [ZeroDivisionError], storing and archiving nothing in
    either case, whereas [get_net_rates] on the same lists returns the
    differences of the pairs that exist. *)
Theorem get_reversibilities_errors rfs rrs s :
  length rfs ≠ length rrs ∨ 0 ∈ rfs →
  (∃ e,
     get_reversibilities rfs rrs s = (Raise e, s) ∧
     (length rfs ≠ length rrs →
      e = Py.ValueError "Different rates number is detected.") ∧
     (length rfs = length rrs → e = Py.ZeroDivisionError)) ∧
  (∃ nets s',
     get_net_rates rfs rrs s = (Ok nets, s') ∧
     length nets = Nat.min (length rfs) (length rrs)).
Proof.
  intros Hbad. split.
  - unfold get_reversibilities. case_decide as Hlen.
    + eexists. split; [reflexivity|]. split; [done|]. intros; done.
    + assert (length rfs = length rrs) as Heq by lia.
      destruct Hbad as [?|Hzero]; [done|].
      exists Py.ZeroDivisionError. split; [|split; [done|done]].
      unfold mbind at 1, M_bind at 1, lift at 1.
      assert (∀ acc,
        Py.for_each (fun acc rate_tuple =>
            q ← Py.truediv rate_tuple.2 rate_tuple.1;
            Ok (acc ++ [float q]))
          acc (zip rfs rrs) = Raise Py.ZeroDivisionError) as ->; [|done].
      clear Hlen. revert rrs Heq.
      induction rfs as [|rf rfs IH]; intros rrs Heq acc;
        [by apply elem_of_nil in Hzero|].
      destruct rrs as [|rr rrs]; [discriminate|].
      cbn [zip zip_with Py.for_each fst snd].
      destruct (decide (rf = 0)) as [->|Hrf].
      * by rewrite truediv_zero.
      * rewrite truediv_ok by done. cbn.
        apply IH; [|by injection Heq].
        apply elem_of_cons in Hzero as [Hz|Hz]; [by subst|done].
  - do 2 eexists. split; [reflexivity|].
    by rewrite length_fmap, length_zip.
Qed.

Lemma lookup_total_abs (f : R → R) (row : list R) j :
  (∀ x, Rabs (f x) = Rabs x) →
  Rabs ((f <$> row) !!! j) = Rabs (row !!! j).
Proof.
  intros Hf. rewrite !list_lookup_total_alt, list_lookup_fmap.
  destruct (row !! j); simpl; [apply Hf | reflexivity].
Qed.

(** X10.  The turnover frequencies do not depend on the sign convention of
    the gas matrix: negating it, or any of its entries, gives the same
    result, so a consumed gas and a produced gas both count positive. *)
Theorem tof_projection_ignores_signs (r : list R) (gm : list (list R))
    (flip : R → R) :
  (∀ x, flip x = x ∨ flip x = - x) →
  row_times_abs r (fmap (M:=list) (fmap (M:=list) flip) gm) = row_times_abs r gm.
Proof.
  intros Hflip.
  assert (∀ x, Rabs (flip x) = Rabs x) as Habs.
  { intros x. destruct (Hflip x) as [->| ->]; [done | apply Rabs_Ropp]. }
  unfold row_times_abs. rewrite length_fmap.
  case_decide as Hlen; [|reflexivity].
  f_equal.
  assert (match fmap (M:=list) (fmap (M:=list) flip) gm with
          | [] => 0%nat | row :: _ => length row end
          = match gm with [] => 0%nat | row :: _ => length row end) as ->.
  { destruct gm; [done|]. simpl. by rewrite length_fmap. }
  apply list_fmap_ext. intros _ j _. f_equal.
  clear Hlen. revert gm. induction r as [|a r IH]; intros gm; [done|].
  destruct gm as [|row gm]; [done|].
  cbn [fmap list_fmap zip zip_with]. f_equal.
  - by rewrite (lookup_total_abs flip row j Habs).
  - apply IH.
Qed.

(** *** Facts about the energies of the intermediates *)

(** The loop of [get_intermediates_Gs] returns exactly when every name
    has an energy, and then with the energies in order. *)
Lemma intermediates_loop (E_now : gmap string R) (names : list string) :
  ∀ acc Gs,
  Py.for_each (fun Gs intermediates_name =>
      G ← Py.getitem E_now intermediates_name;
      Ok (Gs ++ [G]))
    acc names = Ok Gs ↔
  (∀ name, name ∈ names → is_Some (E_now !! name)) ∧
  Gs = acc ++ ((fun name => default 0 (E_now !! name)) <$> names).
Proof.
  induction names as [|name names IH]; intros acc Gs; cbn [Py.for_each].
  - rewrite fmap_nil, app_nil_r. split.
    + intros [= <-]. split; [|done]. intros name Hin.
      by apply elem_of_nil in Hin.
    + by intros [_ ->].
  - unfold Py.getitem at 1.
    destruct (E_now !! name) as [G|] eqn:HG; cbn [mbind Py.result_bind].
    + rewrite IH. rewrite fmap_cons, HG. cbn [default].
      rewrite <- app_assoc. cbn [app].
      split; intros [Hknown ->]; (split; [|done]).
      * intros n Hn. apply elem_of_cons in Hn as [->|Hn]; [by eexists|].
        by apply Hknown.
      * intros n Hn. apply Hknown. by apply list_elem_of_further.
    + split; [discriminate|]. intros [Hknown _].
      destruct (Hknown name) as [G HG']; [apply list_elem_of_here|].
      congruence.
Qed.

Lemma get_intermediates_Gs_run o s Gs s' :
  get_intermediates_Gs o s = (Ok Gs, s') →
  (∀ name, name ∈ adsorbate_names o ++ transition_state_names o →
           is_Some (E s !! name)) ∧
  Gs = (fun name => default 0 (E s !! name))
       <$> (adsorbate_names o ++ transition_state_names o) ∧
  s' = setattr "intermediates_Gs" (PyFloats Gs) s.
Proof.
  unfold get_intermediates_Gs, mbind at 1 2, M_bind at 1 2, get, lift.
  match goal with |- context [Py.for_each ?body [] ?names] =>
    destruct (Py.for_each body [] names) as [Gs'|e] eqn:Hloop end;
    [|discriminate].
  apply intermediates_loop in Hloop as [Hknown ->].
  intros [= <- <-]. done.
Qed.

(** Writing back the energies just read changes nothing. *)
Lemma overwrite_energies_read_back (names : list string) E :
  (∀ name, name ∈ names → is_Some (E !! name)) →
  overwrite_energies names
    ((fun name => default 0 (E !! name)) <$> names) E = E.
Proof.
  intros Hknown.
  assert (∀ E', E' = E →
    overwrite_energies names
      ((fun name => default 0 (E !! name)) <$> names) E' = E) as H;
    [|by apply H].
  induction names as [|name names IH]; intros E' ->; [reflexivity|].
  rewrite fmap_cons, overwrite_energies_cons. apply IH.
  - intros n Hn. apply Hknown. by apply list_elem_of_further.
  - destruct (Hknown name) as [G HG]; [apply list_elem_of_here|].
    rewrite HG. cbn. by apply insert_id.
Qed.

(** X11.  [get_intermediates_Gs] reads back what [get_tof] wrote: after a
    call [get_tof(Gs)] with one value per intermediate and no name listed
    twice, whether that call returned or raised, [get_intermediates_Gs]
    returns the very list [Gs] and changes nothing but the attribute
    that keeps it. *)
Theorem get_intermediates_Gs_after_get_tof o Gs s :
  (∀ c, preserves_E (cvg_tuple2dict o c)) →
  (∀ c, preserves_E (get_steady_state_cvgs o c)) →
  length Gs = length (adsorbate_names o ++ transition_state_names o) →
  NoDup (adsorbate_names o ++ transition_state_names o) →
  get_intermediates_Gs o (get_tof o Gs s).2
  = (Ok Gs, setattr "intermediates_Gs" (PyFloats Gs) (get_tof o Gs s).2).
Proof.
  intros Htheta Hroot Hlen Hnd.
  pose proof (get_tof_energies o Gs s Htheta Hroot) as HE.
  set (s1 := (get_tof o Gs s).2) in *.
  set (names := adsorbate_names o ++ transition_state_names o) in *.
  assert (∀ i name, names !! i = Some name → E s1 !! name = Gs !! i) as Hread.
  { intros i name Hi.
    destruct (lookup_lt_is_Some_2 Gs i) as [G HG].
    { rewrite Hlen. by eapply lookup_lt_Some. }
    rewrite HE, HG. by eapply overwrite_energies_written. }
  assert ((fun name => default 0 (E s1 !! name)) <$> names = Gs) as Hlist.
  { apply list_eq. intros i. rewrite list_lookup_fmap.
    destruct (names !! i) as [name|] eqn:Hi; simpl.
    - rewrite (Hread i name Hi).
      destruct (lookup_lt_is_Some_2 Gs i) as [G HG].
      { rewrite Hlen. by eapply lookup_lt_Some. }
      by rewrite HG.
    - symmetry. apply lookup_ge_None. rewrite Hlen.
      by apply lookup_ge_None. }
  unfold get_intermediates_Gs.
  unfold mbind at 1 2, M_bind at 1 2, get, lift. fold names.
  match goal with |- context [Py.for_each ?body [] names] =>
    assert (Py.for_each body [] names = Ok Gs) as -> end.
  { apply intermediates_loop. split; [|by rewrite Hlist].
    intros name Hin. apply list_elem_of_lookup in Hin as [i Hi].
    rewrite (Hread i name Hi). apply lookup_lt_is_Some_2.
    rewrite Hlen. by eapply lookup_lt_Some. }
  reflexivity.
Qed.

(** X12.  Handing [get_tof] the list that [get_intermediates_Gs] has just
    returned, as [get_rate_control] does, leaves the free-energy mapping
    exactly as it was, provided the two routines defined outside this file
    do not write it. *)
Theorem get_tof_of_current_energies o s Gs s1 :
  (∀ c, preserves_E (cvg_tuple2dict o c)) →
  (∀ c, preserves_E (get_steady_state_cvgs o c)) →
  get_intermediates_Gs o s = (Ok Gs, s1) →
  E (get_tof o Gs s1).2 = E s.
Proof.
  intros Htheta Hroot Hrun.
  apply get_intermediates_Gs_run in Hrun as (Hknown & -> & ->).
  rewrite (get_tof_energies o _ _ Htheta Hroot). cbn [E setattr].
  by apply overwrite_energies_read_back.
Qed.

(** *** Facts about [get_cvg_tof] *)

Lemma preserves_E_get_cvg_tof o cvgs :
  (∀ c, preserves_E (cvg_tuple2dict o c)) →
  preserves_E (get_cvg_tof o cvgs).
Proof.
  intros Htheta. unfold get_cvg_tof.
  repeat first
    [ apply preserves_E_bind; [|intros]
    | apply preserves_E_modify; by intros
    | apply preserves_E_get_rate_constants
    | apply preserves_E_get_net_rates
    | apply preserves_E_get_rates
    | apply Htheta
    | match goal with
      | |- preserves_E (let '(_, _) := ?x in _) => destruct x
      end
    | by auto with frame ].
Qed.

(** X13.  [get_tof] is [get_cvg_tof] at the steady-state coverages of the
    energies it has written: when the rate constants of the overwritten
    energies exist, the solver has an initial guess and its rate
    expressions, and the root finder returns coverages without changing
    the solver, the two calls return the same turnover frequencies (or
    raise the same exception) and leave the same solver, and
    [get_cvg_tof] on its own never changes the energies. *)
Theorem get_tof_is_get_cvg_tof o Gs s ks s2 guess cvgs exprs :
  (∀ c, preserves_E (cvg_tuple2dict o c)) →
  get_rate_constants o
    (set_E (overwrite_energies
              (adsorbate_names o ++ transition_state_names o) Gs)
       (setattr "Gs_order"
          (PyStrs (adsorbate_names o ++ transition_state_names o)) s))
  = (Ok ks, s2) →
  initial_guess s = Some guess →
  rate_expressions s = Some exprs →
  get_steady_state_cvgs o guess s2 = (Ok cvgs, s2) →
  get_tof o Gs s = get_cvg_tof o cvgs s2 ∧
  E (get_cvg_tof o cvgs s2).2 = E s2.
Proof.
  intros Htheta Hrc Hguess Hexprs Hroot.
  split; [|by apply preserves_E_get_cvg_tof].
  pose proof (get_rate_constants_fixed _ _ _ _ Hrc) as Hfix.
  assert (initial_guess s2 = Some guess ∧ rate_expressions s2 = Some exprs)
    as [Hguess2 Hexprs2].
  { revert Hrc.
    match goal with |- get_rate_constants o ?s1 = _ → _ =>
      destruct (rate_constants o (E s1)) as [[[[a b] c] d]|e] eqn:Hk;
      [rewrite (get_rate_constants_run _ _ _ _ _ _ Hk)
      |rewrite (get_rate_constants_raise _ _ _ Hk)] end.
    - intros [= <- <-]. done.
    - discriminate. }
  unfold get_tof, get_cvg_tof.
  erewrite bind_run by reflexivity. cbv beta.
  erewrite bind_run by reflexivity. cbv beta.
  erewrite bind_run by exact Hrc. cbv beta.
  erewrite (bind_run (get initial_guess)) by reflexivity. cbv beta.
  rewrite Hguess2.
  erewrite bind_run by reflexivity. cbv beta.
  erewrite bind_run by exact Hroot. cbv beta.
  erewrite (bind_run (get rate_expressions)) by reflexivity. cbv beta.
  rewrite Hexprs2.
  erewrite (bind_run (mret exprs)) by reflexivity. cbv beta.
  symmetry.
  erewrite bind_run by exact Hfix. cbv beta.
  erewrite (bind_run (get rate_expressions)) by reflexivity. cbv beta.
  rewrite Hexprs2.
  erewrite bind_run by reflexivity. cbv beta.
  reflexivity.
Qed.

(** X14.  [get_cvg_tof] never builds the rate expressions: on a solver
    that has none it cannot return.  It raises, an [AttributeError] once
    the rate constants are computed, and leaves the solver still without
    expressions and with its energies unchanged; [get_tof] in the same
    situation builds them. *)
Theorem get_cvg_tof_needs_rate_expressions o cvgs s :
  rate_expressions s = None →
  ∃ e s',
    get_cvg_tof o cvgs s = (Raise e, s') ∧
    rate_expressions s' = None ∧ E s' = E s ∧
    (∀ ks s1, get_rate_constants o s = (Ok ks, s1) →
              e = Py.AttributeError "rate_expressions").
Proof.
  intros Hnone. unfold get_cvg_tof.
  destruct (rate_constants o (E s)) as [[[[a b] c] d]|e] eqn:Hk.
  - pose proof (get_rate_constants_run _ _ _ _ _ _ Hk) as Hrun.
    erewrite bind_run by exact Hrun. cbv beta.
    erewrite (bind_run (get rate_expressions)) by reflexivity. cbv beta.
    cbn [rate_expressions setattr]. rewrite Hnone.
    erewrite bind_raise by reflexivity.
    do 2 eexists. split_and!; try reflexivity; try done.
  - pose proof (get_rate_constants_raise _ _ _ Hk) as Hrun.
    erewrite bind_raise by exact Hrun.
    do 2 eexists. split_and!; try reflexivity; try done.
    intros ks s1. rewrite Hrun. discriminate.
Qed.

(** *** Facts about the energy corrections *)

(** The mapping with every correction added to the energy of its gas. *)
Definition corrected (correction_dict : list (string * R))
    (E : gmap string R) : gmap string R :=
  foldl (fun E '(gas_name, correction) =>
           <[gas_name := default 0 (E !! gas_name) + correction]> E)
        E correction_dict.

Lemma corrected_defined correction_dict E name :
  is_Some (E !! name) → is_Some (corrected correction_dict E !! name).
Proof.
  revert E. induction correction_dict as [|[g c] rest IH]; intros E HE;
    [done|].
  cbn [corrected foldl]. apply IH.
  destruct (decide (g = name)) as [->|Hne].
  - rewrite lookup_insert_eq. by eexists.
  - by rewrite lookup_insert_ne.
Qed.

Lemma corrected_other correction_dict E name :
  name ∉ correction_dict.*1 → corrected correction_dict E !! name = E !! name.
Proof.
  revert E. induction correction_dict as [|[g c] rest IH]; intros E Hnot;
    [done|].
  cbn [corrected foldl]. rewrite fmap_cons in Hnot. cbn [fst] in Hnot.
  fold (corrected rest (<[g := default 0 (E !! g) + c]> E)).
  rewrite IH.
  - apply lookup_insert_ne. intros ->. apply Hnot, list_elem_of_here.
  - intros Hin. by apply Hnot, list_elem_of_further.
Qed.

Lemma corrected_lookup correction_dict E gas_name correction :
  NoDup correction_dict.*1 → (gas_name, correction) ∈ correction_dict →
  corrected correction_dict E !! gas_name
  = Some (default 0 (E !! gas_name) + correction).
Proof.
  revert E. induction correction_dict as [|[g c] rest IH]; intros E Hnd Hin;
    [by apply elem_of_nil in Hin|].
  rewrite fmap_cons in Hnd. cbn [fst] in Hnd.
  apply NoDup_cons in Hnd as [Hnot Hnd].
  cbn [corrected foldl].
  fold (corrected rest (<[g := default 0 (E !! g) + c]> E)).
  apply elem_of_cons in Hin as [[= -> ->]|Hin].
  - rewrite corrected_other by done. apply lookup_insert_eq.
  - rewrite IH by done. rewrite lookup_insert_ne; [done|].
    intros ->. apply Hnot.
    by apply (list_elem_of_fmap_2 fst rest (gas_name, correction)).
Qed.

Lemma set_E_set_E (f g : gmap string R → gmap string R) s :
  set_E f (set_E g s) = set_E (fun E => f (g E)) s.
Proof. reflexivity. Qed.

(** With an energy for every corrected gas the loop runs through. *)
Lemma add_corrections_run correction_dict : ∀ s,
  (∀ name, name ∈ correction_dict.*1 → is_Some (E s !! name)) →
  add_corrections correction_dict s
  = (Ok tt, set_E (fun _ => corrected correction_dict (E s)) s).
Proof.
  induction correction_dict as [|[g c] rest IH]; intros s Hknown.
  - cbn [add_corrections corrected foldl]. unfold mret, M_ret.
    f_equal. by destruct s.
  - destruct (Hknown g) as [e He]; [apply list_elem_of_here|].
    cbn [add_corrections].
    erewrite (bind_run (get E)) by reflexivity. cbv beta.
    erewrite bind_run
      by (unfold lift; rewrite (getitem_Some _ _ _ He); reflexivity).
    cbv beta.
    erewrite bind_run by reflexivity. cbv beta.
    rewrite IH.
    + rewrite set_E_set_E. cbn [E set_E corrected foldl]. by rewrite He.
    + intros name Hin. cbn [E set_E].
      destruct (decide (g = name)) as [->|Hne].
      * rewrite lookup_insert_eq. by eexists.
      * rewrite lookup_insert_ne by done.
        apply Hknown. by apply list_elem_of_further.
Qed.

(** The loop stops at the first gas without an energy; the gases before
    it keep their corrections. *)
Lemma add_corrections_missing before gas_name correction after : ∀ s,
  (∀ name, name ∈ before.*1 → is_Some (E s !! name)) →
  E s !! gas_name = None →
  add_corrections (before ++ (gas_name, correction) :: after) s
  = (Raise (Py.KeyError gas_name),
     set_E (fun _ => corrected before (E s)) s).
Proof.
  induction before as [|[g c] rest IH]; intros s Hknown Hnone.
  - cbn [app add_corrections corrected foldl].
    erewrite (bind_run (get E)) by reflexivity. cbv beta.
    erewrite bind_raise
      by (unfold lift; rewrite (getitem_None _ _ Hnone); reflexivity).
    f_equal. by destruct s.
  - destruct (Hknown g) as [e He]; [apply list_elem_of_here|].
    rewrite <- app_comm_cons. cbn [add_corrections].
    erewrite (bind_run (get E)) by reflexivity. cbv beta.
    erewrite bind_run
      by (unfold lift; rewrite (getitem_Some _ _ _ He); reflexivity).
    cbv beta.
    erewrite bind_run by reflexivity. cbv beta.
    rewrite IH.
    + rewrite set_E_set_E. cbn [E set_E corrected foldl]. by rewrite He.
    + intros name Hin. cbn [E set_E].
      destruct (decide (g = name)) as [->|Hne].
      * rewrite lookup_insert_eq. by eexists.
      * rewrite lookup_insert_ne by done.
        apply Hknown. by apply list_elem_of_further.
    + cbn [E set_E]. rewrite lookup_insert_ne; [done|].
      intros ->. congruence.
Qed.

Lemma correct_energies_run o s correction_dict :
  gas_thermo_mode o = "shomate_gas" →
  shomate_gas o = Ok correction_dict →
  (∀ name, name ∈ correction_dict.*1 → is_Some (E s !! name)) →
  correct_energies o s
  = (Ok (corrected correction_dict (E s)),
     setattr "energy_correction" (PyBool true)
       (set_E (fun _ => corrected correction_dict (E s)) s)).
Proof.
  intros Hmode Hdict Hknown. unfold correct_energies.
  rewrite decide_True by done. rewrite Hdict.
  erewrite bind_run by reflexivity. cbv beta iota.
  erewrite bind_run by reflexivity. cbv beta.
  erewrite bind_run by (by apply add_corrections_run). cbv beta.
  erewrite bind_run by reflexivity. cbv beta.
  reflexivity.
Qed.

(** X15.  In the Shomate mode, with an energy present for every gas that
    the corrector names (each named once), [correct_energies] returns the
    solver's own mapping in which every such gas has its correction added
    and every other species its old energy, and sets the flag
    [energy_correction]. *)
Theorem correct_energies_adds o s correction_dict :
  gas_thermo_mode o = "shomate_gas" →
  shomate_gas o = Ok correction_dict →
  NoDup correction_dict.*1 →
  (∀ name, name ∈ correction_dict.*1 → is_Some (E s !! name)) →
  ∃ E' s',
    correct_energies o s = (Ok E', s') ∧ E s' = E' ∧
    attrs s' !! "energy_correction" = Some (PyBool true) ∧
    (∀ gas_name correction, (gas_name, correction) ∈ correction_dict →
       ∃ e, E s !! gas_name = Some e ∧
            E' !! gas_name = Some (e + correction)) ∧
    (∀ name, name ∉ correction_dict.*1 → E' !! name = E s !! name).
Proof.
  intros Hmode Hdict Hnd Hknown.
  do 2 eexists. split; [by apply correct_energies_run|].
  split; [reflexivity|]. split; [apply lookup_insert_eq|]. split.
  - intros g c Hin. destruct (Hknown g) as [e He].
    { by apply (list_elem_of_fmap_2 fst correction_dict (g, c)). }
    exists e. split; [done|].
    rewrite (corrected_lookup _ _ _ _ Hnd Hin), He. reflexivity.
  - intros name Hnot. by apply corrected_other.
Qed.

(** X16.  Nothing guards a second correction: the flag
    [energy_correction] that the first call sets is never read, so two
    calls of [correct_energies] in a row add every correction twice. *)
Theorem correct_energies_twice o s correction_dict :
  gas_thermo_mode o = "shomate_gas" →
  shomate_gas o = Ok correction_dict →
  NoDup correction_dict.*1 →
  (∀ name, name ∈ correction_dict.*1 → is_Some (E s !! name)) →
  ∃ E'' s'',
    (correct_energies o ≫= fun _ => correct_energies o) s = (Ok E'', s'') ∧
    E s'' = E'' ∧
    ∀ gas_name correction, (gas_name, correction) ∈ correction_dict →
      ∃ e, E s !! gas_name = Some e ∧
           E'' !! gas_name = Some (e + correction + correction).
Proof.
  intros Hmode Hdict Hnd Hknown.
  do 2 eexists. split.
  { erewrite bind_run by (by apply correct_energies_run). cbv beta.
    apply correct_energies_run; [done..|].
    intros name Hin. cbn [E setattr set_E].
    by apply corrected_defined, Hknown. }
  split; [reflexivity|].
  - intros g c Hin. destruct (Hknown g) as [e He].
    { by apply (list_elem_of_fmap_2 fst correction_dict (g, c)). }
    exists e. split; [done|]. cbn [E setattr set_E].
    rewrite (corrected_lookup _ _ _ _ Hnd Hin).
    rewrite (corrected_lookup _ _ _ _ Hnd Hin), He. reflexivity.
Qed.

(** X17.  When a gas that the corrector names has no energy,
    [correct_energies] raises the [KeyError] of that gas part-way through:
    the gases before it in the corrector's dict keep their corrections,
    the later ones get none, and the flag [energy_correction] is not
    set. *)
Theorem correct_energies_stops_part_way o s before gas_name correction
    after :
  gas_thermo_mode o = "shomate_gas" →
  shomate_gas o = Ok (before ++ (gas_name, correction) :: after) →
  NoDup (before ++ (gas_name, correction) :: after).*1 →
  (∀ name, name ∈ before.*1 → is_Some (E s !! name)) →
  E s !! gas_name = None →
  ∃ s',
    correct_energies o s = (Raise (Py.KeyError gas_name), s') ∧
    attrs s' = attrs s ∧
    (∀ name c, (name, c) ∈ before →
       ∃ e, E s !! name = Some e ∧ E s' !! name = Some (e + c)) ∧
    (∀ name, name ∉ before.*1 → E s' !! name = E s !! name).
Proof.
  intros Hmode Hdict Hnd Hknown Hnone.
  rewrite fmap_app in Hnd. apply NoDup_app in Hnd as (Hnd & _ & _).
  eexists. split.
  { unfold correct_energies. rewrite decide_True by done. rewrite Hdict.
    erewrite bind_run by reflexivity. cbv beta iota.
    erewrite bind_run by reflexivity. cbv beta.
    erewrite bind_raise by (by apply add_corrections_missing).
    reflexivity. }
  split; [reflexivity|]. cbn [E set_E]. split.
  - intros name c Hin. destruct (Hknown name) as [e He].
    { by apply (list_elem_of_fmap_2 fst before (name, c)). }
    exists e. split; [done|].
    rewrite (corrected_lookup _ _ _ _ Hnd Hin), He. reflexivity.
  - intros name Hnot. by apply corrected_other.
Qed.

(** [correct_energies] binds its corrections only in the Shomate
    mode: with any other [gas_thermo_mode] it raises
    [UnboundLocalError], and when the corrector itself raises, that
    exception comes through; the solver is untouched in both cases. *)
Lemma correct_energies_without_corrections o s :
  gas_thermo_mode o ≠ "shomate_gas" ∨ (∃ e, shomate_gas o = Raise e) →
  ∃ e,
    correct_energies o s = (Raise e, s) ∧
    (gas_thermo_mode o ≠ "shomate_gas" →
     e = Py.UnboundLocalError "correction_dict") ∧
    (gas_thermo_mode o = "shomate_gas" → shomate_gas o = Raise e).
Proof.
  intros Hbad. unfold correct_energies. case_decide as Hmode.
  - destruct Hbad as [?|[e He]]; [done|]. rewrite He.
    exists e. split; [reflexivity|]. split; [done|]. done.
  - eexists. split; [reflexivity|]. split; [done|]. done.
Qed.

(** *** Facts about the classification of the adsorbates *)

(** The site that [species_definitions] gives for an adsorbate. *)
Definition site_of o (adsorbate_name : string) : option string :=
  match lookup_species o adsorbate_name with
  | Py.Ok d => sp_site d
  | Py.Raise _ => None
  end.

Lemma empty_sites (sites : list string) : ∀ acc : gmap string (list string),
  ∀ site,
    foldl (fun classified_adsorbates site_name =>
             Py.setdefault site_name [] classified_adsorbates)
          acc sites !! site
    = match acc !! site with
      | Some l => Some l
      | None => if decide (site ∈ sites) then Some [] else None
      end.
Proof.
  induction sites as [|k sites IH]; intros acc site; cbn [foldl].
  - destruct (acc !! site); [done|].
    rewrite decide_False; [done | apply not_elem_of_nil].
  - rewrite IH. unfold Py.setdefault.
    destruct (acc !! k) as [l|] eqn:Hk.
    + destruct (acc !! site) as [l'|] eqn:Hs; [done|].
      destruct (decide (site = k)) as [->|Hne]; [congruence|].
      destruct (decide (site ∈ sites)) as [Hin|Hnot].
      * rewrite decide_True; [done | by apply list_elem_of_further].
      * rewrite decide_False; [done|].
        intros Hin. apply elem_of_cons in Hin as [?|?]; done.
    + destruct (decide (site = k)) as [->|Hne].
      * rewrite lookup_insert_eq, Hk.
        rewrite decide_True; [done | apply list_elem_of_here].
      * rewrite lookup_insert_ne by done.
        destruct (acc !! site) as [l'|]; [done|].
        destruct (decide (site ∈ sites)) as [Hin|Hnot].
        -- rewrite decide_True; [done | by apply list_elem_of_further].
        -- rewrite decide_False; [done|].
           intros Hin. apply elem_of_cons in Hin as [?|?]; done.
Qed.

Lemma classify_loop o (names : list string) :
  ∀ acc : gmap string (list string),
  (∀ a, a ∈ names → ∃ site, site_of o a = Some site ∧ is_Some (acc !! site)) →
  ∃ c,
    Py.for_each (fun classified_adsorbates adsorbate_name =>
        d ← lookup_species o adsorbate_name;
        site_name ← entry "site" (sp_site d);
        names ← Py.getitem classified_adsorbates site_name;
        Ok (<[site_name := names ++ [adsorbate_name]]> classified_adsorbates))
      acc names = Ok c ∧
    ∀ site,
      c !! site
      = (fun l => l ++ filter (fun a => site_of o a = Some site) names)
        <$> acc !! site.
Proof.
  induction names as [|a names IH]; intros acc Hknown.
  - exists acc. split; [done|]. intros site.
    destruct (acc !! site); simpl; [|done]. by rewrite app_nil_r.
  - destruct (Hknown a) as (sa & Hsa & [l Hl]); [apply list_elem_of_here|].
    destruct (IH (<[sa := l ++ [a]]> acc)) as (c & Hrun & Hc).
    { intros b Hb. destruct (Hknown b) as (sb & Hsb & Hdef);
        [by apply list_elem_of_further|].
      exists sb. split; [done|].
      destruct (decide (sa = sb)) as [->|Hne].
      - rewrite lookup_insert_eq. by eexists.
      - by rewrite lookup_insert_ne. }
    exists c. split.
    + cbn [Py.for_each]. unfold site_of in Hsa.
      destruct (lookup_species o a) as [d|e]; [|discriminate].
      cbn [mbind Py.result_bind]. rewrite Hsa. cbn [entry mbind Py.result_bind].
      rewrite (getitem_Some _ _ _ Hl). cbn [mbind Py.result_bind].
      exact Hrun.
    + intros site. rewrite Hc.
      destruct (decide (sa = site)) as [->|Hne].
      * rewrite lookup_insert_eq, Hl. cbn [fmap option_fmap option_map].
        rewrite filter_cons_True by done.
        by rewrite <- app_assoc.
      * rewrite lookup_insert_ne by done.
        rewrite filter_cons_False; [done|]. congruence.
Qed.

(** X18.  When every adsorbate has a site that is one of [site_names],
    [classify_adsorbates] returns a dict whose keys are exactly the site
    names and which holds, for each site, the adsorbates defined on that
    site in the order of [adsorbate_names] (none for a site without
    adsorbates): every adsorbate is listed once, under its own site. *)
Theorem classify_adsorbates_partition o :
  (∀ a, a ∈ adsorbate_names o →
     ∃ site, site_of o a = Some site ∧ site ∈ site_names o) →
  ∃ classified,
    classify_adsorbates o = Ok classified ∧
    ∀ site,
      classified !! site
      = if decide (site ∈ site_names o)
        then Some (filter (fun a => site_of o a = Some site)
                     (adsorbate_names o))
        else None.
Proof.
  intros Hsites. unfold classify_adsorbates. cbv zeta.
  match goal with |- context [Py.for_each _ ?init (adsorbate_names o)] =>
    set (acc := init) end.
  assert (∀ site, acc !! site
                  = if decide (site ∈ site_names o) then Some [] else None)
    as Hacc.
  { intros site. unfold acc. rewrite empty_sites. by rewrite lookup_empty. }
  destruct (classify_loop o (adsorbate_names o) acc) as (c & Hrun & Hc).
  { intros a Ha. destruct (Hsites a Ha) as (site & Hsite & Hin).
    exists site. split; [done|]. rewrite Hacc, decide_True by done.
    by eexists. }
  exists c. split; [exact Hrun|].
  intros site. rewrite Hc, Hacc. by case_decide.
Qed.

(** *** Facts about the symbolic barriers and the substitution dict *)

#[global] Instance sym_expr_eq_dec : EqDecision sym_expr.
Proof. solve_decision. Defined.

(** A dict keyed by [sympy] expressions, as its items in insertion
    order: lookup and [setdefault]. *)
Fixpoint sym_lookup (d : list (sym_expr * R)) (k : sym_expr) : option R :=
  match d with
  | [] => None
  | (k', v) :: rest => if decide (k' = k) then Some v else sym_lookup rest k
  end.

Definition sym_setdefault (k : sym_expr) (v : R) (d : list (sym_expr * R))
  : list (sym_expr * R) :=
  match sym_lookup d k with
  | Some _ => d
  | None => d ++ [(k, v)]
  end.

(** [SolverBase.get_G_subs_dict]: the value of every free-energy symbol.
    [self.sp_list] exists once [get_data_symbols] has run. *)
Definition get_G_subs_dict o : M (list (sym_expr * R)) :=
  loaded ← get has_data;
  (if negb loaded then get_data_dict o else mret tt);;
  symbols ← get has_symbols;
  (if negb symbols
   then lift (Raise (Py.AttributeError "sp_list"))
   else mret tt);;
  self ← get (fun s => s);
  lift (Py.for_each (fun G_dict '(idx, sp_name) =>
          G ← Py.index (G_sym self) (Z.of_nat idx);
          e ← Py.getitem (E self) sp_name;
          Ok (sym_setdefault G e G_dict))
        [] (imap pair (sp_list self))).

(** The integer linear form that an expression stands for: the
    coefficient of a symbol is the number of its occurrences, each counted
    with its multiplier and its sign.  [sympy] keeps a sum of integer
    multiples of symbols as this form: it collects the multiples of a
    symbol and drops a symbol whose multiples cancel. *)
Fixpoint coefficient (e : sym_expr) (symbol : string) : Z :=
  match e with
  | Symbol name => if decide (name = symbol) then 1 else 0
  | SMul n e => n * coefficient e symbol
  | SAdd a b => coefficient a symbol + coefficient b symbol
  | SSub a b => coefficient a symbol - coefficient b symbol
  end%Z.

(** The stoichiometric coefficients with which the terms of a state name
    the species of a free-energy symbol, added up. *)
Fixpoint symbol_count (state : state_t) (symbol : string) : Z :=
  match state with
  | [] => 0
  | sp :: rest =>
      (if decide ("G_" +:+ (split_species sp).2 = symbol)
       then (split_species sp).1 else 0)
      + symbol_count rest symbol
  end%Z.

Lemma sym_lookup_snoc d k v k' :
  sym_lookup (d ++ [(k, v)]) k'
  = match sym_lookup d k' with
    | Some x => Some x
    | None => if decide (k = k') then Some v else None
    end.
Proof.
  induction d as [|[k0 v0] d IH]; cbn [sym_lookup app]; [done|].
  destruct (decide (k0 = k')); [done | exact IH].
Qed.

Lemma index_nat {A} (l : list A) (i : nat) (a : A) :
  l !! i = Some a → Py.index l (Z.of_nat i) = Ok a.
Proof.
  intros H. unfold Py.index.
  destruct (Z.ltb_spec (Z.of_nat i) 0); [lia|].
  destruct (Z.ltb_spec (Z.of_nat i) 0); [lia|].
  by rewrite Nat2Z.id, H.
Qed.

Lemma index_of_listed (x : string) (l : list string) :
  x ∈ l → ∃ i, Py.index_of x l = Ok i ∧ l !! i = Some x.
Proof.
  induction l as [|y l IH]; intros Hin; [by apply elem_of_nil in Hin|].
  cbn [Py.index_of]. destruct (decide (y = x)) as [->|Hne].
  - by exists 0%nat.
  - apply elem_of_cons in Hin as [?|Hin]; [congruence|].
    destruct (IH Hin) as (i & -> & Hi). by exists (S i).
Qed.

Lemma index_of_unlisted (x : string) (l : list string) :
  x ∉ l → Py.index_of x l = Raise (Py.ValueError "x not in list").
Proof.
  induction l as [|y l IH]; intros Hnot; [done|].
  cbn [Py.index_of]. rewrite decide_False.
  - rewrite IH; [done|]. intros Hin. by apply Hnot, list_elem_of_further.
  - intros ->. apply Hnot, list_elem_of_here.
Qed.

(** The symbol found for a listed species is the one named after it. *)
Lemma extract_symbol_listed s (sp_name : string) :
  sp_name ∈ sp_list s →
  extract_symbol_free_energy s sp_name = Ok (Symbol ("G_" +:+ sp_name)).
Proof.
  intros Hin. unfold extract_symbol_free_energy.
  destruct (index_of_listed _ _ Hin) as (i & -> & Hi).
  cbn [mbind Py.result_bind]. apply index_nat.
  unfold G_sym. by rewrite list_lookup_fmap, Hi.
Qed.

(** The dict of [get_G_subs_dict]: every entry is the energy of a
    species under the symbol of that species, and every listed species has
    one. *)
Lemma G_subs_loop (E_now : gmap string R) (names : list string) :
  ∀ acc,
  (∀ k v, sym_lookup acc k = Some v →
     ∃ name, k = Symbol ("G_" +:+ name) ∧ E_now !! name = Some v) →
  (∀ name, name ∈ names → is_Some (E_now !! name)) →
  ∃ subs,
    Py.for_each (fun G_dict sp_name =>
        e ← Py.getitem E_now sp_name;
        Ok (sym_setdefault (Symbol ("G_" +:+ sp_name)) e G_dict))
      acc names = Ok subs ∧
    (∀ k v, sym_lookup subs k = Some v →
       ∃ name, k = Symbol ("G_" +:+ name) ∧ E_now !! name = Some v) ∧
    (∀ k, is_Some (sym_lookup acc k) → is_Some (sym_lookup subs k)) ∧
    (∀ name, name ∈ names →
       is_Some (sym_lookup subs (Symbol ("G_" +:+ name)))).
Proof.
  induction names as [|name names IH]; intros acc Hsound Hknown.
  - exists acc. split_and!; [done..|].
    intros name Hin. by apply elem_of_nil in Hin.
  - destruct (Hknown name) as [e He]; [apply list_elem_of_here|].
    set (acc' := sym_setdefault (Symbol ("G_" +:+ name)) e acc).
    assert (∀ k v, sym_lookup acc' k = Some v →
              ∃ n, k = Symbol ("G_" +:+ n) ∧ E_now !! n = Some v) as Hsound'.
    { intros k v. unfold acc', sym_setdefault.
      destruct (sym_lookup acc (Symbol ("G_" +:+ name))); [apply Hsound|].
      rewrite sym_lookup_snoc.
      destruct (sym_lookup acc k) eqn:Hk.
      - intros [= <-]. by apply Hsound.
      - case_decide; [|discriminate]. intros [= <-]. subst k. eauto. }
    assert (∀ k, is_Some (sym_lookup acc k) → is_Some (sym_lookup acc' k))
      as Hkeep'.
    { intros k [v Hv]. unfold acc', sym_setdefault.
      destruct (sym_lookup acc (Symbol ("G_" +:+ name))); [by eexists|].
      rewrite sym_lookup_snoc, Hv. by eexists. }
    assert (is_Some (sym_lookup acc' (Symbol ("G_" +:+ name)))) as Hdef'.
    { unfold acc', sym_setdefault.
      destruct (sym_lookup acc (Symbol ("G_" +:+ name))) eqn:Hk;
        [by rewrite Hk|].
      rewrite sym_lookup_snoc, Hk, decide_True by done. by eexists. }
    destruct (IH acc' Hsound') as (subs & Hrun & Hs & Hk & Hd).
    { intros n Hn. apply Hknown. by apply list_elem_of_further. }
    exists subs. split_and!.
    + cbn [Py.for_each]. rewrite (getitem_Some _ _ _ He).
      cbn [mbind Py.result_bind]. exact Hrun.
    + done.
    + intros k Hacc. by apply Hk, Hkeep'.
    + intros n Hn. apply elem_of_cons in Hn as [->|Hn]; [|by apply Hd].
      by apply Hk.
Qed.

Lemma for_each_ext {A B} (body body' : B → A → result B) (l : list A) :
  (∀ acc x, x ∈ l → body acc x = body' acc x) →
  ∀ acc, Py.for_each body acc l = Py.for_each body' acc l.
Proof.
  induction l as [|x l IH]; intros Hext acc; [done|].
  cbn [Py.for_each]. rewrite Hext by apply list_elem_of_here.
  destruct (body' acc x); [|done].
  apply IH. intros acc' y Hy. apply Hext. by apply list_elem_of_further.
Qed.

Lemma for_each_fmap {A A' B} (g : A → A') (body : B → A' → result B)
    (l : list A) :
  ∀ acc, Py.for_each body acc (g <$> l)
         = Py.for_each (fun acc x => body acc (g x)) acc l.
Proof.
  induction l as [|x l IH]; intros acc; [done|].
  rewrite fmap_cons. cbn [Py.for_each]. by destruct (body acc (g x)).
Qed.

Lemma get_G_subs_dict_run o s :
  has_data s = true → has_symbols s = true →
  (∀ name, name ∈ sp_list s → is_Some (E s !! name)) →
  ∃ subs,
    get_G_subs_dict o s = (Ok subs, s) ∧
    (∀ name, name ∈ sp_list s →
       sym_lookup subs (Symbol ("G_" +:+ name)) = E s !! name) ∧
    (∀ k v, sym_lookup subs k = Some v → ∃ name, k = Symbol ("G_" +:+ name)).
Proof.
  intros Hdata Hsym Hknown.
  destruct (G_subs_loop (E s) (sp_list s) []) as (subs & Hrun & Hs & _ & Hd);
    [done | done |].
  exists subs. split_and!.
  - unfold get_G_subs_dict.
    erewrite (bind_run (get has_data)) by reflexivity. cbv beta.
    rewrite Hdata. cbn [negb].
    erewrite (bind_run (mret tt)) by reflexivity. cbv beta.
    erewrite (bind_run (get has_symbols)) by reflexivity. cbv beta.
    rewrite Hsym. cbn [negb].
    erewrite (bind_run (mret tt)) by reflexivity. cbv beta.
    erewrite (bind_run (get (fun s => s))) by reflexivity. cbv beta.
    unfold lift. f_equal.
    pose (body' := fun (G_dict : list (sym_expr * R)) (sp_name : string) =>
            e ← Py.getitem (E s) sp_name;
            Ok (sym_setdefault (Symbol ("G_" +:+ sp_name)) e G_dict)).
    change (Py.for_each body' [] (sp_list s) = Ok subs) in Hrun.
    assert (snd <$> imap pair (sp_list s) = sp_list s) as Hsnd.
    { apply list_eq. intros i.
      rewrite list_lookup_fmap, list_lookup_imap.
      by destruct (sp_list s !! i). }
    rewrite <- Hsnd, (for_each_fmap snd body') in Hrun.
    rewrite <- Hrun.
    apply for_each_ext. intros acc [idx sp_name] Hin.
    apply list_elem_of_lookup in Hin as [i Hi].
    rewrite list_lookup_imap in Hi.
    destruct (sp_list s !! i) as [name|] eqn:Hname; [|discriminate].
    injection Hi as <- <-. unfold body'. cbn [snd].
    rewrite (index_nat (G_sym s) i (Symbol ("G_" +:+ name))); [done|].
    unfold G_sym. by rewrite list_lookup_fmap, Hname.
  - intros name Hin. destruct (Hd name Hin) as [v Hv]. rewrite Hv.
    destruct (Hs _ _ Hv) as (name' & Heq & Hv').
    simplify_eq. by rewrite Hv'.
  - intros k v Hv. destruct (Hs _ _ Hv) as (name & -> & _). eauto.
Qed.

(** The symbol of a state's energy: the placeholder and, for each
    free-energy symbol, the stoichiometry of its species in the state. *)
Lemma state_energy_symbol_coefficient s (state : state_t) :
  (∀ name, name ∈ species_of state → name ∈ sp_list s) →
  ∃ sym, state_energy_symbol s state = Ok sym ∧
         ∀ symbol, coefficient sym symbol
                   = (coefficient (Symbol "0") symbol
                      + symbol_count state symbol)%Z.
Proof.
  unfold state_energy_symbol.
  generalize (Symbol "0") as acc.
  induction state as [|sp rest IH]; intros acc Hlisted.
  - exists acc. split; [done|]. intros symbol. cbn [symbol_count]. lia.
  - destruct (split_species sp) as [n name] eqn:Hsp.
    assert (name ∈ sp_list s) as Hin.
    { apply Hlisted. unfold species_of. rewrite fmap_cons, Hsp.
      apply list_elem_of_here. }
    destruct (IH (SAdd acc (if decide (n = 1%Z)
                            then Symbol ("G_" +:+ name)
                            else SMul n (Symbol ("G_" +:+ name)))))
      as (sym & Hrun & Hval).
    { intros k Hk. apply Hlisted. unfold species_of. rewrite fmap_cons.
      by apply list_elem_of_further. }
    exists sym. split.
    + cbn [Py.for_each]. rewrite Hsp.
      rewrite (extract_symbol_listed s name Hin).
      cbn [mbind Py.result_bind]. exact Hrun.
    + intros symbol. rewrite Hval. cbn [coefficient symbol_count].
      rewrite Hsp. cbn [fst snd].
      assert (coefficient
                (if decide (n = 1%Z) then Symbol ("G_" +:+ name)
                 else SMul n (Symbol ("G_" +:+ name))) symbol
              = if decide ("G_" +:+ name = symbol) then n else 0%Z) as ->.
      { case_decide as Hn; cbn [coefficient]; case_decide; lia. }
      lia.
Qed.

Lemma three_state_symbols o s s_IS s_TS s_FS IS_sym TS_sym FS_sym :
  has_symbols s = true →
  state_energy_symbol s s_IS = Ok IS_sym →
  state_energy_symbol s s_TS = Ok TS_sym →
  state_energy_symbol s s_FS = Ok FS_sym →
  get_single_delta_G_symbols o [s_IS; s_TS; s_FS] s
  = (Ok (SSub TS_sym IS_sym, SSub TS_sym FS_sym), s).
Proof.
  intros Hsym HsI HsT HsF.
  unfold get_single_delta_G_symbols, mbind, M_bind, get, lift, mret, M_ret.
  rewrite Hsym. cbn [negb Py.for_each]. rewrite HsI.
  cbn [Py.result_bind app]. rewrite HsT. cbn [Py.result_bind app].
  rewrite HsF. cbn [Py.result_bind app].
  change (Py.index [IS_sym; TS_sym; FS_sym] 0) with (Ok (A:=sym_expr) IS_sym).
  change (Py.index [IS_sym; TS_sym; FS_sym] (-1))
    with (Ok (A:=sym_expr) FS_sym).
  cbv iota beta.
  rewrite decide_True by reflexivity.
  change (Py.index [IS_sym; TS_sym; FS_sym] 1) with (Ok (A:=sym_expr) TS_sym).
  reflexivity.
Qed.

(** X19.  The symbolic barriers follow the stoichiometry.  On a solver
    with its symbols, for a reaction with an explicit transition state
    whose species are all listed in [sp_list],
    [get_single_delta_G_symbols] returns two expressions and leaves the
    solver as it is; in the forward barrier the coefficient of every
    symbol is the stoichiometry of its species in the transition state
    minus that in the initial state, in the reverse barrier minus that in
    the final state.  The placeholder symbol ["0"], and a site that stays
    free, therefore cancel. *)
Theorem symbolic_barriers_follow_stoichiometry o s s_IS s_TS s_FS :
  has_symbols s = true →
  (∀ st name, st ∈ [s_IS; s_TS; s_FS] → name ∈ species_of st →
              name ∈ sp_list s) →
  ∃ delta_Gf_sym delta_Gr_sym,
    get_single_delta_G_symbols o [s_IS; s_TS; s_FS] s
      = (Ok (delta_Gf_sym, delta_Gr_sym), s) ∧
    (coefficient delta_Gf_sym "0" = 0 ∧ coefficient delta_Gr_sym "0" = 0)%Z ∧
    ∀ symbol,
      (coefficient delta_Gf_sym symbol
       = symbol_count s_TS symbol - symbol_count s_IS symbol)%Z ∧
      (coefficient delta_Gr_sym symbol
       = symbol_count s_TS symbol - symbol_count s_FS symbol)%Z.
Proof.
  intros Hsym Hlisted.
  destruct (state_energy_symbol_coefficient s s_IS)
    as (IS_sym & HIS & HISc).
  { intros n Hn. apply (Hlisted s_IS n); [apply list_elem_of_here | done]. }
  destruct (state_energy_symbol_coefficient s s_TS)
    as (TS_sym & HTS & HTSc).
  { intros n Hn. apply (Hlisted s_TS n); [|done].
    apply list_elem_of_further, list_elem_of_here. }
  destruct (state_energy_symbol_coefficient s s_FS)
    as (FS_sym & HFS & HFSc).
  { intros n Hn. apply (Hlisted s_FS n); [|done].
    do 2 apply list_elem_of_further. apply list_elem_of_here. }
  exists (SSub TS_sym IS_sym), (SSub TS_sym FS_sym).
  split; [by apply three_state_symbols|].
  assert (∀ symbol,
            (coefficient (SSub TS_sym IS_sym) symbol
             = symbol_count s_TS symbol - symbol_count s_IS symbol)%Z ∧
            (coefficient (SSub TS_sym FS_sym) symbol
             = symbol_count s_TS symbol - symbol_count s_FS symbol)%Z)
    as Hforms.
  { intros symbol. cbn [coefficient].
    rewrite (HISc symbol), (HTSc symbol), (HFSc symbol). lia. }
  split; [|exact Hforms].
  assert (∀ state, symbol_count state "0" = 0%Z) as Hzero.
  { induction state as [|sp rest IH]; [done|].
    cbn [symbol_count]. rewrite IH. by rewrite decide_False. }
  destruct (Hforms "0"%string) as [-> ->]. rewrite !Hzero. lia.
Qed.

(** *** Facts about the rate expressions *)

(** The table from which a term of a rate expression is read: [theta]
    for a term written with a ["*"] and for an adsorbate, [p] for a gas;
    no table for a species of another type or without definition. *)
Definition term_table o (sp : string) : option factor_table :=
  if Py.contains "*"%char sp then Some tbl_theta
  else match lookup_species o (split_species sp).2 with
       | Py.Ok d =>
           if decide (sp_type d = "gas") then Some tbl_p
           else if decide (sp_type d = "adsorbate") then Some tbl_theta
           else None
       | Py.Raise _ => None
       end.

(** The factor of a term: its species name, and its coefficient as the
    power unless the coefficient is [1]. *)
Definition term_factor (table : factor_table) (sp : string) : factor :=
  {| fac_table := table; fac_name := (split_species sp).2;
     fac_power := if decide ((split_species sp).1 = 1%Z) then None
                  else Some (split_species sp).1 |}.

Definition state_factors o (state : state_t) : list factor :=
  (fun sp => term_factor (default tbl_theta (term_table o sp)) sp) <$> state.

(** The statements of reaction [i]. *)
Definition forward_stmt o (i : nat) (rxn : rxn_t) : rate_stmt :=
  {| stmt_target := dir_f; stmt_target_idx := i;
     stmt_k := dir_f; stmt_k_idx := i;
     stmt_factors := state_factors o (default [] (head rxn)) |}.

Definition reverse_stmt o (i : nat) (rxn : rxn_t) : rate_stmt :=
  {| stmt_target := dir_r; stmt_target_idx := i;
     stmt_k := dir_r; stmt_k_idx := i;
     stmt_factors := state_factors o (default [] (last rxn)) |}.

Definition rate_statements o : list rate_stmt * list rate_stmt :=
  (imap (forward_stmt o) (elementary_rxns_list o),
   imap (reverse_stmt o) (elementary_rxns_list o)).

(** The value that a term contributes to a rate: its coverage or
    pressure raised to its coefficient. *)
Definition term_base o (theta p : gmap string R) (sp : string) : option R :=
  match term_table o sp with
  | Some tbl_theta => theta !! (split_species sp).2
  | Some tbl_p => p !! (split_species sp).2
  | None => None
  end.

Definition term_activity o (theta p : gmap string R) (sp : string) : R :=
  default 0 (term_base o theta p sp) ^ Z.to_nat (split_species sp).1.

(** The product of the contributions of the terms of a state. *)
Definition state_activity o (theta p : gmap string R) (state : state_t) : R :=
  foldr (fun sp acc => term_activity o theta p sp * acc) 1 state.

Lemma for_each_app {A B} (body : B → A → result B) (l1 l2 : list A) acc :
  Py.for_each body acc (l1 ++ l2)
  = Py.for_each body acc l1 ≫= fun acc' => Py.for_each body acc' l2.
Proof.
  revert acc. induction l1 as [|x l1 IH]; intros acc; [done|].
  cbn [app Py.for_each]. destruct (body acc x); [apply IH | done].
Qed.

(** A loop that appends one value per element and carries a second
    variable along. *)
Lemma for_each_carry {A B C} (body : list B * C → A → result (list B * C))
    (g : A → B) (h : A → C) (l : list A) :
  (∀ acc c x, x ∈ l → body (acc, c) x = Ok (acc ++ [g x], h x)) →
  ∀ acc c,
    Py.for_each body (acc, c) l
    = Ok (acc ++ (g <$> l), default c (last (h <$> l))).
Proof.
  induction l as [|x l IH]; intros Hbody acc c.
  - cbn. by rewrite app_nil_r.
  - cbn [Py.for_each]. rewrite Hbody by apply list_elem_of_here.
    rewrite IH by (intros; apply Hbody; by apply list_elem_of_further).
    rewrite !fmap_cons, <- app_assoc. cbn [app]. do 2 f_equal.
    destruct l as [|a l]; [reflexivity|].
    rewrite !fmap_cons, last_cons_cons.
    destruct (last (h a :: (h <$> l))) as [y|] eqn:Hlast; [reflexivity|].
    by apply last_None in Hlast.
Qed.

(** A loop that appends one value per element to each of two lists. *)
Lemma for_each_two {A B C} (body : list B * list C → A → result (list B * list C))
    (g : A → B) (h : A → C) (l : list A) :
  (∀ bs cs x, x ∈ l → body (bs, cs) x = Ok (bs ++ [g x], cs ++ [h x])) →
  ∀ bs cs,
    Py.for_each body (bs, cs) l = Ok (bs ++ (g <$> l), cs ++ (h <$> l)).
Proof.
  induction l as [|x l IH]; intros Hbody bs cs.
  - cbn. by rewrite !app_nil_r.
  - cbn [Py.for_each]. rewrite Hbody by apply list_elem_of_here.
    rewrite IH by (intros; apply Hbody; by apply list_elem_of_further).
    by rewrite !fmap_cons, <- !app_assoc.
Qed.

(** The loop body of [list2string] on a term that has a table, and on a
    term whose species has a definition of another type. *)
Definition list2string_body o
    (acc : list factor * option factor) (sp : string)
  : result (list factor * option factor) :=
  let '(rate_str, sp_expr) := acc in
  let '(stoichiometry, species_name) := split_species sp in
  let mk (table : factor_table) :=
    {| fac_table := table; fac_name := species_name;
       fac_power := if decide (stoichiometry = 1%Z) then None
                    else Some stoichiometry |} in
  sp_expr ←
    (if Py.contains "*"%char sp then Ok (Some (mk tbl_theta))
     else
       d ← lookup_species o species_name;
       let sp_expr :=
         if decide (sp_type d = "adsorbate") then Some (mk tbl_theta)
         else sp_expr in
       let sp_expr :=
         if decide (sp_type d = "gas") then Some (mk tbl_p)
         else sp_expr in
       Ok sp_expr);
  match sp_expr with
  | Some fac => Ok (rate_str ++ [fac], Some fac)
  | None => Raise (Py.UnboundLocalError "sp_expr")
  end.

Lemma list2string_unfold o (state : state_t) :
  list2string o state
  = ('(rate_str, _) ← Py.for_each (list2string_body o) ([], None) state;
     Ok rate_str).
Proof.
  unfold list2string. cbv zeta. f_equal.
  apply for_each_ext. intros [rate_str prev] sp _.
  unfold list2string_body. by destruct (split_species sp).
Qed.

Lemma list2string_body_typed o rate_str prev sp table :
  term_table o sp = Some table →
  list2string_body o (rate_str, prev) sp
  = Ok (rate_str ++ [term_factor table sp], Some (term_factor table sp)).
Proof.
  unfold term_table, list2string_body, term_factor.
  destruct (split_species sp) as [n name]. cbn [fst snd].
  destruct (Py.contains "*" sp).
  - by intros [= <-].
  - destruct (lookup_species o name) as [d|e]; [|discriminate].
    cbn [mbind Py.result_bind].
    destruct (decide (sp_type d = "gas")) as [Hg|Hg].
    + by intros [= <-].
    + destruct (decide (sp_type d = "adsorbate")); [|discriminate].
      by intros [= <-].
Qed.

Lemma list2string_body_untyped o rate_str prev sp d :
  Py.contains "*"%char sp = false →
  lookup_species o (split_species sp).2 = Ok d →
  sp_type d ≠ "adsorbate" → sp_type d ≠ "gas" →
  list2string_body o (rate_str, prev) sp
  = match prev with
    | Some fac => Ok (rate_str ++ [fac], Some fac)
    | None => Raise (Py.UnboundLocalError "sp_expr")
    end.
Proof.
  intros Hstar Hd Hads Hgas. unfold list2string_body.
  destruct (split_species sp) as [n name]. cbn [fst snd] in Hd.
  rewrite Hstar, Hd. cbn [mbind Py.result_bind].
  by rewrite !decide_False by done.
Qed.

Lemma list2string_loop_typed o (state : state_t) acc prev :
  (∀ sp, sp ∈ state → is_Some (term_table o sp)) →
  Py.for_each (list2string_body o) (acc, prev) state
  = Ok (acc ++ state_factors o state,
        default prev (last (Some <$> state_factors o state))).
Proof.
  intros Htyped. unfold state_factors at 2.
  rewrite <- list_fmap_compose.
  apply (for_each_carry (list2string_body o)
           (fun sp => term_factor (default tbl_theta (term_table o sp)) sp)).
  intros rate_str c sp Hin. destruct (Htyped sp Hin) as [table Htable].
  unfold compose. cbv beta.
  rewrite (list2string_body_typed o _ _ _ _ Htable), Htable. reflexivity.
Qed.

(** On a state all of whose terms have a table, [list2string] writes one
    factor per term, in order. *)
Lemma list2string_typed o (state : state_t) :
  (∀ sp, sp ∈ state → is_Some (term_table o sp)) →
  list2string o state = Ok (state_factors o state).
Proof.
  intros Htyped.
  rewrite list2string_unfold, (list2string_loop_typed o state [] None Htyped).
  reflexivity.
Qed.

(** X20.  A term whose species is defined with a type other than
    adsorbate or gas (and is written without ["*"]) gets no factor of its
    own: after terms that have one it repeats the factor of the term
    before it, and at the head of a state it makes [list2string], and with
    it [get_elementary_rate_expression], fail with
    [UnboundLocalError]. *)
Theorem list2string_stale_factor o (typed : state_t) sp d rest :
  (∀ sp', sp' ∈ typed → is_Some (term_table o sp')) →
  Py.contains "*"%char sp = false →
  lookup_species o (split_species sp).2 = Ok d →
  sp_type d ≠ "adsorbate" → sp_type d ≠ "gas" →
  list2string o (typed ++ [sp])
  = match last (state_factors o typed) with
    | Some previous => Ok (state_factors o typed ++ [previous])
    | None => Raise (Py.UnboundLocalError "sp_expr")
    end ∧
  list2string o (sp :: rest) = Raise (Py.UnboundLocalError "sp_expr") ∧
  (∀ FS i, elementary_rxns_list o !! i = Some [sp :: rest; FS] →
     get_elementary_rate_expression o [sp :: rest; FS]
     = Raise (Py.UnboundLocalError "sp_expr")).
Proof.
  intros Htyped Hstar Hd Hads Hgas.
  assert (list2string o (sp :: rest) = Raise (Py.UnboundLocalError "sp_expr"))
    as Hhead.
  { rewrite list2string_unfold. cbn [Py.for_each].
    by rewrite (list2string_body_untyped o [] None sp d). }
  split_and!.
  - rewrite list2string_unfold, for_each_app.
    rewrite (list2string_loop_typed o typed [] None Htyped).
    cbn [mbind Py.result_bind Py.for_each app].
    rewrite (list2string_body_untyped o _ _ sp d) by done.
    rewrite fmap_last.
    destruct (last (state_factors o typed)) as [previous|]; reflexivity.
  - exact Hhead.
  - intros final i Hi. unfold get_elementary_rate_expression.
    match goal with |- context [@Py.index_of ?A ?dec ?x ?l] =>
      destruct (@Py.index_of A dec x l) as [idx|e] eqn:Hidx end.
    + cbn [mbind Py.result_bind].
      change (Py.index [sp :: rest; final] 0) with (Ok (A:=state_t) (sp :: rest)).
      cbn [mbind Py.result_bind]. by rewrite Hhead.
    + exfalso. revert i Hi Hidx.
      generalize (elementary_rxns_list o) as l.
      induction l as [|y l IH]; intros i Hi; [by rewrite lookup_nil in Hi|].
      cbn [Py.index_of]. case_decide; [discriminate|].
      destruct i as [|i]; [simpl in Hi; congruence|].
      match goal with |- context [@Py.index_of ?A ?dec ?x l] =>
        destruct (@Py.index_of A dec x l) eqn:Hl end; [discriminate|].
      intros [= ->]. by eapply IH.
Qed.

(** [l.index(x)] is the first position of [x]. *)
Lemma index_of_first {A} `{EqDecision A} (l : list A) (i : nat) (x : A) :
  l !! i = Some x → (∀ k, (k < i)%nat → l !! k ≠ Some x) →
  Py.index_of x l = Ok i.
Proof.
  revert i. induction l as [|y l IH]; intros i Hi Hfirst;
    [by rewrite lookup_nil in Hi|].
  cbn [Py.index_of]. destruct i as [|i].
  - injection Hi as ->. by rewrite decide_True.
  - rewrite decide_False.
    + rewrite (IH i); [done | done |].
      intros k Hk. apply (Hfirst (S k)). lia.
    + intros ->. by apply (Hfirst 0%nat); [lia|].
Qed.

Lemma index_of_position {A} `{EqDecision A} (l : list A) (i : nat) (x : A) :
  NoDup l → l !! i = Some x → Py.index_of x l = Ok i.
Proof.
  intros Hnd Hi. apply index_of_first; [done|].
  intros k Hk Hk'. pose proof (NoDup_lookup l k i x Hnd Hk' Hi). lia.
Qed.

(** The position that [index] finds for a reaction of the network. *)
Definition position o (rxn : rxn_t) : nat :=
  match Py.index_of rxn (elementary_rxns_list o) with
  | Py.Ok i => i
  | Py.Raise _ => 0%nat
  end.

(** Every reaction has a first and a last state whose terms all have a
    table. *)
Definition typed_network o : Prop :=
  ∀ rxn, rxn ∈ elementary_rxns_list o →
    ∃ s_IS s_FS, head rxn = Some s_IS ∧ last rxn = Some s_FS ∧
      (∀ sp, sp ∈ s_IS → is_Some (term_table o sp)) ∧
      (∀ sp, sp ∈ s_FS → is_Some (term_table o sp)).

(** The statements of a reaction carry, as both of their indices, the
    first position of the reaction in the network. *)
Lemma get_rate_expressions_positions o s :
  typed_network o →
  get_rate_expressions o (elementary_rxns_list o) s
  = (Ok ((fun rxn => forward_stmt o (position o rxn) rxn)
           <$> elementary_rxns_list o,
         (fun rxn => reverse_stmt o (position o rxn) rxn)
           <$> elementary_rxns_list o),
     set_rate_expressions
       ((fun rxn => forward_stmt o (position o rxn) rxn)
          <$> elementary_rxns_list o,
        (fun rxn => reverse_stmt o (position o rxn) rxn)
          <$> elementary_rxns_list o) s).
Proof.
  intros Htyped. unfold get_rate_expressions.
  match goal with |- context [Py.for_each ?body ([], []) ?l] =>
    assert (Py.for_each body ([], []) l
            = Ok ((fun rxn => forward_stmt o (position o rxn) rxn) <$> l,
                  (fun rxn => reverse_stmt o (position o rxn) rxn) <$> l))
      as Hloop end.
  { rewrite (for_each_two _
               (fun rxn => forward_stmt o (position o rxn) rxn)
               (fun rxn => reverse_stmt o (position o rxn) rxn)); [done|].
    intros fs rs rxn Hin.
    destruct (Htyped rxn Hin) as (s_IS & s_FS & Hhead & Hlast & HIS & HFS).
    apply list_elem_of_lookup in Hin as [i Hi].
    unfold get_elementary_rate_expression, forward_stmt, reverse_stmt,
      position.
    rewrite index_head, index_last, Hhead, Hlast.
    match goal with |- context [@Py.index_of ?A ?dec ?x ?l] =>
      destruct (@Py.index_of A dec x l) as [idx|e] eqn:Hidx end.
    - cbn [mbind Py.result_bind default from_option].
      rewrite (list2string_typed o s_IS HIS), (list2string_typed o s_FS HFS).
      reflexivity.
    - exfalso. revert i Hi Hidx.
      generalize (elementary_rxns_list o) as l.
      induction l as [|y l IH]; intros i Hi;
        [by rewrite lookup_nil in Hi|].
      cbn [Py.index_of]. case_decide; [discriminate|].
      destruct i as [|i]; [simpl in Hi; congruence|].
      match goal with |- context [@Py.index_of ?A ?dec ?x l] =>
        destruct (@Py.index_of A dec x l) eqn:Hl end; [discriminate|].
      intros [= ->]. by eapply IH. }
  erewrite bind_run by (unfold lift; rewrite Hloop; reflexivity). cbv beta.
  reflexivity.
Qed.

Lemma positions_of_distinct o (stmt : nat → rxn_t → rate_stmt) :
  NoDup (elementary_rxns_list o) →
  (fun rxn => stmt (position o rxn) rxn) <$> elementary_rxns_list o
  = imap stmt (elementary_rxns_list o).
Proof.
  intros Hnd. apply list_eq. intros i.
  rewrite list_lookup_fmap, list_lookup_imap.
  destruct (elementary_rxns_list o !! i) as [rxn|] eqn:Hi; [|done].
  cbn. unfold position. by rewrite (index_of_position _ i rxn Hnd Hi).
Qed.

Lemma get_rate_expressions_run o s :
  NoDup (elementary_rxns_list o) → typed_network o →
  get_rate_expressions o (elementary_rxns_list o) s
  = (Ok (rate_statements o), set_rate_expressions (rate_statements o) s).
Proof.
  intros Hnd Htyped. rewrite (get_rate_expressions_positions o s Htyped).
  unfold rate_statements.
  by rewrite !(positions_of_distinct o _ Hnd).
Qed.

(** X21.  For a network without repeated reactions in which every term
    of a first or last state has a table, [get_rate_expressions] returns
    and stores one forward and one reverse statement per reaction:
    statement [i] assigns entry [i] of its rate list, multiplies rate
    constant [i] of its own direction, and has one factor per term of the
    first (forward) or last (reverse) state, in the order of the terms,
    with the coefficient as power exactly when it is not [1]. *)
Theorem get_rate_expressions_statements o s :
  NoDup (elementary_rxns_list o) → typed_network o →
  ∃ fs rs s',
    get_rate_expressions o (elementary_rxns_list o) s = (Ok (fs, rs), s') ∧
    rate_expressions s' = Some (fs, rs) ∧ E s' = E s ∧
    length fs = length (elementary_rxns_list o) ∧
    length rs = length (elementary_rxns_list o) ∧
    ∀ i rxn s_IS s_FS,
      elementary_rxns_list o !! i = Some rxn →
      head rxn = Some s_IS → last rxn = Some s_FS →
      ∃ f r,
        fs !! i = Some f ∧ rs !! i = Some r ∧
        stmt_target f = dir_f ∧ stmt_k f = dir_f ∧
        stmt_target_idx f = i ∧ stmt_k_idx f = i ∧
        stmt_target r = dir_r ∧ stmt_k r = dir_r ∧
        stmt_target_idx r = i ∧ stmt_k_idx r = i ∧
        length (stmt_factors f) = length s_IS ∧
        length (stmt_factors r) = length s_FS ∧
        (∀ j sp, s_IS !! j = Some sp →
           ∃ fac, stmt_factors f !! j = Some fac ∧
                  term_table o sp = Some (fac_table fac) ∧
                  fac_name fac = (split_species sp).2 ∧
                  fac_power fac = (if decide ((split_species sp).1 = 1%Z)
                                   then None
                                   else Some (split_species sp).1)) ∧
        (∀ j sp, s_FS !! j = Some sp →
           ∃ fac, stmt_factors r !! j = Some fac ∧
                  term_table o sp = Some (fac_table fac) ∧
                  fac_name fac = (split_species sp).2 ∧
                  fac_power fac = (if decide ((split_species sp).1 = 1%Z)
                                   then None
                                   else Some (split_species sp).1)).
Proof.
  intros Hnd Htyped.
  exists (imap (forward_stmt o) (elementary_rxns_list o)),
         (imap (reverse_stmt o) (elementary_rxns_list o)).
  eexists. split; [by apply get_rate_expressions_run|].
  split; [reflexivity|]. split; [reflexivity|].
  split; [apply length_imap|]. split; [apply length_imap|].
  intros i rxn s_IS s_FS Hi Hhead Hlast.
  destruct (Htyped rxn) as (s_IS' & s_FS' & Hhead' & Hlast' & HIS & HFS).
  { by eapply list_elem_of_lookup_2. }
  assert (s_IS' = s_IS) as -> by congruence.
  assert (s_FS' = s_FS) as -> by congruence.
  exists (forward_stmt o i rxn), (reverse_stmt o i rxn).
  assert (stmt_factors (forward_stmt o i rxn) = state_factors o s_IS) as ->.
  { unfold forward_stmt. cbn [stmt_factors]. by rewrite Hhead. }
  assert (stmt_factors (reverse_stmt o i rxn) = state_factors o s_FS) as ->.
  { unfold reverse_stmt. cbn [stmt_factors]. by rewrite Hlast. }
  split; [by rewrite list_lookup_imap, Hi|].
  split; [by rewrite list_lookup_imap, Hi|].
  unfold state_factors. rewrite !length_fmap.
  split_and!; try reflexivity.
  - intros j sp Hj.
    exists (term_factor (default tbl_theta (term_table o sp)) sp).
    split; [rewrite list_lookup_fmap; unfold state_t in Hj; by rewrite Hj|].
    destruct (HIS sp) as [table Htable]; [by eapply list_elem_of_lookup_2|].
    rewrite Htable. done.
  - intros j sp Hj.
    exists (term_factor (default tbl_theta (term_table o sp)) sp).
    split; [rewrite list_lookup_fmap; unfold state_t in Hj; by rewrite Hj|].
    destruct (HFS sp) as [table Htable]; [by eapply list_elem_of_lookup_2|].
    rewrite Htable. done.
Qed.

(** X22.  A reaction that the network lists twice gets no statement of
    its own the second time: [index] finds the first copy, so both
    statements built for position [j] assign entry [i] of the rate lists,
    and use rate constant [i], where [i] is the first position of the
    reaction. *)
Theorem repeated_reaction_statements o s i j rxn :
  typed_network o →
  elementary_rxns_list o !! i = Some rxn →
  elementary_rxns_list o !! j = Some rxn →
  (∀ k, (k < i)%nat → elementary_rxns_list o !! k ≠ Some rxn) →
  (i < j)%nat →
  ∃ fs rs s' f r,
    get_rate_expressions o (elementary_rxns_list o) s = (Ok (fs, rs), s') ∧
    fs !! j = Some f ∧ rs !! j = Some r ∧
    stmt_target_idx f = i ∧ stmt_k_idx f = i ∧
    stmt_target_idx r = i ∧ stmt_k_idx r = i ∧
    fs !! i = Some f ∧ rs !! i = Some r.
Proof.
  intros Htyped Hi Hj Hfirst Hlt.
  do 3 eexists.
  exists (forward_stmt o i rxn), (reverse_stmt o i rxn).
  split; [by apply get_rate_expressions_positions|].
  assert (position o rxn = i) as Hpos.
  { unfold position. by rewrite (index_of_first _ i rxn Hi Hfirst). }
  rewrite !list_lookup_fmap, Hi, Hj. cbn [fmap option_fmap option_map].
  rewrite Hpos. split_and!; reflexivity.
Qed.

(** *** Facts about the rates *)

(** One round of the product that a generated statement computes: the
    running value times the factor. *)
Definition exec_factor (theta p : gmap string R) (value : R) (fac : factor)
  : result R :=
  let table := match fac_table fac with
               | tbl_theta => theta | tbl_p => p end in
  base ← Py.getitem table (fac_name fac);
  x ← match fac_power fac with
      | None => Ok base
      | Some n => Py.pow base n
      end;
  Ok (value * x).

Lemma exec_stmt_unfold theta p kf kr rfs rrs (st : rate_stmt) :
  exec_stmt theta p kf kr (rfs, rrs) st
  = (k ← Py.index (match stmt_k st with dir_f => kf | dir_r => kr end)
                  (Z.of_nat (stmt_k_idx st));
     value ← Py.for_each (exec_factor theta p) k (stmt_factors st);
     match stmt_target st with
     | dir_f => if decide (stmt_target_idx st < length rfs)%nat
                then Ok (<[stmt_target_idx st := value]> rfs, rrs)
                else Raise Py.IndexError
     | dir_r => if decide (stmt_target_idx st < length rrs)%nat
                then Ok (rfs, <[stmt_target_idx st := value]> rrs)
                else Raise Py.IndexError
     end).
Proof. reflexivity. Qed.

Lemma term_base_table o theta p sp :
  is_Some (term_base o theta p sp) → is_Some (term_table o sp).
Proof.
  unfold term_base. destruct (term_table o sp); [by eexists|].
  by intros [? ?].
Qed.

Lemma exec_factor_term o theta p value sp base :
  term_base o theta p sp = Some base → (0 <= (split_species sp).1)%Z →
  exec_factor theta p value
    (term_factor (default tbl_theta (term_table o sp)) sp)
  = Ok (value * term_activity o theta p sp).
Proof.
  intros Hbase Hpos. unfold term_activity. rewrite Hbase.
  unfold term_base in Hbase. unfold exec_factor, term_factor.
  cbn [fac_table fac_name fac_power].
  destruct (term_table o sp) as [table|]; [|discriminate]. simpl.
  assert (Py.getitem (match table with tbl_theta => theta | tbl_p => p end)
            (split_species sp).2 = Ok base) as ->.
  { destruct table; by apply getitem_Some. }
  cbn [mbind Py.result_bind].
  case_decide as Hn.
  - rewrite Hn. change (Z.to_nat 1) with 1%nat. by rewrite pow_1.
  - unfold Py.pow. destruct (Z.leb_spec 0 (split_species sp).1); [|lia].
    reflexivity.
Qed.

Lemma factors_loop o theta p (state : state_t) : ∀ k,
  (∀ sp, sp ∈ state →
     is_Some (term_base o theta p sp) ∧ (0 <= (split_species sp).1)%Z) →
  Py.for_each (exec_factor theta p) k (state_factors o state)
  = Ok (k * state_activity o theta p state).
Proof.
  induction state as [|sp rest IH]; intros k Hterms.
  - cbn. f_equal. ring.
  - destruct (Hterms sp) as [[base Hbase] Hpos]; [apply list_elem_of_here|].
    unfold state_factors. rewrite fmap_cons. cbn [Py.for_each].
    rewrite (exec_factor_term o theta p k sp base Hbase Hpos).
    fold (state_factors o rest). rewrite IH.
    + cbn [state_activity foldr]. f_equal.
      fold (state_activity o theta p rest). ring.
    + intros sp' Hin. apply Hterms. by apply list_elem_of_further.
Qed.

Lemma exec_stmt_forward o theta p kf kr rfs rrs i rxn (s_IS : state_t) k :
  head rxn = Some s_IS → kf !! i = Some k → (i < length rfs)%nat →
  (∀ sp, sp ∈ s_IS →
     is_Some (term_base o theta p sp) ∧ (0 <= (split_species sp).1)%Z) →
  exec_stmt theta p kf kr (rfs, rrs) (forward_stmt o i rxn)
  = Ok (<[i := k * state_activity o theta p s_IS]> rfs, rrs).
Proof.
  intros Hhead Hk Hi Hterms. rewrite exec_stmt_unfold.
  assert (stmt_factors (forward_stmt o i rxn) = state_factors o s_IS) as ->.
  { unfold forward_stmt. cbn [stmt_factors]. by rewrite Hhead. }
  cbn [forward_stmt stmt_k stmt_k_idx stmt_target stmt_target_idx].
  rewrite (index_nat kf i k Hk). cbn [mbind Py.result_bind].
  rewrite (factors_loop o theta p s_IS k Hterms). cbn [mbind Py.result_bind].
  by rewrite decide_True.
Qed.

Lemma exec_stmt_reverse o theta p kf kr rfs rrs i rxn (s_FS : state_t) k :
  last rxn = Some s_FS → kr !! i = Some k → (i < length rrs)%nat →
  (∀ sp, sp ∈ s_FS →
     is_Some (term_base o theta p sp) ∧ (0 <= (split_species sp).1)%Z) →
  exec_stmt theta p kf kr (rfs, rrs) (reverse_stmt o i rxn)
  = Ok (rfs, <[i := k * state_activity o theta p s_FS]> rrs).
Proof.
  intros Hlast Hk Hi Hterms. rewrite exec_stmt_unfold.
  assert (stmt_factors (reverse_stmt o i rxn) = state_factors o s_FS) as ->.
  { unfold reverse_stmt. cbn [stmt_factors]. by rewrite Hlast. }
  cbn [reverse_stmt stmt_k stmt_k_idx stmt_target stmt_target_idx].
  rewrite (index_nat kr i k Hk). cbn [mbind Py.result_bind].
  rewrite (factors_loop o theta p s_FS k Hterms). cbn [mbind Py.result_bind].
  by rewrite decide_True.
Qed.

(** Assignments to the entries of a list, one per element of a loop. *)
Definition assign {A} (idx : A → nat) (val : A → R) (l : list A)
    (acc : list R) : list R :=
  foldl (fun acc x => <[idx x := val x]> acc) acc l.

Lemma length_assign {A} (idx : A → nat) (val : A → R) (l : list A) acc :
  length (assign idx val l acc) = length acc.
Proof.
  revert acc. induction l as [|x l IH]; intros acc; [done|].
  cbn [assign foldl]. fold (assign idx val l (<[idx x := val x]> acc)).
  by rewrite IH, length_insert.
Qed.

Lemma assign_other {A} (idx : A → nat) (val : A → R) (l : list A) acc j :
  j ∉ idx <$> l → assign idx val l acc !! j = acc !! j.
Proof.
  revert acc. induction l as [|x l IH]; intros acc Hnot; [done|].
  cbn [assign foldl]. fold (assign idx val l (<[idx x := val x]> acc)).
  rewrite fmap_cons in Hnot. rewrite IH.
  - apply list_lookup_insert_ne. intros Heq. apply Hnot. rewrite <- Heq.
    apply list_elem_of_here.
  - intros Hin. by apply Hnot, list_elem_of_further.
Qed.

Lemma assign_lookup {A} (idx : A → nat) (val : A → R) (l : list A) acc x :
  NoDup (idx <$> l) → x ∈ l → (idx x < length acc)%nat →
  assign idx val l acc !! idx x = Some (val x).
Proof.
  revert acc. induction l as [|y l IH]; intros acc Hnd Hin Hlen;
    [by apply elem_of_nil in Hin|].
  rewrite fmap_cons in Hnd. apply NoDup_cons in Hnd as [Hnot Hnd].
  cbn [assign foldl]. fold (assign idx val l (<[idx y := val y]> acc)).
  apply elem_of_cons in Hin as [->|Hin].
  - rewrite assign_other by done. by apply list_lookup_insert_eq.
  - apply IH; [done | done |]. by rewrite length_insert.
Qed.

Lemma for_each_assign {A S} (body : S → A → result S)
    (proj : S → list R) (upd : list R → S → S)
    (idx : A → nat) (val : A → R) (l : list A) :
  (∀ st, upd (proj st) st = st) →
  (∀ v st, proj (upd v st) = v) →
  (∀ v v' st, upd v' (upd v st) = upd v' st) →
  ∀ st,
  (∀ st' x, x ∈ l → length (proj st') = length (proj st) →
     body st' x = Ok (upd (<[idx x := val x]> (proj st')) st')) →
  Py.for_each body st l = Ok (upd (assign idx val l (proj st)) st).
Proof.
  intros Hid Hproj Hupd.
  induction l as [|x l IH]; intros st Hbody.
  - cbn. by rewrite Hid.
  - cbn [Py.for_each]. rewrite Hbody; [|apply list_elem_of_here | done].
    rewrite IH.
    + by rewrite Hproj, Hupd.
    + intros st' y Hy Hlen. apply Hbody; [by apply list_elem_of_further|].
      by rewrite Hlen, Hproj, length_insert.
Qed.

Lemma imap_uncurry {A B} (f : nat → A → B) (l : list A) :
  imap f l = (fun ix => f ix.1 ix.2) <$> imap pair l.
Proof.
  apply list_eq. intros i.
  rewrite list_lookup_fmap, !list_lookup_imap. by destruct (l !! i).
Qed.

Lemma fst_imap_pair {A} (l : list A) :
  fst <$> imap pair l = seq 0 (length l).
Proof.
  apply list_eq. intros i.
  rewrite list_lookup_fmap, list_lookup_imap.
  destruct (l !! i) as [x|] eqn:Hi; cbn.
  - symmetry. apply lookup_seq. split; [done|]. by eapply lookup_lt_Some.
  - symmetry. apply lookup_seq_ge. by apply lookup_ge_None.
Qed.

(** X23.  The generated statements compute the mass-action rates.  For a
    network of elementary reactions without repetition, with the energies
    that the rate constants need, and with a coverage or pressure for
    every term of a first or last state (coefficients not negative),
    [get_rates] on the statements that [get_rate_expressions] builds
    returns one forward and one reverse rate per reaction: the rate
    constant of the direction times, for each term of the first
    (respectively last) state, the coverage of an adsorbate or site or the
    pressure of a gas raised to the term's coefficient. *)
Theorem get_rates_mass_action o s cvgs theta s1 :
  NoDup (elementary_rxns_list o) →
  _h o ≠ 0 → _kB o * temperature o ≠ 0 →
  (∀ rxn, rxn ∈ elementary_rxns_list o →
          elementary rxn ∧ energies_known (E s1) rxn) →
  cvg_tuple2dict o cvgs s = (Ok theta, s1) →
  (∀ rxn st sp, rxn ∈ elementary_rxns_list o →
     head rxn = Some st ∨ last rxn = Some st → sp ∈ st →
     is_Some (term_base o theta (p s1) sp) ∧ (0 <= (split_species sp).1)%Z) →
  ∃ kfs krs rfs rrs s2 s',
    get_rate_expressions o (elementary_rxns_list o) s
      = (Ok (rate_statements o),
         set_rate_expressions (rate_statements o) s) ∧
    get_rate_constants o s1 = (Ok (kfs, krs), s2) ∧
    get_rates o (rate_statements o) cvgs s = (Ok (rfs, rrs), s') ∧
    length rfs = length (elementary_rxns_list o) ∧
    length rrs = length (elementary_rxns_list o) ∧
    ∀ i rxn s_IS s_FS,
      elementary_rxns_list o !! i = Some rxn →
      head rxn = Some s_IS → last rxn = Some s_FS →
      ∃ kf kr,
        kfs !! i = Some kf ∧ krs !! i = Some kr ∧
        rfs !! i = Some (kf * state_activity o theta (p s1) s_IS) ∧
        rrs !! i = Some (kr * state_activity o theta (p s1) s_FS).
Proof.
  intros Hnd Hh HkT Hwf Htheta Hterms.
  set (rxns := elementary_rxns_list o) in *.
  set (n := length rxns).
  assert (∀ rxn, rxn ∈ rxns →
            ∃ s_IS s_FS, head rxn = Some s_IS ∧ last rxn = Some s_FS) as Hends.
  { intros rxn Hin. destruct (Hwf rxn Hin) as [Hel _].
    destruct rxn as [|s1' [|s2' [|s3' [|s4' rest]]]];
      try (destruct Hel as [Hel|Hel]; simpl in Hel; lia);
      by do 2 eexists. }
  assert (typed_network o) as Htyped.
  { intros rxn Hin. destruct (Hends rxn Hin) as (s_IS & s_FS & Hhead & Hlast).
    exists s_IS, s_FS. split_and!; try done.
    - intros sp Hsp.
      destruct (Hterms rxn s_IS sp Hin (or_introl Hhead) Hsp) as [Hb _].
      by eapply term_base_table.
    - intros sp Hsp.
      destruct (Hterms rxn s_FS sp Hin (or_intror Hlast) Hsp) as [Hb _].
      by eapply term_base_table. }
  destruct (rate_constants_rows o (E s1) Hh HkT Hwf)
    as (Gf & Gr & kfs & krs & Hrc & (_ & _ & Lf & Lr & _)).
  fold rxns in Lf, Lr.
  pose proof (get_rate_constants_run o s1 Gf Gr kfs krs Hrc) as Hrun.
  set (fval := fun ix : nat * rxn_t =>
         default 0 (kfs !! ix.1)
         * state_activity o theta (p s1) (default [] (head ix.2))).
  set (rval := fun ix : nat * rxn_t =>
         default 0 (krs !! ix.1)
         * state_activity o theta (p s1) (default [] (last ix.2))).
  set (rfs := assign fst fval (imap pair rxns) (replicate n 0)).
  set (rrs := assign fst rval (imap pair rxns) (replicate n 0)).
  assert (∀ ix, ix ∈ imap pair rxns →
            rxns !! ix.1 = Some ix.2 ∧ (ix.1 < n)%nat) as Hitems.
  { intros [i rxn] Hin. apply list_elem_of_lookup in Hin as [j Hj].
    rewrite list_lookup_imap in Hj.
    destruct (rxns !! j) as [rxn'|] eqn:Hj'; [|discriminate].
    injection Hj as <- <-. split; [done|]. by eapply lookup_lt_Some. }
  assert (Py.for_each (exec_stmt theta (p s1) kfs krs)
            (replicate n 0, replicate n 0) (rate_statements o).1
          = Ok (rfs, replicate n 0)) as Hfwd.
  { unfold rate_statements. cbn [fst]. fold rxns.
    rewrite imap_uncurry, for_each_fmap.
    rewrite (for_each_assign _ fst (fun v st => (v, st.2)) fst fval);
      [done | by intros [? ?] | done | done |].
    intros [fs rs] [i rxn] Hin Hlen. cbn [fst snd] in *.
    destruct (Hitems _ Hin) as [Hi Hlt]. cbn [fst snd] in Hi, Hlt.
    assert (rxn ∈ rxns) as Hrxn by (by eapply list_elem_of_lookup_2).
    destruct (Hends rxn Hrxn) as (s_IS & s_FS & Hhead & Hlast).
    destruct (lookup_lt_is_Some_2 kfs i) as [k Hk]; [by rewrite Lf|].
    rewrite (exec_stmt_forward o theta (p s1) kfs krs fs rs i rxn s_IS k);
      try done.
    - unfold fval. cbn [fst snd]. by rewrite Hk, Hhead.
    - rewrite Hlen, length_replicate. done.
    - intros sp Hsp. exact (Hterms rxn s_IS sp Hrxn (or_introl Hhead) Hsp). }
  assert (Py.for_each (exec_stmt theta (p s1) kfs krs)
            (rfs, replicate n 0) (rate_statements o).2
          = Ok (rfs, rrs)) as Hrev.
  { unfold rate_statements. cbn [snd]. fold rxns.
    rewrite imap_uncurry, for_each_fmap.
    rewrite (for_each_assign _ snd (fun v st => (st.1, v)) fst rval);
      [done | by intros [? ?] | done | done |].
    intros [fs rs] [i rxn] Hin Hlen. cbn [fst snd] in *.
    destruct (Hitems _ Hin) as [Hi Hlt]. cbn [fst snd] in Hi, Hlt.
    assert (rxn ∈ rxns) as Hrxn by (by eapply list_elem_of_lookup_2).
    destruct (Hends rxn Hrxn) as (s_IS & s_FS & Hhead & Hlast).
    destruct (lookup_lt_is_Some_2 krs i) as [k Hk]; [by rewrite Lr|].
    rewrite (exec_stmt_reverse o theta (p s1) kfs krs fs rs i rxn s_FS k);
      try done.
    - unfold rval. cbn [fst snd]. by rewrite Hk, Hlast.
    - rewrite Hlen, length_replicate. done.
    - intros sp Hsp. exact (Hterms rxn s_FS sp Hrxn (or_intror Hlast) Hsp). }
  exists kfs, krs, rfs, rrs. do 2 eexists.
  split; [by apply get_rate_expressions_run|].
  split; [exact Hrun|]. split.
  { unfold get_rates.
    erewrite bind_run by exact Htheta. cbv beta.
    erewrite bind_run by exact Hrun. cbv beta iota.
    erewrite (bind_run (get p)) by reflexivity. cbv beta.
    cbn [p setattr]. fold rxns. fold n.
    erewrite bind_run by (unfold lift; rewrite Hfwd; reflexivity). cbv beta.
    erewrite bind_run by (unfold lift; rewrite Hrev; reflexivity).
    cbv beta iota.
    erewrite bind_run by reflexivity. cbv beta.
    erewrite bind_run by reflexivity. cbv beta.
    reflexivity. }
  split; [unfold rfs; by rewrite length_assign, length_replicate|].
  split; [unfold rrs; by rewrite length_assign, length_replicate|].
  intros i rxn s_IS s_FS Hi Hhead Hlast.
  assert (i < n)%nat as Hlt by (by eapply lookup_lt_Some).
  destruct (lookup_lt_is_Some_2 kfs i) as [kf Hkf]; [by rewrite Lf|].
  destruct (lookup_lt_is_Some_2 krs i) as [kr Hkr]; [by rewrite Lr|].
  exists kf, kr. split; [done|]. split; [done|].
  assert ((i, rxn) ∈ imap pair rxns) as Hin.
  { apply list_elem_of_lookup. exists i. by rewrite list_lookup_imap, Hi. }
  assert (NoDup (fst <$> imap pair rxns)) as Hseq.
  { rewrite fst_imap_pair. apply NoDup_seq. }
  split.
  - unfold rfs.
    rewrite (assign_lookup fst fval _ _ (i, rxn) Hseq Hin)
      by (by rewrite length_replicate).
    unfold fval. cbn [fst snd]. by rewrite Hkf, Hhead.
  - unfold rrs.
    rewrite (assign_lookup fst rval _ _ (i, rxn) Hseq Hin)
      by (by rewrite length_replicate).
    unfold rval. cbn [fst snd]. by rewrite Hkr, Hlast.
Qed.

(** *** Energy lists of another length *)

(** A name beyond the end of the value list is not written. *)
Lemma overwrite_energies_beyond Gs_order Gs E i name :
  NoDup Gs_order → Gs_order !! i = Some name → (length Gs <= i)%nat →
  overwrite_energies Gs_order Gs E !! name = E !! name.
Proof.
  revert Gs E i.
  induction Gs_order as [|n Gs_order IH]; intros Gs E i Hnd Hn Hlen.
  - by rewrite lookup_nil in Hn.
  - destruct Gs as [|G Gs]; [reflexivity|].
    apply NoDup_cons in Hnd as [Hnot Hnd].
    destruct i as [|i]; [simpl in Hlen; lia|]. simpl in Hn, Hlen.
    rewrite overwrite_energies_cons, (IH Gs _ i) by (done || lia).
    apply lookup_insert_ne. intros ->.
    apply Hnot. by eapply list_elem_of_lookup_2.
Qed.

(** X26.  [get_tof] does not check the length of the list it is handed:
    with no name listed twice, the name at position [i] receives value
    [i] when the list has one and keeps its energy when the list is too
    short, and values beyond the last name are ignored; no exception
    comes from the mismatch. *)
Theorem get_tof_any_length o Gs s i name :
  (∀ c, preserves_E (cvg_tuple2dict o c)) →
  (∀ c, preserves_E (get_steady_state_cvgs o c)) →
  NoDup (adsorbate_names o ++ transition_state_names o) →
  (adsorbate_names o ++ transition_state_names o) !! i = Some name →
  E (get_tof o Gs s).2 !! name
  = match Gs !! i with
    | Some G => Some G
    | None => E s !! name
    end.
Proof.
  intros Htheta Hroot Hnd Hi.
  rewrite (get_tof_energies o Gs s Htheta Hroot).
  destruct (Gs !! i) as [G|] eqn:HG.
  - by eapply overwrite_energies_written.
  - eapply overwrite_energies_beyond; [done | done |].
    by apply lookup_ge_None.
Qed.

End SolverBase.

(** ** The numbers of [mpmath] with their rounding *)

(** An [mpf] is a binary floating-point number [man * 2^expo] of
    unbounded exponent.  At the working precision of [prec] bits
    ([mp.prec], 53 for the default [mp.dps] of 15) an operation returns
    the exact result rounded to the nearest number of at most [prec]
    significant bits, a tie going to the even mantissa. *)
Module Mpf.

Local Open Scope Z_scope.

Record t : Type := mk { man : Z; expo : Z }.

#[global] Instance eq_dec : EqDecision t.
Proof. solve_decision. Defined.

Definition zero : t := mk 0 0.
Definition one : t := mk 1 0.

(** The stored form: an odd mantissa, and [0 * 2^0] for zero. *)
Fixpoint strip (p : positive) (e : Z) : positive * Z :=
  match p with
  | xO q => strip q (e + 1)
  | _ => (p, e)
  end.

Definition normal (m e : Z) : t :=
  match m with
  | Z0 => zero
  | Zpos p => let '(q, e') := strip p e in mk (Zpos q) e'
  | Zneg p => let '(q, e') := strip p e in mk (Zneg q) e'
  end.

Definition bitcount (m : Z) : Z :=
  if m =? 0 then 0 else Z.log2 (Z.abs m) + 1.

(** [m * 2^e] rounded to [prec] bits: the [n] bits too many are cut off
    and the rest goes up when the part cut off is more than half a unit,
    or is half a unit and the rest is odd. *)
Definition round (prec : Z) (m e : Z) : t :=
  let a := Z.abs m in
  let n := bitcount m - prec in
  if n <=? 0 then normal m e
  else
    let q := Z.shiftr a n in
    let r := a - Z.shiftl q n in
    let half := Z.shiftl 1 (n - 1) in
    let q := if r <? half then q
             else if half <? r then q + 1
             else if Z.even q then q else q + 1 in
    normal (Z.sgn m * q) (e + n).

(** [mpf(n)] for an integer. *)
Definition of_Z (prec : Z) (n : Z) : t := round prec n 0.

Definition neg (x : t) : t := mk (- man x) (expo x).

Definition add (prec : Z) (x y : t) : t :=
  let e := Z.min (expo x) (expo y) in
  round prec
    (Z.shiftl (man x) (expo x - e) + Z.shiftl (man y) (expo y - e)) e.

Definition sub (prec : Z) (x y : t) : t := add prec x (neg y).

Definition mul (prec : Z) (x y : t) : t :=
  round prec (man x * man y) (expo x + expo y).

(** [n * x] for an integer [n]. *)
Definition mul_int (prec : Z) (n : Z) (x : t) : t :=
  round prec (n * man x) (expo x).

(** [x / y]: the quotient of the mantissas is taken with [extra] bits
    more than [prec] and a last bit that records a remainder, and then
    rounded; a zero divisor raises. *)
Definition truediv (prec : Z) (x y : t) : result t :=
  if man y =? 0 then Raise Py.ZeroDivisionError
  else
    let a := Z.abs (man x) in
    let b := Z.abs (man y) in
    let extra := Z.max 5 (prec - bitcount a + bitcount b + 5) in
    let quot := Z.shiftl a extra / b in
    let rem := Z.shiftl a extra mod b in
    let '(quot, extra) :=
      if rem =? 0 then (quot, extra) else (2 * quot + 1, extra + 1) in
    Ok (round prec (Z.sgn (man x) * Z.sgn (man y) * quot)
          (expo x - expo y - extra)).

(** [x < y]. *)
Definition ltb (x y : t) : bool :=
  let e := Z.min (expo x) (expo y) in
  Z.shiftl (man x) (expo x - e) <? Z.shiftl (man y) (expo y - e).

(** The real number that an [mpf] stands for, and the exact sum of the
    numbers of a list. *)
Definition value (x : t) : R := (IZR (man x) * powerRZ 2 (expo x))%R.

Definition total (l : list t) : R :=
  foldr (fun x acc => (value x + acc)%R) 0%R l.

End Mpf.

(** ** The energies and coverages in either arithmetic *)

(** The operations that [get_reaction_energies] and
    [boltzmann_coverages] use on their numbers, so that the two routines
    can be read with exact reals, as above, and with the rounded numbers
    of [mpmath]. *)
Module Numbers.

Record arithmetic : Type := {
  num : Type;
  zero : num;
  add : num → num → num;
  sub : num → num → num;
  neg : num → num;
  mul : num → num → num;
  mul_int : Z → num → num;
  truediv : num → num → result num;
  lt : num → num → bool
}.

Definition exact : arithmetic :=
  {| num := R; zero := 0; add := Rplus; sub := Rminus; neg := Ropp;
     mul := Rmult; mul_int := fun n x => IZR n * x;
     truediv := Py.truediv;
     lt := fun a b => if Rlt_dec a b then true else false |}.

Definition mpf (prec : Z) : arithmetic :=
  {| num := Mpf.t; zero := Mpf.zero; add := Mpf.add prec;
     sub := Mpf.sub prec; neg := Mpf.neg; mul := Mpf.mul prec;
     mul_int := Mpf.mul_int prec; truediv := Mpf.truediv prec;
     lt := Mpf.ltb |}.

Section Routines.

Variable A : arithmetic.

(** [ModelShell.split_species] and [self._math.exp], as before. *)
Variable split_species : string -> Z * string.
Variable exp : num A -> num A.

(** The builtins [max(a, b)] and [sum(l)]. *)
Definition max (a b : num A) : num A := if lt A a b then b else a.

Definition sum (l : list (num A)) : num A := foldl (add A) (zero A) l.

(** The accumulation [G += stoichiometry * self.E[species_name]]. *)
Fixpoint accumulate_state (E : gmap string (num A)) (G : num A)
    (state : state_t) : result (num A) :=
  match state with
  | [] => Ok G
  | sp :: rest =>
      let '(stoichiometry, species_name) := split_species sp in
      e ← Py.getitem E species_name;
      accumulate_state E (add A G (mul_int A stoichiometry e)) rest
  end.

(** [SolverBase.get_reaction_energies]. *)
Definition get_reaction_energies (E : gmap string (num A))
    (elementary_rxn_list : rxn_t) : result (num A * num A) :=
  IS ← Py.index elementary_rxn_list 0;
  G_IS ← accumulate_state E (zero A) IS;
  FS ← Py.index elementary_rxn_list (-1);
  G_FS ← accumulate_state E (zero A) FS;
  let G_TS := zero A in
  let G_TS :=
    if decide (length elementary_rxn_list = 2%nat) then max G_IS G_FS
    else G_TS in
  G_TS ← (if decide (length elementary_rxn_list = 3%nat)
          then TS ← Py.index elementary_rxn_list 1;
               accumulate_state E G_TS TS
          else Ok G_TS);
  let f_barrier := sub A G_TS G_IS in
  let r_barrier := sub A G_TS G_FS in
  Ok (f_barrier, r_barrier).

(** The numbers that [SolverBase.boltzmann_coverages] returns on a
    solver that has its data: [kB] and [T] are the constants of the
    model, [E] is [self.E]. *)
Definition boltzmann_coverages (kB T : num A) (E : gmap string (num A))
    (adsorbate_names : list string) : result (list (num A)) :=
  terms ← Py.for_each (fun terms adsorbate =>
              e ← Py.getitem E adsorbate;
              q ← truediv A (neg A e) (mul A kB T);
              Ok (terms ++ [exp q]))
            [] adsorbate_names;
  let boltz_sum := sum terms in
  Py.for_each (fun cvgs adsorbate =>
      e ← Py.getitem E adsorbate;
      q ← truediv A (neg A e) (mul A kB T);
      cvg ← truediv A (exp q) boltz_sum;
      Ok (cvgs ++ [cvg]))
    [] adsorbate_names.

End Routines.

End Numbers.

(** With the exact arithmetic these are the routines of the solver. *)
Lemma accumulate_state_exact split_species (E : gmap string R) state :
  ∀ G, Numbers.accumulate_state Numbers.exact split_species E G state
       = accumulate_state split_species E G state.
Proof.
  induction state as [|sp rest IH]; intros G; [done|].
  cbn [Numbers.accumulate_state accumulate_state].
  destruct (split_species sp) as [n name].
  change (Numbers.num Numbers.exact) with R in *.
  destruct (Py.getitem E name) as [e|]; [apply IH | done].
Qed.

Lemma get_reaction_energies_exact split_species (E : gmap string R) rxn :
  Numbers.get_reaction_energies Numbers.exact split_species E rxn
  = get_reaction_energies split_species E rxn.
Proof.
  unfold Numbers.get_reaction_energies, get_reaction_energies.
  change (Numbers.num Numbers.exact) with R in *.
  change (Numbers.zero Numbers.exact) with 0.
  destruct (Py.index rxn 0) as [initial|]; [|done].
  cbn [mbind Py.result_bind]. rewrite accumulate_state_exact.
  destruct (accumulate_state split_species E 0 initial) as [G_IS|]; [|done].
  cbn [mbind Py.result_bind].
  destruct (Py.index rxn (-1)) as [final|]; [|done].
  cbn [mbind Py.result_bind]. rewrite accumulate_state_exact.
  destruct (accumulate_state split_species E 0 final) as [G_FS|]; [|done].
  cbn [mbind Py.result_bind]. cbv zeta.
  assert (Numbers.max Numbers.exact G_IS G_FS = Py.max G_IS G_FS) as ->.
  { unfold Numbers.max, Py.max. cbn [Numbers.lt Numbers.exact].
    by destruct (Rlt_dec G_IS G_FS). }
  case_decide; [|done].
  destruct (Py.index rxn 1) as [transition|]; [|done].
  cbn [mbind Py.result_bind]. by rewrite accumulate_state_exact.
Qed.

Lemma boltzmann_coverages_exact o s :
  has_data s = true →
  (boltzmann_coverages o s).1
  = Numbers.boltzmann_coverages Numbers.exact exp
      (_kB o) (temperature o) (E s) (adsorbate_names o).
Proof.
  intros Hdata. unfold boltzmann_coverages.
  erewrite bind_run by reflexivity. cbv beta zeta.
  erewrite (bind_run (get has_data)) by reflexivity. cbv beta.
  cbn [has_data setattr]. rewrite Hdata. cbn [negb].
  erewrite (bind_run (mret tt)) by reflexivity. cbv beta.
  erewrite (bind_run (get E)) by reflexivity. cbv beta.
  cbn [E setattr].
  unfold Numbers.boltzmann_coverages, Numbers.sum, Py.sum.
  cbn [Numbers.num Numbers.exact Numbers.truediv Numbers.neg Numbers.mul
       Numbers.add Numbers.zero].
  unfold M_bind, mbind, lift.
  match goal with |- context [Py.for_each ?body [] (adsorbate_names o)] =>
    destruct (Py.for_each body [] (adsorbate_names o)) as [terms|e]
  end; reflexivity.
Qed.

(** Adsorbates that all have the energy [e] share the surface equally:
    each coverage is the quotient of their common factor and the sum of
    as many factors as there are adsorbates. *)
Lemma boltzmann_coverages_level (A : Numbers.arithmetic)
    (exp : Numbers.num A → Numbers.num A) (kB T e q cvg : Numbers.num A)
    (E : gmap string (Numbers.num A)) (names : list string) :
  (∀ name, name ∈ names → E !! name = Some e) →
  Numbers.truediv A (Numbers.neg A e) (Numbers.mul A kB T) = Ok q →
  Numbers.truediv A (exp q)
    (Numbers.sum A (replicate (length names) (exp q))) = Ok cvg →
  Numbers.boltzmann_coverages A exp kB T E names
  = Ok (replicate (length names) cvg).
Proof.
  intros Hlevel Hq Hcvg. unfold Numbers.boltzmann_coverages.
  rewrite (for_each_snoc _ (fun _ => exp q)).
  - cbn [mbind Py.result_bind app].
    rewrite (const_fmap _ names (exp q)) by done.
    rewrite (for_each_snoc _ (fun _ => cvg)).
    + cbn [app]. by rewrite (const_fmap _ names cvg).
    + intros acc name Hin.
      rewrite (getitem_Some _ _ _ (Hlevel name Hin)).
      cbn [mbind Py.result_bind]. rewrite Hq.
      cbn [mbind Py.result_bind]. by rewrite Hcvg.
  - intros acc name Hin.
    rewrite (getitem_Some _ _ _ (Hlevel name Hin)).
    cbn [mbind Py.result_bind]. by rewrite Hq.
Qed.

(** *** The size of the rounding error *)

Lemma two_ne_0 : (2 : R) ≠ 0.
Proof. lra. Qed.

Lemma strip_value p : ∀ e q e',
  Mpf.strip p e = (q, e') →
  IZR (Zpos q) * powerRZ 2 e' = IZR (Zpos p) * powerRZ 2 e.
Proof.
  induction p as [p IH|p IH|]; intros e q e' H; cbn [Mpf.strip] in H;
    try (by injection H as <- <-).
  rewrite (IH _ _ _ H), powerRZ_add by apply two_ne_0.
  rewrite (Pos2Z.inj_xO p), mult_IZR. simpl powerRZ. lra.
Qed.

Lemma normal_value m e : Mpf.value (Mpf.normal m e) = IZR m * powerRZ 2 e.
Proof.
  unfold Mpf.normal. destruct m as [|p|p].
  - unfold Mpf.value. simpl. lra.
  - destruct (Mpf.strip p e) as [q e'] eqn:H. unfold Mpf.value. cbn [Mpf.man Mpf.expo].
    by apply strip_value.
  - destruct (Mpf.strip p e) as [q e'] eqn:H. unfold Mpf.value. cbn [Mpf.man Mpf.expo].
    change (Z.neg q) with (- Z.pos q)%Z. change (Z.neg p) with (- Z.pos p)%Z.
    rewrite !opp_IZR. pose proof (strip_value p e q e' H). lra.
Qed.

Lemma IZR_pow2 (k : Z) : (0 <= k)%Z → IZR (2 ^ k) = powerRZ 2 k.
Proof.
  intros Hk. rewrite <- (Z2Nat.id k Hk) at 1 2.
  rewrite <- pow_IZR, <- pow_powerRZ. reflexivity.
Qed.

Lemma powerRZ_2_pos k : 0 < powerRZ 2 k.
Proof. apply powerRZ_lt. lra. Qed.

(** The integer part of the rounding: the new mantissa, scaled back, is
    within half a unit of the old one, which is at most the old mantissa
    over [2^prec]. *)
Lemma round_mantissa (prec a n : Z) :
  (0 < prec)%Z → (0 < a)%Z → (0 < n)%Z → (n = Z.log2 a + 1 - prec)%Z →
  let q := Z.shiftr a n in
  let r := (a - Z.shiftl q n)%Z in
  let half := Z.shiftl 1 (n - 1) in
  let q' := (if r <? half then q
             else if half <? r then q + 1
             else if Z.even q then q else q + 1)%Z in
  (Z.abs (q' * 2 ^ n - a) * 2 ^ prec <= a)%Z.
Proof.
  intros Hprec Ha Hn Hbits. cbv zeta.
  rewrite Z.shiftr_div_pow2, !Z.shiftl_mul_pow2 by lia.
  rewrite Z.mul_1_l.
  assert (2 ^ n = 2 * 2 ^ (n - 1))%Z as Hpow.
  { rewrite <- Z.pow_succ_r by lia. f_equal. lia. }
  assert (0 < 2 ^ (n - 1))%Z as Hhalf by (apply Z.pow_pos_nonneg; lia).
  pose proof (Z.div_mod a (2 ^ n) ltac:(lia)) as Hdm.
  pose proof (Z.mod_pos_bound a (2 ^ n) ltac:(lia)) as Hmod.
  set (q := (a / 2 ^ n)%Z) in *. set (r := (a mod 2 ^ n)%Z) in *.
  assert (a - q * 2 ^ n = r)%Z as -> by lia.
  assert (2 ^ (n - 1) * 2 ^ prec <= a)%Z as Hlow.
  { rewrite <- Z.pow_add_r by lia.
    replace (n - 1 + prec)%Z with (Z.log2 a) by lia.
    apply Z.log2_spec. lia. }
  assert (0 < 2 ^ prec)%Z as Hp by (apply Z.pow_pos_nonneg; lia).
  assert (∀ err, (0 <= err <= 2 ^ (n - 1))%Z → (err * 2 ^ prec <= a)%Z) as Hgo.
  { intros err Herr. nia. }
  destruct (Z.ltb_spec r (2 ^ (n - 1))).
  - apply Hgo. lia.
  - destruct (Z.ltb_spec (2 ^ (n - 1)) r).
    + apply Hgo. lia.
    + destruct (Z.even q); apply Hgo; lia.
Qed.

(** Rounding to [prec] bits changes a number by at most the fraction
    [2^-prec] of itself. *)
Lemma round_error (prec m e : Z) :
  (0 < prec)%Z →
  Rabs (Mpf.value (Mpf.round prec m e) - IZR m * powerRZ 2 e)
  <= powerRZ 2 (- prec) * Rabs (IZR m * powerRZ 2 e).
Proof.
  intros Hprec. unfold Mpf.round. cbv zeta.
  pose proof (powerRZ_2_pos (- prec)) as Hu.
  destruct (Z.leb_spec (Mpf.bitcount m - prec) 0) as [Hfit|Hcut].
  { rewrite normal_value. replace (_ - _) with 0 by lra.
    rewrite Rabs_R0. apply Rmult_le_pos; [lra | apply Rabs_pos]. }
  assert (m ≠ 0%Z) as Hm.
  { intros ->. unfold Mpf.bitcount in Hcut. simpl in Hcut. lia. }
  assert (Mpf.bitcount m = Z.log2 (Z.abs m) + 1)%Z as Hbc.
  { unfold Mpf.bitcount. destruct (Z.eqb_spec m 0); [done | lia]. }
  set (n := (Mpf.bitcount m - prec)%Z) in *.
  pose proof (round_mantissa prec (Z.abs m) n Hprec ltac:(lia) Hcut
                ltac:(lia)) as Hq.
  cbv zeta in Hq.
  set (q' := (if _ <? _ then _ else _)%Z) in *.
  rewrite normal_value.
  rewrite powerRZ_add by apply two_ne_0.
  rewrite <- (IZR_pow2 n) by lia.
  assert (IZR (Z.sgn m * q') * (powerRZ 2 e * IZR (2 ^ n)) - IZR m * powerRZ 2 e
          = IZR (Z.sgn m * (q' * 2 ^ n - Z.abs m)) * powerRZ 2 e) as ->.
  { rewrite !mult_IZR, minus_IZR, !mult_IZR.
    destruct m as [|p|p]; [done| |]; cbn [Z.sgn].
    - change (Z.abs (Z.pos p)) with (Z.pos p). lra.
    - change (Z.abs (Z.neg p)) with (Z.pos p).
      rewrite <- (Pos2Z.opp_pos p), opp_IZR. lra. }
  pose proof (powerRZ_2_pos e) as He.
  rewrite !Rabs_mult, (Rabs_right (powerRZ 2 e)) by lra.
  rewrite <- Rmult_assoc. apply Rmult_le_compat_r; [lra|].
  rewrite <- !abs_IZR.
  rewrite Z.abs_mul.
  assert (Z.abs (Z.sgn m) = 1)%Z as -> by (destruct m; done).
  rewrite Z.mul_1_l.
  apply Rmult_le_reg_l with (powerRZ 2 prec); [apply powerRZ_2_pos|].
  rewrite <- Rmult_assoc, <- powerRZ_add by apply two_ne_0.
  replace (prec + - prec)%Z with 0%Z by lia. simpl powerRZ. rewrite Rmult_1_l.
  rewrite <- (IZR_pow2 prec) by lia. rewrite <- mult_IZR.
  apply IZR_le. lia.
Qed.

Lemma shiftl_value (m e e0 : Z) :
  (e0 <= e)%Z →
  IZR (Z.shiftl m (e - e0)) * powerRZ 2 e0 = IZR m * powerRZ 2 e.
Proof.
  intros He. rewrite Z.shiftl_mul_pow2 by lia.
  rewrite mult_IZR, IZR_pow2 by lia.
  rewrite Rmult_assoc, <- powerRZ_add by apply two_ne_0.
  do 2 f_equal. lia.
Qed.

Lemma neg_value x : Mpf.value (Mpf.neg x) = - Mpf.value x.
Proof. unfold Mpf.value, Mpf.neg. cbn [Mpf.man Mpf.expo]. rewrite opp_IZR. lra. Qed.

(** A sum and a difference are the exact ones up to the fraction
    [2^-prec]. *)
Lemma add_error prec x y :
  (0 < prec)%Z →
  Rabs (Mpf.value (Mpf.add prec x y) - (Mpf.value x + Mpf.value y))
  <= powerRZ 2 (- prec) * Rabs (Mpf.value x + Mpf.value y).
Proof.
  intros Hprec. unfold Mpf.add. cbv zeta.
  set (e := Z.min (Mpf.expo x) (Mpf.expo y)).
  assert (Mpf.value x + Mpf.value y
          = IZR (Z.shiftl (Mpf.man x) (Mpf.expo x - e)
                 + Z.shiftl (Mpf.man y) (Mpf.expo y - e)) * powerRZ 2 e)
    as ->.
  { rewrite plus_IZR, Rmult_plus_distr_r.
    rewrite !shiftl_value by (unfold e; lia). reflexivity. }
  by apply round_error.
Qed.

Lemma sub_error prec x y :
  (0 < prec)%Z →
  Rabs (Mpf.value (Mpf.sub prec x y) - (Mpf.value x - Mpf.value y))
  <= powerRZ 2 (- prec) * Rabs (Mpf.value x - Mpf.value y).
Proof.
  intros Hprec. unfold Mpf.sub.
  pose proof (add_error prec x (Mpf.neg y) Hprec) as H.
  rewrite neg_value in H. exact H.
Qed.

Lemma unit_roundoff_small prec : (0 < prec)%Z → 0 < powerRZ 2 (- prec) <= 1 / 2.
Proof.
  intros Hprec. pose proof (powerRZ_2_pos (- prec)) as Hpos.
  split; [done|].
  assert (powerRZ 2 (- prec) * powerRZ 2 prec = 1) as Hinv.
  { rewrite <- powerRZ_add by apply two_ne_0.
    replace (- prec + prec)%Z with 0%Z by lia. reflexivity. }
  assert (2 <= powerRZ 2 prec) as Hbig.
  { rewrite <- IZR_pow2 by lia. apply IZR_le.
    change 2%Z with (2 ^ 1)%Z at 1. apply Z.pow_le_mono_r; lia. }
  nra.
Qed.

(** The identity of the barriers, on rounded numbers: the difference of
    the barriers and the difference of the end states agree to within
    four units of the precision, relative to the barriers. *)
Lemma barrier_difference_error prec (G_IS G_TS G_FS : Mpf.t) :
  (0 < prec)%Z →
  let f_barrier := Mpf.sub prec G_TS G_IS in
  let r_barrier := Mpf.sub prec G_TS G_FS in
  Rabs (Mpf.value (Mpf.sub prec f_barrier r_barrier)
        - Mpf.value (Mpf.sub prec G_FS G_IS))
  <= 4 * powerRZ 2 (- prec)
     * (Rabs (Mpf.value G_TS - Mpf.value G_IS) + Rabs (Mpf.value G_TS - Mpf.value G_FS)).
Proof.
  intros Hprec. cbv zeta.
  pose proof (unit_roundoff_small prec Hprec) as Hu.
  pose proof (sub_error prec G_TS G_IS Hprec) as Hf.
  pose proof (sub_error prec G_TS G_FS Hprec) as Hr.
  pose proof (sub_error prec (Mpf.sub prec G_TS G_IS) (Mpf.sub prec G_TS G_FS)
                Hprec) as Hd.
  pose proof (sub_error prec G_FS G_IS Hprec) as He.
  set (u := powerRZ 2 (- prec)) in *.
  set (a := Mpf.value G_TS - Mpf.value G_IS) in *.
  set (b := Mpf.value G_TS - Mpf.value G_FS) in *.
  replace (Mpf.value G_FS - Mpf.value G_IS) with (a - b) in He by (unfold a, b; lra).
  set (d := Mpf.value (Mpf.sub prec (Mpf.sub prec G_TS G_IS)
                     (Mpf.sub prec G_TS G_FS))) in *.
  set (fb := Mpf.value (Mpf.sub prec G_TS G_IS)) in *.
  set (rb := Mpf.value (Mpf.sub prec G_TS G_FS)) in *.
  set (g := Mpf.value (Mpf.sub prec G_FS G_IS)) in *.
  pose proof (Rabs_pos a) as Ha. pose proof (Rabs_pos b) as Hb.
  assert (Rabs (a - b) <= Rabs a + Rabs b) as Hab.
  { unfold Rminus. eapply Rle_trans; [apply Rabs_triang|].
    rewrite Rabs_Ropp. lra. }
  assert (Rabs (fb - rb) <= (1 + u) * (Rabs a + Rabs b)) as Hfr.
  { replace (fb - rb) with ((fb - a) + (a - b) + - (rb - b)) by lra.
    eapply Rle_trans; [apply Rabs_triang|].
    eapply Rle_trans; [apply Rplus_le_compat_r, Rabs_triang|].
    rewrite Rabs_Ropp. nra. }
  replace (d - g) with ((d - (fb - rb)) + ((fb - a) + - (rb - b)) + - (g - (a - b)))
    by lra.
  eapply Rle_trans; [apply Rabs_triang|].
  eapply Rle_trans; [apply Rplus_le_compat_r, Rabs_triang|].
  rewrite Rabs_Ropp.
  assert (Rabs (fb - a + - (rb - b)) <= u * Rabs a + u * Rabs b) as Hmid.
  { eapply Rle_trans; [apply Rabs_triang|]. rewrite Rabs_Ropp. lra. }
  assert (0 <= u * (Rabs a + Rabs b)) as HuS by (apply Rmult_le_pos; lra).
  assert (u * Rabs (fb - rb) <= u * ((1 + u) * (Rabs a + Rabs b))) as H1
    by (apply Rmult_le_compat_l; lra).
  assert (u * Rabs (a - b) <= u * (Rabs a + Rabs b)) as H3
    by (apply Rmult_le_compat_l; lra).
  assert (u * (Rabs a + Rabs b) * u <= u * (Rabs a + Rabs b) * 1) as H4
    by (apply Rmult_le_compat_l; lra).
  lra.
Qed.

Lemma bitcount_pos (a : Z) : (0 < a)%Z → Mpf.bitcount a = (Z.log2 a + 1)%Z.
Proof.
  intros Ha. unfold Mpf.bitcount.
  destruct (Z.eqb_spec a 0); [lia|]. by rewrite Z.abs_eq by lia.
Qed.

(** The mantissa that a division hands to the rounding: it is the
    quotient of the mantissas, scaled by [2^extra], to within one unit,
    and that quotient is larger than [2^(prec+4)]. *)
Lemma div_mantissa (prec a b : Z) :
  (0 < prec)%Z → (0 < a)%Z → (0 < b)%Z →
  let extra := Z.max 5 (prec - Mpf.bitcount a + Mpf.bitcount b + 5) in
  let quot := (Z.shiftl a extra / b)%Z in
  let rem := (Z.shiftl a extra mod b)%Z in
  let '(quot', extra') :=
    if (rem =? 0)%Z then (quot, extra) else (2 * quot + 1, extra + 1)%Z in
  (0 <= extra')%Z ∧ (Z.abs (quot' * b - a * 2 ^ extra') <= b)%Z ∧
  (b * 2 ^ (prec + 4) <= a * 2 ^ extra')%Z.
Proof.
  intros Hprec Ha Hb. cbv zeta.
  rewrite (bitcount_pos a Ha), (bitcount_pos b Hb).
  set (extra := Z.max 5 (prec - (Z.log2 a + 1) + (Z.log2 b + 1) + 5)).
  assert (5 <= extra)%Z as Hextra by (unfold extra; lia).
  rewrite Z.shiftl_mul_pow2 by lia.
  pose proof (Z.div_mod (a * 2 ^ extra) b ltac:(lia)) as Hdm.
  pose proof (Z.mod_pos_bound (a * 2 ^ extra) b Hb) as Hmod.
  assert (b * 2 ^ (prec + 4) <= a * 2 ^ extra)%Z as Hlow.
  { pose proof (Z.log2_spec a Ha) as [Hla _].
    pose proof (Z.log2_spec b Hb) as [_ Hlb].
    pose proof (Z.log2_nonneg a). pose proof (Z.log2_nonneg b).
    assert (2 ^ (Z.succ (Z.log2 b) + (prec + 4))
            <= 2 ^ (Z.log2 a + extra))%Z as Hpow.
    { apply Z.pow_le_mono_r; unfold extra; lia. }
    rewrite (Z.pow_add_r 2 (Z.succ (Z.log2 b))) in Hpow by lia.
    rewrite (Z.pow_add_r 2 (Z.log2 a)) in Hpow by lia.
    assert (0 < 2 ^ (prec + 4))%Z by (apply Z.pow_pos_nonneg; lia).
    assert (0 < 2 ^ extra)%Z by (apply Z.pow_pos_nonneg; lia).
    nia. }
  destruct (Z.eqb_spec ((a * 2 ^ extra) mod b) 0) as [Hzero|Hrem].
  - split; [lia|]. split; [|done]. lia.
  - assert (2 ^ (extra + 1) = 2 * 2 ^ extra)%Z as ->.
    { rewrite <- Z.pow_succ_r by lia. f_equal. }
    assert (0 < 2 ^ extra)%Z by (apply Z.pow_pos_nonneg; lia).
    split; [lia|]. split; [lia | nia].
Qed.

Lemma IZR_sgn_abs (m : Z) : IZR m = IZR (Z.sgn m) * IZR (Z.abs m).
Proof. rewrite <- mult_IZR. f_equal. destruct m; simpl; lia. Qed.

Lemma Rabs_IZR_sgn (m : Z) : m ≠ 0%Z → Rabs (IZR (Z.sgn m)) = 1.
Proof.
  intros Hm. destruct m as [|p|p]; [done| |]; cbn [Z.sgn].
  - apply Rabs_R1.
  - rewrite <- Rabs_Ropp, <- opp_IZR. apply Rabs_R1.
Qed.

(** A quotient is the exact one up to the fraction [2 * 2^-prec]. *)
Lemma truediv_error prec x y q :
  (0 < prec)%Z → Mpf.truediv prec x y = Ok q →
  Mpf.value y ≠ 0 ∧
  Rabs (Mpf.value q - Mpf.value x / Mpf.value y)
  <= 2 * powerRZ 2 (- prec) * Rabs (Mpf.value x / Mpf.value y).
Proof.
  intros Hprec Hrun. unfold Mpf.truediv in Hrun.
  destruct (Z.eqb_spec (Mpf.man y) 0) as [|Hy]; [discriminate|].
  pose proof (unit_roundoff_small prec Hprec) as Hu.
  pose proof (powerRZ_2_pos (Mpf.expo y)) as Hey.
  assert (IZR (Mpf.man y) ≠ 0) as Hmy by (by apply not_0_IZR).
  assert (Mpf.value y ≠ 0) as Hvy.
  { unfold Mpf.value. apply Rmult_integral_contrapositive_currified; lra. }
  split; [exact Hvy|].
  destruct (Z.eq_dec (Mpf.man x) 0%Z) as [Hx|Hx].
  { revert Hrun. rewrite Hx. cbn [Z.abs Z.sgn]. rewrite Z.shiftl_0_l.
    rewrite Z.div_0_l, Z.mod_0_l by lia. cbn [Z.eqb Z.mul]. intros [= <-].
    pose proof (round_error prec 0 (Mpf.expo x - Mpf.expo y
                  - Z.max 5 (prec - Mpf.bitcount 0
                             + Mpf.bitcount (Z.abs (Mpf.man y)) + 5)) Hprec)
      as Hzero.
    rewrite Rmult_0_l, Rabs_R0, Rmult_0_r, Rminus_0_r in Hzero.
    assert (Mpf.value x = 0) as -> by (unfold Mpf.value; rewrite Hx; lra).
    unfold Rdiv. rewrite Rmult_0_l, Rminus_0_r, Rabs_R0, Rmult_0_r.
    exact Hzero. }
  pose proof (div_mantissa prec (Z.abs (Mpf.man x)) (Z.abs (Mpf.man y))
                Hprec ltac:(lia) ltac:(lia)) as Hdiv.
  cbv zeta in Hdiv. revert Hrun.
  destruct (if _ =? 0 then _ else _)%Z as [M extra] eqn:Hsel.
  destruct Hdiv as (Hextra & Hclose & Hlarge).
  intros [= <-].
  set (a := Z.abs (Mpf.man x)) in *. set (b := Z.abs (Mpf.man y)) in *.
  set (e' := (Mpf.expo x - Mpf.expo y - extra)%Z).
  pose proof (round_error prec (Z.sgn (Mpf.man x) * Z.sgn (Mpf.man y) * M)
                e' Hprec) as Hround.
  set (r := Mpf.value (Mpf.round prec _ e')) in *.
  set (u := powerRZ 2 (- prec)) in *.
  pose proof (powerRZ_2_pos e') as Hpe.
  assert (0 < IZR a) as Ha by (apply IZR_lt; unfold a; lia).
  assert (0 < IZR b) as Hb by (apply IZR_lt; unfold b; lia).
  set (Q := IZR a * powerRZ 2 extra / IZR b).
  set (sg := IZR (Z.sgn (Mpf.man x)) * IZR (Z.sgn (Mpf.man y))).
  assert (Rabs sg = 1) as Hsg.
  { unfold sg. rewrite Rabs_mult, !Rabs_IZR_sgn by done. lra. }
  assert (Mpf.value x / Mpf.value y = sg * Q * powerRZ 2 e') as HV.
  { unfold Mpf.value, sg, Q, e'.
    rewrite (IZR_sgn_abs (Mpf.man x)), (IZR_sgn_abs (Mpf.man y)).
    fold a b.
    replace (Mpf.expo x - Mpf.expo y - extra)%Z
      with (Mpf.expo x + (- Mpf.expo y + - extra))%Z by lia.
    rewrite !powerRZ_add, !powerRZ_neg' by apply two_ne_0.
    pose proof (powerRZ_2_pos extra).
    assert (IZR (Z.sgn (Mpf.man y)) = 1 ∨ IZR (Z.sgn (Mpf.man y)) = -1)
      as [-> | ->].
    { destruct (Mpf.man y) as [|p|p]; [done | by left | by right]. }
    - field. repeat split; lra.
    - field. repeat split; lra. }
  assert (IZR (Z.sgn (Mpf.man x) * Z.sgn (Mpf.man y) * M)
          = sg * IZR M) as HM.
  { unfold sg. by rewrite !mult_IZR. }
  rewrite HM in Hround. rewrite HV.
  assert (Rabs (IZR M - Q) <= 1) as HMQ.
  { apply Rmult_le_reg_r with (IZR b); [done|].
    assert (Rabs (IZR M - Q) * IZR b = Rabs ((IZR M - Q) * IZR b)) as ->
      by (rewrite Rabs_mult, (Rabs_right (IZR b)); lra).
    unfold Q. replace ((IZR M - IZR a * powerRZ 2 extra / IZR b) * IZR b)
      with (IZR M * IZR b - IZR a * powerRZ 2 extra) by (field; lra).
    rewrite <- IZR_pow2, <- !mult_IZR, <- minus_IZR, <- abs_IZR by lia.
    apply IZR_le. lia. }
  assert (16 * powerRZ 2 prec <= Q) as HQ.
  { apply Rmult_le_reg_r with (IZR b); [done|].
    unfold Q. replace (IZR a * powerRZ 2 extra / IZR b * IZR b)
      with (IZR a * powerRZ 2 extra) by (field; lra).
    rewrite <- !IZR_pow2 by lia.
    change 16 with (IZR (2 ^ 4)). rewrite <- !mult_IZR. apply IZR_le.
    rewrite <- Z.pow_add_r by lia. replace (4 + prec)%Z with (prec + 4)%Z by lia.
    lia. }
  assert (u * powerRZ 2 prec = 1) as HuP.
  { unfold u. rewrite <- powerRZ_add by apply two_ne_0.
    replace (- prec + prec)%Z with 0%Z by lia. reflexivity. }
  assert (0 < Q) as HQpos by (pose proof (powerRZ_2_pos prec); lra).
  rewrite !Rabs_mult, Hsg, Rmult_1_l, (Rabs_right Q), (Rabs_right (powerRZ 2 e'))
    by lra.
  rewrite !Rabs_mult, Hsg, Rmult_1_l, (Rabs_right (powerRZ 2 e')) in Hround
    by lra.
  replace (r - sg * Q * powerRZ 2 e')
    with ((r - sg * IZR M * powerRZ 2 e') + sg * ((IZR M - Q) * powerRZ 2 e'))
    by lra.
  eapply Rle_trans; [apply Rabs_triang|].
  rewrite !Rabs_mult, Hsg, Rmult_1_l, (Rabs_right (powerRZ 2 e')) by lra.
  assert (Rabs (IZR M) <= Q + 1) as HMabs.
  { replace (IZR M) with (Q + (IZR M - Q)) by lra.
    eapply Rle_trans; [apply Rabs_triang|]. rewrite (Rabs_right Q); lra. }
  assert (u * Q >= 16) as HuQ by nra.
  assert (u * Rabs (IZR M) + Rabs (IZR M - Q) <= 2 * u * Q) as Hgoal.
  { assert (u * Rabs (IZR M) <= u * (Q + 1))
      by (apply Rmult_le_compat_l; lra). lra. }
  assert ((u * Rabs (IZR M) + Rabs (IZR M - Q)) * powerRZ 2 e'
          <= 2 * u * Q * powerRZ 2 e') as Hscaled
    by (apply Rmult_le_compat_r; lra).
  lra.
Qed.

Lemma total_nonneg l : Forall (fun x => 0 < Mpf.value x) l → 0 <= Mpf.total l.
Proof.
  induction 1 as [|x l Hx _ IH]; cbn [Mpf.total foldr]; [lra|].
  fold (Mpf.total l). lra.
Qed.

Lemma total_pos l :
  l ≠ [] → Forall (fun x => 0 < Mpf.value x) l → 0 < Mpf.total l.
Proof.
  intros Hne Hall. destruct Hall as [|x l Hx Hall]; [done|].
  cbn [Mpf.total foldr]. fold (Mpf.total l). pose proof (total_nonneg l Hall). lra.
Qed.

Lemma Rabs_le_between (x a : R) : Rabs x <= a → - a <= x <= a.
Proof. unfold Rabs. destruct (Rcase_abs x); lra. Qed.

(** One rounded addition of numbers that are not negative stays between
    the two neighbours of the exact sum. *)
Lemma add_between prec x y :
  (0 < prec)%Z → 0 <= Mpf.value x + Mpf.value y →
  (1 - powerRZ 2 (- prec)) * (Mpf.value x + Mpf.value y)
  <= Mpf.value (Mpf.add prec x y)
  <= (1 + powerRZ 2 (- prec)) * (Mpf.value x + Mpf.value y).
Proof.
  intros Hprec Hsum. pose proof (add_error prec x y Hprec) as H.
  rewrite (Rabs_right (Mpf.value x + Mpf.value y)) in H by lra.
  apply Rabs_le_between in H. lra.
Qed.

(** [sum] of positive numbers: each of the additions loses or gains at
    most the fraction [2^-prec]. *)
Lemma sum_between prec (l : list Mpf.t) :
  (0 < prec)%Z → Forall (fun x => 0 < Mpf.value x) l →
  ∀ acc, 0 <= Mpf.value acc →
  (1 - powerRZ 2 (- prec)) ^ length l * (Mpf.value acc + Mpf.total l)
  <= Mpf.value (foldl (Mpf.add prec) acc l)
  <= (1 + powerRZ 2 (- prec)) ^ length l * (Mpf.value acc + Mpf.total l).
Proof.
  intros Hprec Hall. pose proof (unit_roundoff_small prec Hprec) as Hu.
  set (u := powerRZ 2 (- prec)) in *.
  induction Hall as [|x l Hx Hall IH]; intros acc Hacc.
  - cbn [foldl length Mpf.total foldr pow]. lra.
  - cbn [foldl length Mpf.total foldr]. fold (Mpf.total l).
    pose proof (total_nonneg l Hall) as Hl.
    pose proof (add_between prec acc x Hprec ltac:(lra)) as Hadd.
    fold u in Hadd.
    assert (0 <= Mpf.value (Mpf.add prec acc x)) as Hacc' by nra.
    specialize (IH _ Hacc').
    assert (0 <= (1 - u) ^ length l) as Hlo by (apply pow_le; lra).
    assert (0 <= (1 + u) ^ length l) as Hhi by (apply pow_le; lra).
    cbn [pow]. split.
    + eapply Rle_trans; [|apply IH].
      rewrite (Rmult_comm (1 - u)), Rmult_assoc.
      apply Rmult_le_compat_l; [done|]. nra.
    + eapply Rle_trans; [apply IH|].
      rewrite (Rmult_comm (1 + u)), Rmult_assoc.
      apply Rmult_le_compat_l; [done|]. nra.
Qed.

Lemma unit_roundoff_quarter prec :
  (1 < prec)%Z → 0 < powerRZ 2 (- prec) <= 1 / 4.
Proof.
  intros Hprec. pose proof (powerRZ_2_pos (- prec)) as Hpos.
  split; [done|].
  assert (powerRZ 2 (- prec) * powerRZ 2 prec = 1) as Hinv.
  { rewrite <- powerRZ_add by apply two_ne_0.
    replace (- prec + prec)%Z with 0%Z by lia. reflexivity. }
  assert (4 <= powerRZ 2 prec) as Hbig.
  { rewrite <- IZR_pow2 by lia. apply IZR_le.
    change 4%Z with (2 ^ 2)%Z at 1. apply Z.pow_le_mono_r; lia. }
  nra.
Qed.

(** A quotient of positive numbers stays between the two neighbours of
    the exact quotient. *)
Lemma truediv_between prec x y q :
  (0 < prec)%Z → 0 < Mpf.value x → 0 < Mpf.value y →
  Mpf.truediv prec x y = Ok q →
  (1 - 2 * powerRZ 2 (- prec)) * (Mpf.value x / Mpf.value y)
  <= Mpf.value q
  <= (1 + 2 * powerRZ 2 (- prec)) * (Mpf.value x / Mpf.value y).
Proof.
  intros Hprec Hx Hy Hrun.
  destruct (truediv_error prec x y q Hprec Hrun) as [_ H].
  assert (0 < Mpf.value x / Mpf.value y) as Hq
    by (apply Rdiv_lt_0_compat; lra).
  rewrite (Rabs_right (Mpf.value x / Mpf.value y)) in H by lra.
  apply Rabs_le_between in H. lra.
Qed.

Lemma value_pos_man x : 0 < Mpf.value x → Mpf.man x ≠ 0%Z.
Proof. intros H Hm. unfold Mpf.value in H. rewrite Hm in H. lra. Qed.

Lemma truediv_defined prec x y :
  Mpf.man y ≠ 0%Z → ∃ q, Mpf.truediv prec x y = Ok q.
Proof.
  intros Hy. unfold Mpf.truediv.
  destruct (Z.eqb_spec (Mpf.man y) 0); [done|].
  destruct (if _ =? 0 then _ else _)%Z as [quot extra]. by eexists.
Qed.

(** Quotients of positive numbers by one positive number add up to the
    quotient of their sum, to within the fraction [2 * 2^-prec]. *)
Lemma quotients_between prec (S : Mpf.t) (ws cs : list Mpf.t) :
  (0 < prec)%Z → 0 < Mpf.value S →
  Forall2 (fun w c => 0 < Mpf.value w ∧ Mpf.truediv prec w S = Ok c) ws cs →
  (1 - 2 * powerRZ 2 (- prec)) * (Mpf.total ws / Mpf.value S)
  <= Mpf.total cs
  <= (1 + 2 * powerRZ 2 (- prec)) * (Mpf.total ws / Mpf.value S).
Proof.
  intros Hprec HS Hall.
  induction Hall as [|w c ws cs [Hw Hc] _ IH]; cbn [Mpf.total foldr].
  - unfold Rdiv. lra.
  - fold (Mpf.total ws) (Mpf.total cs).
    pose proof (truediv_between prec w S c Hprec Hw HS Hc) as Hq.
    replace ((Mpf.value w + Mpf.total ws) / Mpf.value S)
      with (Mpf.value w / Mpf.value S + Mpf.total ws / Mpf.value S)
      by (field; lra).
    lra.
Qed.

(** The coverages of positive Boltzmann factors [ws], each divided by
    their rounded sum: they are positive, and their exact sum differs from
    1 by no more than the roundings of [length ws] additions and one
    division. *)
Lemma normalised_within_precision prec (ws cs : list Mpf.t) :
  (1 < prec)%Z → ws ≠ [] →
  Forall (fun w => 0 < Mpf.value w) ws →
  Forall2 (fun w c =>
             Mpf.truediv prec w (foldl (Mpf.add prec) Mpf.zero ws) = Ok c)
    ws cs →
  Forall (fun c => 0 < Mpf.value c) cs ∧
  (1 - 2 * powerRZ 2 (- prec)) / (1 + powerRZ 2 (- prec)) ^ length ws
  <= Mpf.total cs
  <= (1 + 2 * powerRZ 2 (- prec)) / (1 - powerRZ 2 (- prec)) ^ length ws.
Proof.
  intros Hprec Hne Hpos Hdiv.
  pose proof (unit_roundoff_quarter prec Hprec) as Hu.
  set (u := powerRZ 2 (- prec)) in *.
  set (S := foldl (Mpf.add prec) Mpf.zero ws) in *.
  pose proof (total_pos ws Hne Hpos) as HT.
  assert (Mpf.value Mpf.zero = 0) as Hzero by (unfold Mpf.value; simpl; lra).
  pose proof (sum_between prec ws ltac:(lia) Hpos Mpf.zero ltac:(lra))
    as Hsum.
  fold S u in Hsum. rewrite Hzero, Rplus_0_l in Hsum.
  assert (0 < (1 - u) ^ length ws) as Hlo by (apply pow_lt; lra).
  assert (0 < (1 + u) ^ length ws) as Hhi by (apply pow_lt; lra).
  assert (0 < Mpf.value S) as HS by nra.
  assert (/ (1 + u) ^ length ws <= Mpf.total ws / Mpf.value S) as Hlow.
  { apply Rmult_le_reg_r with ((1 + u) ^ length ws * Mpf.value S); [nra|].
    field_simplify; [|lra|lra]. lra. }
  assert (Mpf.total ws / Mpf.value S <= / (1 - u) ^ length ws) as Hupp.
  { apply Rmult_le_reg_r with ((1 - u) ^ length ws * Mpf.value S); [nra|].
    field_simplify; [|lra|lra]. lra. }
  clearbody S.
  assert (Forall2 (fun w c => 0 < Mpf.value w ∧ Mpf.truediv prec w S = Ok c)
            ws cs) as Hdiv'.
  { clear -Hpos Hdiv. induction Hdiv as [|w c ws' cs' Hc _ IH];
      [constructor|].
    apply Forall_cons in Hpos as [Hw Hpos].
    constructor; [done | by apply IH]. }
  split.
  - clear -Hdiv' HS Hu Hprec. induction Hdiv' as [|w c ws' cs' [Hw Hc] _ IH];
      constructor; [|done].
    pose proof (truediv_between prec w S c ltac:(lia) Hw HS Hc) as Hq.
    fold u in Hq.
    assert (0 < Mpf.value w / Mpf.value S) by (apply Rdiv_lt_0_compat; lra).
    nra.
  - pose proof (quotients_between prec S ws cs ltac:(lia) HS Hdiv') as Hq.
    fold u in Hq.
    unfold Rdiv in *. split.
    + eapply Rle_trans; [|apply Hq]. apply Rmult_le_compat_l; lra.
    + eapply Rle_trans; [apply Hq|]. apply Rmult_le_compat_l; lra.
Qed.

Lemma sum_pos prec (ws : list Mpf.t) :
  (0 < prec)%Z → ws ≠ [] → Forall (fun w => 0 < Mpf.value w) ws →
  0 < Mpf.value (foldl (Mpf.add prec) Mpf.zero ws).
Proof.
  intros Hprec Hne Hpos.
  pose proof (unit_roundoff_small prec Hprec) as Hu.
  pose proof (total_pos ws Hne Hpos) as HT.
  assert (Mpf.value Mpf.zero = 0) as Hzero by (unfold Mpf.value; simpl; lra).
  pose proof (sum_between prec ws Hprec Hpos Mpf.zero ltac:(lra)) as Hsum.
  rewrite Hzero, Rplus_0_l in Hsum.
  assert (0 < (1 - powerRZ 2 (- prec)) ^ length ws) by (apply pow_lt; lra).
  nra.
Qed.

(** The coverages with rounded numbers.  At a precision of at least two
    bits, for adsorbates that all have an energy, [kB*T] not zero and an
    exponential with positive values, the routine returns one coverage
    per adsorbate, each positive, and their exact sum is 1 to within the
    roundings of one addition per adsorbate and one division. *)
Lemma coverages_within_precision prec (mp_exp : Mpf.t → Mpf.t) kB T
    (E : gmap string Mpf.t) (names : list string) :
  (1 < prec)%Z → names ≠ [] →
  Mpf.man (Mpf.mul prec kB T) ≠ 0%Z →
  (∀ name, name ∈ names → is_Some (E !! name)) →
  (∀ x, 0 < Mpf.value (mp_exp x)) →
  ∃ cvgs,
    Numbers.boltzmann_coverages (Numbers.mpf prec) mp_exp kB T E names
      = Ok cvgs ∧
    length cvgs = length names ∧
    Forall (fun cvg => 0 < Mpf.value cvg) cvgs ∧
    (1 - 2 * powerRZ 2 (- prec)) / (1 + powerRZ 2 (- prec)) ^ length names
    <= Mpf.total cvgs
    <= (1 + 2 * powerRZ 2 (- prec)) / (1 - powerRZ 2 (- prec)) ^ length names.
Proof.
  intros Hprec Hne HkT Hknown Hexp.
  set (q := fun name =>
         match Mpf.truediv prec (Mpf.neg (default Mpf.zero (E !! name)))
                 (Mpf.mul prec kB T) with
         | Py.Ok q => q
         | Py.Raise _ => Mpf.zero
         end).
  assert (∀ name e, E !! name = Some e →
            Mpf.truediv prec (Mpf.neg e) (Mpf.mul prec kB T) = Ok (q name))
    as Hq.
  { intros name e He. unfold q. rewrite He. cbn [from_option Datatypes.id].
    destruct (truediv_defined prec (Mpf.neg e) (Mpf.mul prec kB T) HkT)
      as [x ->]. reflexivity. }
  set (ws := (fun name => mp_exp (q name)) <$> names).
  assert (Forall (fun w => 0 < Mpf.value w) ws) as Hpos.
  { unfold ws. apply Forall_fmap, Forall_forall. intros name _. apply Hexp. }
  assert (ws ≠ []) as Hws by (unfold ws; by destruct names).
  set (S := foldl (Mpf.add prec) Mpf.zero ws).
  pose proof (sum_pos prec ws ltac:(lia) Hws Hpos) as HS. fold S in HS.
  set (c := fun name =>
         match Mpf.truediv prec (mp_exp (q name)) S with
         | Py.Ok c => c
         | Py.Raise _ => Mpf.zero
         end).
  assert (∀ name, Mpf.truediv prec (mp_exp (q name)) S = Ok (c name)) as Hc.
  { intros name. unfold c.
    destruct (truediv_defined prec (mp_exp (q name)) S
                (value_pos_man S HS)) as [x ->]. reflexivity. }
  exists (c <$> names).
  split; [|split; [by rewrite length_fmap|]].
  - unfold Numbers.boltzmann_coverages.
    cbn [Numbers.truediv Numbers.neg Numbers.mul Numbers.mpf].
    change (Numbers.num (Numbers.mpf prec)) with Mpf.t.
    rewrite (for_each_snoc _ (fun name => mp_exp (q name))).
    + cbn [mbind Py.result_bind app]. fold ws.
      change (Numbers.sum (Numbers.mpf prec) ws) with S.
      rewrite (for_each_snoc _ c); [done|].
      intros acc name Hin. destruct (Hknown name Hin) as [e He].
      rewrite (getitem_Some _ _ _ He). cbn [mbind Py.result_bind].
      rewrite (Hq name e He). cbn [mbind Py.result_bind]. by rewrite Hc.
    + intros acc name Hin. destruct (Hknown name Hin) as [e He].
      rewrite (getitem_Some _ _ _ He). cbn [mbind Py.result_bind].
      by rewrite (Hq name e He).
  - replace (length names) with (length ws) by (unfold ws; apply length_fmap).
    apply normalised_within_precision; [done..|].
    unfold ws. apply Forall2_fmap, Forall_Forall2_diag, Forall_forall.
    intros name _. apply Hc.
Qed.

(** For a reaction with an explicit transition state, read with rounded
    numbers: the barriers are the rounded differences of the state
    energies, and their difference is that of the final and the initial
    state to within four units of the precision, relative to the
    barriers. *)
Lemma barrier_identity_within_precision prec split_species
    (E : gmap string Mpf.t) s_IS s_TS s_FS f_barrier r_barrier :
  (0 < prec)%Z →
  Numbers.get_reaction_energies (Numbers.mpf prec) split_species E
    [s_IS; s_TS; s_FS] = Ok (f_barrier, r_barrier) →
  ∃ G_IS G_TS G_FS,
    Numbers.accumulate_state (Numbers.mpf prec) split_species E
      Mpf.zero s_IS = Ok G_IS ∧
    Numbers.accumulate_state (Numbers.mpf prec) split_species E
      Mpf.zero s_TS = Ok G_TS ∧
    Numbers.accumulate_state (Numbers.mpf prec) split_species E
      Mpf.zero s_FS = Ok G_FS ∧
    f_barrier = Mpf.sub prec G_TS G_IS ∧
    r_barrier = Mpf.sub prec G_TS G_FS ∧
    Rabs (Mpf.value (Mpf.sub prec f_barrier r_barrier)
          - Mpf.value (Mpf.sub prec G_FS G_IS))
    <= 4 * powerRZ 2 (- prec)
       * (Rabs (Mpf.value G_TS - Mpf.value G_IS)
          + Rabs (Mpf.value G_TS - Mpf.value G_FS)).
Proof.
  intros Hprec. unfold Numbers.get_reaction_energies.
  change (Py.index [s_IS; s_TS; s_FS] 0) with (Ok (A:=state_t) s_IS).
  change (Py.index [s_IS; s_TS; s_FS] (-1)) with (Ok (A:=state_t) s_FS).
  change (Py.index [s_IS; s_TS; s_FS] 1) with (Ok (A:=state_t) s_TS).
  cbn [mbind Py.result_bind Numbers.zero Numbers.mpf].
  destruct (Numbers.accumulate_state (Numbers.mpf prec) split_species E
              Mpf.zero s_IS) as [G_IS|];
    [|discriminate].
  cbn [mbind Py.result_bind].
  destruct (Numbers.accumulate_state (Numbers.mpf prec) split_species E
              Mpf.zero s_FS) as [G_FS|];
    [|discriminate].
  cbn [mbind Py.result_bind]. cbv zeta.
  rewrite decide_True by reflexivity.
  rewrite decide_False by (simpl; lia).
  cbn [mbind Py.result_bind].
  destruct (Numbers.accumulate_state (Numbers.mpf prec) split_species E
              Mpf.zero s_TS) as [G_TS|];
    [|discriminate].
  cbn [mbind Py.result_bind Numbers.sub Numbers.mpf].
  intros [= <- <-]. exists G_IS, G_TS, G_FS.
  split_and!; try reflexivity.
  by apply barrier_difference_error.
Qed.

(** *** The two identities as claimed, on rounded numbers *)

(** The identity as C1 words it, for the numbers that the solver holds
    at a precision of [prec] bits: the difference of the two barriers is
    the difference of the energies of the final and the initial state. *)
Definition barrier_identity_as_claimed (prec : Z)
    (split_species : string → Z * string) (E : gmap string Mpf.t)
    (rxn : rxn_t) : Prop :=
  ∀ initial final f_barrier r_barrier G_IS G_FS,
    Py.index rxn 0 = Ok initial → Py.index rxn (-1) = Ok final →
    Numbers.get_reaction_energies (Numbers.mpf prec) split_species E rxn
      = Ok (f_barrier, r_barrier) →
    Numbers.accumulate_state (Numbers.mpf prec) split_species E
      Mpf.zero initial = Ok G_IS →
    Numbers.accumulate_state (Numbers.mpf prec) split_species E
      Mpf.zero final = Ok G_FS →
    Mpf.sub prec f_barrier r_barrier = Mpf.sub prec G_FS G_IS.

(** The sum as C10 words it: the coverages returned add up to the
    number 1. *)
Definition coverages_sum_as_claimed (prec : Z) (mp_exp : Mpf.t → Mpf.t)
    (kB T : Mpf.t) (E : gmap string Mpf.t) (adsorbate_names : list string)
  : Prop :=
  ∀ cvgs,
    Numbers.boltzmann_coverages (Numbers.mpf prec) mp_exp kB T E
      adsorbate_names = Ok cvgs →
    Numbers.sum (Numbers.mpf prec) cvgs = Mpf.one.

(** ** The Newton iterator ([NewtonRoot]) *)

(** [NewtonRoot] receives its arithmetic from the caller ([mpfloat],
  [matrix], [norm], [Axb_solver]), so the embedding is over any scalar
  type [num] with a decidable equality; tuples and column vectors are
  lists of [num]. *)

Inductive constraint_kind : Type := quasi | real.

Section NewtonRoot.

Context {num jac dtheta : Type} `{!EqDecision num}.

(** Scalar operations of the backend and [scipy.optimize.golden]. *)
Variables (num_add num_mul : num -> num -> num) (num_neg : num -> num).
Variable golden : (num -> num) -> num.

(** The attributes set by [NewtonRoot.__init__];
    [dtheta_dt_expressions] exists only when the keyword was passed. *)
Record NewtonRoot : Type := {
  f : list num -> list num;
  J : dtheta -> list num -> jac;
  x0 : list num;
  real_constraint : list num -> list num;
  _norm : list num -> num;
  _Axb_solver : jac -> list num -> result (list num);
  dtheta_dt_expressions : option dtheta
}.

Definition quasi_constraint (x : list num) : list num := x.

Definition apply_constraint (self : NewtonRoot) (k : constraint_kind)
  : list num -> list num :=
  match k with
  | quasi => quasi_constraint
  | real => real_constraint self
  end.

(** [self._matrix(x0) + l*s], converted back by [vec2tup]. *)
Definition stepped (x0 : list num) (l : num) (s : list num) : list num :=
  zip_with (fun a b => num_add a (num_mul l b)) x0 s.

(** The local variables of [__iter__] that live across a [yield], and
    the attribute [self.constraint]. *)
Record frame : Type := {
  iter_counter : nat;
  loc_x0 : list num;
  loc_fx : list num;
  loc_fxnorm : num;
  cancel : bool;
  self_constraint : option constraint_kind
}.

Inductive generator : Type :=
| Created (self : NewtonRoot)
| Suspended (self : NewtonRoot) (fr : frame)
| Finished.

(** What one [next()] gives the caller. *)
Inductive outcome : Type :=
| Yielded (x : list num) (fxnorm : num) (fx : list num)
| StopIteration
| Raised (e : Py.exn).

(** The code of [__iter__] before the loop. *)
Definition enter (self : NewtonRoot) : frame :=
  let x0 := quasi_constraint (x0 self) in
  let fx := f self x0 in
  {| iter_counter := 0; loc_x0 := x0; loc_fx := fx;
     loc_fxnorm := _norm self fx; cancel := false;
     self_constraint := None |}.

(** From the loop head to the next [yield], [break] or exception; the
    first component is what was printed.  Only [ZeroDivisionError] is
    caught around the solve, any other exception of the solver goes to the
    caller; so does the one that adding column vectors of different sizes
    raises in [x0 + l*s]. *)
Definition loop (self : NewtonRoot) (fr : frame)
  : list string * outcome * generator :=
  if cancel fr then ([], StopIteration, Finished)
  else
    let iter_counter := S (iter_counter fr) in
    let kind := if decide (iter_counter <= 5)%nat then quasi else real in
    let x0 := loc_x0 fr in
    let fx := f self x0 in
    let fxn := num_neg <$> fx in
    match dtheta_dt_expressions self with
    | None =>
        ([], Raised (Py.AttributeError "dtheta_dt_expressions"), Finished)
    | Some exprs =>
        let Jx := J self exprs x0 in
        match _Axb_solver self Jx fxn with
        | Raise Py.ZeroDivisionError =>
            (["ZeroDivisionError!"%string], StopIteration, Finished)
        | Raise e => ([], Raised e, Finished)
        | Ok s =>
            if decide (length s = length x0) then
              let fl l := _norm self (f self (stepped x0 l s)) in
              let l := golden fl in
              let x1 := stepped x0 l s in
              let x1 := apply_constraint self kind x1 in
              let stationary := bool_decide (x1 = x0) in
              let printed :=
                if stationary
                then ["Solver: Found stationary point."%string] else [] in
              let fx := f self x1 in
              let fxnorm := _norm self fx in
              (printed, Yielded x1 fxnorm fx,
               Suspended self
                 {| iter_counter := iter_counter; loc_x0 := x1;
                    loc_fx := fx; loc_fxnorm := fxnorm;
                    cancel := stationary;
                    self_constraint := Some kind |})
            else
              ([], Raised (Py.ValueError "incompatible dimensions"),
               Finished)
        end
    end.

(** [next(g)] on the generator that [iter(newton)] returned. *)
Definition next (g : generator) : list string * outcome * generator :=
  match g with
  | Created self => loop self (enter self)
  | Suspended self fr => loop self fr
  | Finished => ([], StopIteration, Finished)
  end.

(** A caller that pulls at most [n] elements: the triples it received,
    and how the last pull ended when it was not a [yield]. *)
Fixpoint pull (n : nat) (g : generator)
  : list (list num * num * list num) * option outcome * generator :=
  match n with
  | O => ([], None, g)
  | S n' =>
      match next g with
      | (_, Yielded x fxnorm fx, g') =>
          let '(items, ending, g'') := pull n' g' in
          ((x, fxnorm, fx) :: items, ending, g'')
      | (_, ending, g') => ([], Some ending, g')
      end
  end.

(** *** Reference definitions *)

(** The linear solve of one iteration at the point [x]: [J(x) s = -f(x)]. *)
Definition newton_solve (self : NewtonRoot) (x : list num)
  : option (result (list num)) :=
  exprs ← dtheta_dt_expressions self;
  Some (_Axb_solver self (J self exprs x) (num_neg <$> f self x)).

(** The step length that the golden-section search picks along [s]. *)
Definition step_length (self : NewtonRoot) (x s : list num) : num :=
  golden (fun l => _norm self (f self (stepped x l s))).

(** The constraint in force during iteration [k], counted from 1. *)
Definition constraint_at (k : nat) : constraint_kind :=
  if decide (k <= 5)%nat then quasi else real.

(** The point that iteration [k] moves to from [x] along [s]. *)
Definition newton_point (self : NewtonRoot) (k : nat) (x s : list num)
  : list num :=
  apply_constraint self (constraint_at k)
    (stepped x (step_length self x s) s).

(** The point after [n] further iterations from [x], the last finished
    iteration being number [k]; [None] when a solve on the way does not
    return a direction of the right size. *)
Fixpoint orbit (self : NewtonRoot) (k : nat) (x : list num) (n : nat)
  : option (list num) :=
  match n with
  | O => Some x
  | S n' =>
      match newton_solve self x with
      | Some (Ok s) =>
          if decide (length s = length x)
          then orbit self (S k) (newton_point self (S k) x s) n'
          else None
      | _ => None
      end
  end.

(** The triple handed out for a point. *)
Definition triple (self : NewtonRoot) (x : list num)
  : list num * num * list num :=
  (x, _norm self (f self x), f self x).

(** The frame a generator resumes from. *)
Definition frame_of (g : generator) : option (NewtonRoot * frame) :=
  match g with
  | Created self => Some (self, enter self)
  | Suspended self fr => Some (self, fr)
  | Finished => None
  end.

(** What a caller can tell apart: an exception reached it. *)
Definition reports_error (r : list string * outcome * generator) : Prop :=
  ∃ e, r.1.2 = Raised e.

(** *** Facts about one pull *)

Lemma next_frame_of g self fr :
  frame_of g = Some (self, fr) → next g = loop self fr.
Proof. destruct g; simpl; intros [= <- <-]; reflexivity. Qed.

(** A live frame whose solve returns a direction of the right size yields
    the triple of the new point and stays suspended. *)
Lemma loop_yields self fr s :
  cancel fr = false →
  newton_solve self (loc_x0 fr) = Some (Ok s) →
  length s = length (loc_x0 fr) →
  let k := S (iter_counter fr) in
  let x1 := newton_point self k (loc_x0 fr) s in
  loop self fr =
    (if bool_decide (x1 = loc_x0 fr)
     then ["Solver: Found stationary point."%string] else [],
     Yielded x1 (_norm self (f self x1)) (f self x1),
     Suspended self
       {| iter_counter := k; loc_x0 := x1; loc_fx := f self x1;
          loc_fxnorm := _norm self (f self x1);
          cancel := bool_decide (x1 = loc_x0 fr);
          self_constraint := Some (constraint_at k) |}).
Proof.
  intros Hlive Hsolve Hlen k x1. unfold loop. rewrite Hlive.
  unfold newton_solve in Hsolve.
  destruct (dtheta_dt_expressions self) as [exprs|]; [|discriminate].
  simpl in Hsolve. injection Hsolve as ->.
  rewrite decide_True by done. reflexivity.
Qed.

(** A frame whose [cancel] flag is set ends the sequence. *)
Lemma loop_cancelled self fr :
  cancel fr = true → loop self fr = ([], StopIteration, Finished).
Proof. intros H. unfold loop. by rewrite H. Qed.

(** A singular solve ends the sequence as well, after a message. *)
Lemma loop_singular self fr :
  cancel fr = false →
  newton_solve self (loc_x0 fr) = Some (Raise Py.ZeroDivisionError) →
  loop self fr = (["ZeroDivisionError!"%string], StopIteration, Finished).
Proof.
  intros Hlive Hsolve. unfold loop. rewrite Hlive.
  unfold newton_solve in Hsolve.
  destruct (dtheta_dt_expressions self) as [exprs|]; [|discriminate].
  simpl in Hsolve. injection Hsolve as ->. reflexivity.
Qed.

Lemma orbit_S_inv self k x n y :
  orbit self k x (S n) = Some y →
  ∃ s, newton_solve self x = Some (Ok s) ∧ length s = length x ∧
       orbit self (S k) (newton_point self (S k) x s) n = Some y.
Proof.
  simpl. destruct (newton_solve self x) as [[s|e]|]; try discriminate.
  case_decide; [|discriminate]. eauto.
Qed.

(** As long as no iteration is stationary, every pull yields: after [n]
    pulls the caller holds the [n] triples of the orbit and the iterator is
    still live, whatever [n] and whatever the residuals. *)
Lemma pull_live self n : ∀ g fr,
  frame_of g = Some (self, fr) →
  cancel fr = false →
  (∀ m, (m < n)%nat → ∃ x x',
     orbit self (iter_counter fr) (loc_x0 fr) m = Some x ∧
     orbit self (iter_counter fr) (loc_x0 fr) (S m) = Some x' ∧ x' ≠ x) →
  ∃ items g' fr',
    pull n g = (items, None, g') ∧ frame_of g' = Some (self, fr') ∧
    length items = n ∧ cancel fr' = false ∧
    iter_counter fr' = (iter_counter fr + n)%nat ∧
    orbit self (iter_counter fr) (loc_x0 fr) n = Some (loc_x0 fr') ∧
    ∀ i, (i < n)%nat → ∃ x,
      orbit self (iter_counter fr) (loc_x0 fr) (S i) = Some x ∧
      items !! i = Some (triple self x).
Proof.
  induction n as [|n IH]; intros g fr Hg Hlive Horbit.
  - exists [], g, fr. simpl.
    split_and!; first [done | lia | intros i Hi; lia].
  - destruct (Horbit 0%nat) as (x & x' & Hx & Hx' & Hne); [lia|].
    simpl in Hx. injection Hx as <-.
    destruct (orbit_S_inv _ _ _ _ _ Hx') as (s & Hsolve & Hlen & Hx1).
    simpl in Hx1. injection Hx1 as Hx1.
    pose proof (loop_yields self fr s Hlive Hsolve Hlen) as Hloop.
    cbv zeta in Hloop. rewrite Hx1 in Hloop.
    rewrite bool_decide_eq_false_2 in Hloop by done.
    set (fr1 := {| iter_counter := S (iter_counter fr); loc_x0 := x';
                   loc_fx := f self x';
                   loc_fxnorm := _norm self (f self x'); cancel := false;
                   self_constraint :=
                     Some (constraint_at (S (iter_counter fr))) |}) in *.
    assert (∀ m, orbit self (iter_counter fr) (loc_x0 fr) (S m)
                 = orbit self (iter_counter fr1) (loc_x0 fr1) m) as Hshift.
    { intros m. simpl. rewrite Hsolve, decide_True by done.
      by rewrite Hx1. }
    destruct (IH (Suspended self fr1) fr1)
      as (items & g' & fr' & Hpull & Hg' & Hn & Hlive' & Hk & Hend & Hitems).
    { reflexivity. }
    { reflexivity. }
    { intros m Hm. destruct (Horbit (S m)) as (y & y' & Hy & Hy' & Hneq);
        [lia|]. exists y, y'. by rewrite <- !Hshift. }
    exists (triple self x' :: items), g', fr'.
    cbn [pull]. rewrite (next_frame_of _ _ _ Hg), Hloop, Hpull.
    split_and!; try done.
    + simpl. by rewrite Hn.
    + rewrite Hk. simpl. lia.
    + by rewrite Hshift.
    + intros [|i] Hi.
      * exists x'. by rewrite Hx'.
      * destruct (Hitems i) as (y & Hy & Hi'); [lia|].
        exists y. by rewrite Hshift.
Qed.

(** The last of [n+1] iterations starts from the point reached after [n]. *)
Lemma orbit_last_step self n : ∀ k x y z,
  orbit self k x n = Some y → orbit self k x (S n) = Some z →
  ∃ s, newton_solve self y = Some (Ok s) ∧ length s = length y ∧
       newton_point self (S (k + n)) y s = z.
Proof.
  induction n as [|n IH]; intros k x y z Hy Hz.
  - simpl in Hy. injection Hy as ->.
    destruct (orbit_S_inv _ _ _ _ _ Hz) as (s & Hs & Hl & Hz').
    simpl in Hz'. injection Hz' as Hz'.
    exists s. by rewrite Nat.add_0_r.
  - destruct (orbit_S_inv _ _ _ _ _ Hy) as (s1 & Hs1 & Hl1 & Hy').
    destruct (orbit_S_inv _ _ _ _ _ Hz) as (s2 & Hs2 & Hl2 & Hz').
    rewrite Hs1 in Hs2. injection Hs2 as <-.
    destruct (IH (S k) _ y z Hy' Hz') as (s & Hs & Hl & Hp).
    exists s. replace (S (k + S n)) with (S (S k + n)) by lia. done.
Qed.

Lemma pull_add n m : ∀ g items g',
  pull n g = (items, None, g') →
  pull (n + m) g =
    (let '(items', ending, g'') := pull m g' in
     (items ++ items', ending, g'')).
Proof.
  induction n as [|n IH]; intros g items g'; simpl.
  - intros [= <- <-]. by destruct (pull m g) as [[? ?] ?].
  - destruct (next g) as [[printed [x fxnorm fx| |e]] g1]; try discriminate.
    destruct (pull n g1) as [[items1 ending1] g2] eqn:Hpull.
    intros [= <- -> <-]. rewrite (IH _ _ _ Hpull).
    by destruct (pull m g2) as [[? ?] ?].
Qed.

(** *** Claims on the iteration *)

(** C3.  While no iteration leaves the point where it was and every solve
    succeeds, each pull yields the triple (point, residual norm, residual
    vector) of the next point of the orbit and the iterator stays live: this
    holds for every number [n] of pulls and involves no test on the
    residual.  When iteration [n+1] then returns the point it started from,
    that point is still yielded, as element [n+1], and the following pull
    ends the sequence. *)
Theorem newton_sequence_termination self n :
  (∀ m, (m < n)%nat → ∃ x x',
     orbit self 0 (x0 self) m = Some x ∧
     orbit self 0 (x0 self) (S m) = Some x' ∧ x' ≠ x) →
  (∃ items g fr,
     pull n (Created self) = (items, None, g) ∧
     frame_of g = Some (self, fr) ∧ cancel fr = false ∧
     length items = n ∧
     ∀ i, (i < n)%nat → ∃ x,
       orbit self 0 (x0 self) (S i) = Some x ∧
       items !! i = Some (x, _norm self (f self x), f self x)) ∧
  (∀ x, orbit self 0 (x0 self) n = Some x →
        orbit self 0 (x0 self) (S n) = Some x →
     ∃ items,
       length items = n ∧
       pull (S n) (Created self)
         = (items ++ [(x, _norm self (f self x), f self x)], None,
            Suspended self
              {| iter_counter := S n; loc_x0 := x; loc_fx := f self x;
                 loc_fxnorm := _norm self (f self x); cancel := true;
                 self_constraint := Some (constraint_at (S n)) |}) ∧
       pull (S (S n)) (Created self)
         = (items ++ [(x, _norm self (f self x), f self x)],
            Some StopIteration, Finished)).
Proof.
  intros Horbit.
  destruct (pull_live self n (Created self) (enter self))
    as (items & g & fr & Hpull & Hg & Hn & Hlive & Hk & Hend & Hitems);
    [done..|].
  cbn [enter iter_counter loc_x0] in Hk, Hend, Hitems.
  rewrite Nat.add_0_l in Hk. unfold quasi_constraint in Hend, Hitems.
  split.
  - exists items, g, fr. split_and!; done.
  - intros x Hx Hx'. rewrite Hend in Hx. injection Hx as Hx.
    (* the step from the frame reached after [n] pulls *)
    destruct (orbit_last_step self n 0 (x0 self) x x)
      as (s & Hsolve & Hlen & Hfix); [by rewrite Hend, Hx | done |].
    simpl in Hfix.
    exists items. split; [done|].
    assert (next g =
      (["Solver: Found stationary point."%string],
       Yielded x (_norm self (f self x)) (f self x),
       Suspended self
         {| iter_counter := S n; loc_x0 := x; loc_fx := f self x;
            loc_fxnorm := _norm self (f self x); cancel := true;
            self_constraint := Some (constraint_at (S n)) |})) as Hnext.
    { rewrite (next_frame_of _ _ _ Hg).
      pose proof (loop_yields self fr s Hlive) as Hloop.
      rewrite Hx, Hk in Hloop. cbv zeta in Hloop.
      rewrite Hfix in Hloop.
      rewrite bool_decide_eq_true_2 in Hloop by done.
      by apply Hloop. }
    split.
    + rewrite <- (Nat.add_1_r n) at 1.
      rewrite (pull_add _ _ _ _ _ Hpull). cbn [pull]. rewrite Hnext.
      reflexivity.
    + replace (S (S n)) with (n + 2)%nat by lia.
      rewrite (pull_add _ _ _ _ _ Hpull). cbn [pull]. rewrite Hnext.
      cbn [next]. rewrite loop_cancelled by done. reflexivity.
Qed.

(** C4.  The initial guess goes through the identity; and when [n]
    elements have been yielded without a stationary point, the pull of
    element [n+1] (with a successful solve [s] at the current point [x])
    yields the stepped point [x + l*s] itself while [n+1 <= 5], and the real
    constraint applied to the stepped point from [n+1 = 6] on. *)
Theorem constraint_schedule self n x s :
  (∀ m, (m < n)%nat → ∃ y y',
     orbit self 0 (x0 self) m = Some y ∧
     orbit self 0 (x0 self) (S m) = Some y' ∧ y' ≠ y) →
  orbit self 0 (x0 self) n = Some x →
  newton_solve self x = Some (Ok s) →
  length s = length x →
  loc_x0 (enter self) = x0 self ∧
  ∃ items g printed x1 fr',
    pull n (Created self) = (items, None, g) ∧ length items = n ∧
    next g = (printed, Yielded x1 (_norm self (f self x1)) (f self x1),
              Suspended self fr') ∧
    x1 = (if decide (S n <= 5)%nat
          then stepped x (step_length self x s) s
          else real_constraint self (stepped x (step_length self x s) s)) ∧
    self_constraint fr' = Some (if decide (S n <= 5)%nat then quasi else real).
Proof.
  intros Horbit Hx Hsolve Hlen. split; [reflexivity|].
  destruct (pull_live self n (Created self) (enter self))
    as (items & g & fr & Hpull & Hg & Hn & Hlive & Hk & Hend & _);
    [done..|].
  cbn [enter iter_counter loc_x0] in Hk, Hend.
  rewrite Nat.add_0_l in Hk. unfold quasi_constraint in Hend.
  rewrite Hx in Hend. injection Hend as Hend.
  pose proof (loop_yields self fr s Hlive) as Hloop.
  rewrite <- Hend, Hk in Hloop. specialize (Hloop Hsolve Hlen).
  cbv zeta in Hloop.
  exists items, g. do 3 eexists.
  split; [done|]. split; [done|].
  split; [rewrite (next_frame_of _ _ _ Hg); exact Hloop|].
  unfold newton_point, constraint_at, apply_constraint, quasi_constraint.
  cbn [self_constraint].
  destruct (decide (S n <= 5)%nat); split; reflexivity.
Qed.

(** C5, amended.  A pull whose linear solve raises [ZeroDivisionError]
    prints ["ZeroDivisionError!"] and ends the sequence: the caller gets
    [StopIteration] as at any other end of the sequence, no exception and
    no further element, and the iterator is finished, so the solve is not
    tried again. *)
Theorem singular_solve_ends_sequence g self fr :
  frame_of g = Some (self, fr) →
  cancel fr = false →
  newton_solve self (loc_x0 fr) = Some (Raise Py.ZeroDivisionError) →
  next g = (["ZeroDivisionError!"%string], StopIteration, Finished) ∧
  ¬ reports_error (next g) ∧
  next Finished = ([], StopIteration, Finished).
Proof.
  intros Hg Hlive Hsolve.
  rewrite (next_frame_of _ _ _ Hg), (loop_singular _ _ Hlive Hsolve).
  split_and!; [done| |done].
  intros [e He]. discriminate.
Qed.

(** *** Further facts about one pull *)

(** X27.  Every element that the iterator yields is a consistent triple:
    the residual vector is [f] at the yielded point and the norm is the
    norm of that vector.  The iterator is then suspended at that point with
    its counter advanced by one, and it is flagged to stop, and the
    message of the stationary point is printed, exactly when the yielded
    point equals the point the iteration started from. *)
Theorem yielded_triple_consistent g self fr printed x fxnorm fx g' :
  frame_of g = Some (self, fr) →
  next g = (printed, Yielded x fxnorm fx, g') →
  fx = f self x ∧ fxnorm = _norm self fx ∧
  ∃ fr',
    g' = Suspended self fr' ∧ loc_x0 fr' = x ∧
    iter_counter fr' = S (iter_counter fr) ∧
    cancel fr' = bool_decide (x = loc_x0 fr) ∧
    printed = (if bool_decide (x = loc_x0 fr)
               then ["Solver: Found stationary point."%string] else []).
Proof.
  intros Hg. rewrite (next_frame_of _ _ _ Hg). unfold loop.
  destruct (cancel fr); [discriminate|].
  destruct (dtheta_dt_expressions self) as [exprs|]; [|discriminate].
  destruct (_Axb_solver self _ _) as [s|e].
  - case_decide; [|discriminate].
    cbv zeta. intros [= <- <- <- <- <-].
    split; [done|]. split; [done|]. eexists. split_and!; reflexivity.
  - destruct e; discriminate.
Qed.

(** X28.  Only the zero division is caught around the linear solve: any
    other exception of the solver, and the [AttributeError] of a
    [NewtonRoot] built without [dtheta_dt_expressions], reaches the caller
    of [next], nothing is printed, and the iterator is finished. *)
Theorem other_exceptions_reach_the_caller g self fr e :
  frame_of g = Some (self, fr) →
  cancel fr = false →
  (newton_solve self (loc_x0 fr) = Some (Raise e)
   ∧ e ≠ Py.ZeroDivisionError) ∨
  (newton_solve self (loc_x0 fr) = None
   ∧ e = Py.AttributeError "dtheta_dt_expressions") →
  next g = ([], Raised e, Finished) ∧
  reports_error (next g) ∧
  ∀ n, pull (S n) g = ([], Some (Raised e), Finished).
Proof.
  intros Hg Hlive Hsolve.
  assert (next g = ([], Raised e, Finished)) as Hnext.
  { rewrite (next_frame_of _ _ _ Hg). unfold loop. rewrite Hlive.
    unfold newton_solve in Hsolve.
    destruct (dtheta_dt_expressions self) as [exprs|]; simpl in Hsolve.
    - destruct Hsolve as [[[= ->] Hne]|[[=] _]].
      by destruct e.
    - destruct Hsolve as [[[=] _]|[_ ->]]. reflexivity. }
  split; [exact Hnext|]. split.
  - rewrite Hnext. by exists e.
  - intros n. cbn [pull]. by rewrite Hnext.
Qed.

Lemma stepped_zero_direction (zero : num) (x s : list num) (l : num) :
  (∀ a, num_add a (num_mul l zero) = a) →
  length s = length x → Forall (fun c => c = zero) s →
  stepped x l s = x.
Proof.
  intros Hzero Hlen Hs. unfold stepped. revert s Hlen Hs.
  induction x as [|a x IH]; intros [|b s] Hlen Hs; try discriminate; [done|].
  apply Forall_cons in Hs as [-> Hs]. cbn [zip_with].
  rewrite Hzero, IH; [done | by injection Hlen | done].
Qed.

(** X29.  A zero direction ends the iteration.  When the linear solve
    returns the zero vector, as it does at a root where the Jacobian is
    regular, and adding a multiple of zero changes nothing, the iteration
    stays where it is (provided the constraint in force, the identity
    during the first five iterations, keeps the point): the point is
    yielded once more with the message of the stationary point, and the
    next pull ends the sequence. *)
Theorem zero_direction_is_stationary g self fr s (zero : num) :
  (∀ a l, num_add a (num_mul l zero) = a) →
  frame_of g = Some (self, fr) →
  cancel fr = false →
  newton_solve self (loc_x0 fr) = Some (Ok s) →
  length s = length (loc_x0 fr) → Forall (fun c => c = zero) s →
  (S (iter_counter fr) <= 5)%nat ∨
    real_constraint self (loc_x0 fr) = loc_x0 fr →
  ∃ g',
    next g = (["Solver: Found stationary point."%string],
              Yielded (loc_x0 fr) (_norm self (f self (loc_x0 fr)))
                (f self (loc_x0 fr)), g') ∧
    next g' = ([], StopIteration, Finished).
Proof.
  intros Hzero Hg Hlive Hsolve Hlen Hs Hconstraint.
  pose proof (loop_yields self fr s Hlive Hsolve Hlen) as Hloop.
  cbv zeta in Hloop.
  assert (newton_point self (S (iter_counter fr)) (loc_x0 fr) s = loc_x0 fr)
    as Hfix.
  { unfold newton_point.
    rewrite (stepped_zero_direction zero) by done.
    unfold apply_constraint, constraint_at, quasi_constraint.
    destruct (decide (S (iter_counter fr) <= 5)%nat) as [Hle|Hgt];
      [reflexivity|].
    destruct Hconstraint as [Hle|Hreal]; [lia | exact Hreal]. }
  rewrite Hfix in Hloop.
  rewrite bool_decide_eq_true_2 in Hloop by done.
  eexists. split.
  - rewrite (next_frame_of _ _ _ Hg). exact Hloop.
  - cbn [next]. by rewrite loop_cancelled.
Qed.

End NewtonRoot.

(** ** Worked instances *)

(** Decimal digits in front of a string, read as a number. *)
Definition is_digit (c : ascii) : bool :=
  let n := nat_of_ascii c in (48 <=? n)%nat && (n <=? 57)%nat.

Fixpoint leading_digits (acc : option Z) (s : string) : option Z * string :=
  match s with
  | String c rest =>
      if is_digit c
      then leading_digits
             (Some (10 * default 0%Z acc + Z.of_nat (nat_of_ascii c - 48))%Z)
             rest
      else (acc, s)
  | EmptyString => (acc, s)
  end.

(** Modelled from the spec: [split_species] itself is not in this file;
    section 4.1 and the examples of the source (["3H2_g"], ["6*_s"]) give a
    term as an optional decimal coefficient followed by the species name,
    the coefficient being 1 when it is not written. *)
Definition split_species_digits (sp : string) : Z * string :=
  let '(coefficient, name) := leading_digits None sp in
  (default 1%Z coefficient, name).

Example split_coefficient :
  split_species_digits "3H2_g" = (3%Z, "H2_g"%string).
Proof. reflexivity. Qed.

Example split_site : split_species_digits "6*_s" = (6%Z, "*_s"%string).
Proof. reflexivity. Qed.

Example split_plain : split_species_digits "CO_s" = (1%Z, "CO_s"%string).
Proof. reflexivity. Qed.

(** A small network: the adsorption [CO_g + *_s -> CO_s] of the
    specification's example (free energies 0, 0 and -1.5), and the step
    [HCOOH_s + *_s -> HCO-OH_s + *_s -> HCO_s + OH_s] of the source's
    docstrings, which has an explicit transition state.  [kB], [T] and [h]
    are 1. *)
Definition a_species (kind : string) (energy : R) : species_def :=
  {| sp_type := kind; sp_site := Some "s"%string; sp_pressure := Some 1;
     sp_formation_energy := Some energy; sp_frequencies := Some [];
     sp_total := Some 1 |}.

Definition co_adsorption : rxn_t :=
  [["CO_g"; "*_s"]; ["CO_s"]]%string.

Definition hcooh_scission : rxn_t :=
  [["HCOOH_s"; "*_s"]; ["HCO-OH_s"; "*_s"]; ["HCO_s"; "OH_s"]]%string.

Definition demo_owner : owner :=
  {| elementary_rxns_list := [co_adsorption; hcooh_scission];
     adsorbate_names := ["CO_s"; "HCOOH_s"; "HCO_s"; "OH_s"]%string;
     transition_state_names := ["HCO-OH_s"]%string;
     site_names := ["s"]%string;
     gas_names := ["CO_g"]%string;
     hasdata := true;
     species_definitions :=
       [("CO_g", a_species "gas" 0); ("s", a_species "site" 0);
        ("CO_s", a_species "adsorbate" (-3/2));
        ("HCOOH_s", a_species "adsorbate" 0);
        ("HCO-OH_s", a_species "transition_state" 1);
        ("HCO_s", a_species "adsorbate" (-1/2));
        ("OH_s", a_species "adsorbate" 0)]%string;
     _kB := 1; _h := 1; temperature := 1;
     gas_matrix := [[1]; [0]] |}.

Definition demo_E : gmap string R :=
  <["CO_g" := 0]> (<["*_s" := 0]> (<["CO_s" := -3/2]> (<["HCOOH_s" := 0]>
  (<["HCO-OH_s" := 1]> (<["HCO_s" := -1/2]> (<["OH_s" := 0]> ∅))))))%string.

Definition demo_solver : solver :=
  {| E := demo_E; p := {["CO_g"%string := 1]}; has_data := true;
     has_symbols := true;
     sp_list := ["CO_g"; "*_s"; "CO_s"; "HCOOH_s"; "HCO-OH_s"; "HCO_s";
                 "OH_s"]%string;
     rate_expressions := None;
     initial_guess := Some [1/4; 1/4; 1/4; 1/4];
     state_energy_dict := None; attrs := ∅; archive := [] |}.

(** Membership in a list that is written out. *)
Ltac list_cases :=
  repeat match goal with
    | H : list_elem_of ?x ?l |- _ => change (x ∈ l) in H
    | H : _ ∈ [] |- _ => by apply elem_of_nil in H
    | H : _ ∈ _ :: _ |- _ => apply elem_of_cons in H as [->|H]
    end.

Lemma demo_network_elementary :
  Forall elementary (elementary_rxns_list demo_owner).
Proof.
  repeat apply Forall_cons_2; [by left | by right | apply Forall_nil_2].
Qed.

Lemma demo_network_known rxn :
  rxn ∈ elementary_rxns_list demo_owner →
  elementary rxn ∧ energies_known split_species_digits (E demo_solver) rxn.
Proof.
  intros Hin. simpl in Hin. list_cases.
  - split; [by left|]. intros state name Hs Hn.
    unfold co_adsorption in Hs. list_cases; vm_compute in Hn; list_cases;
      eexists; vm_compute; reflexivity.
  - split; [by right|]. intros state name Hs Hn.
    unfold hcooh_scission in Hs. list_cases; vm_compute in Hn; list_cases;
      eexists; vm_compute; reflexivity.
Qed.

Lemma demo_constants :
  _h demo_owner ≠ 0 ∧ _kB demo_owner * temperature demo_owner ≠ 0.
Proof. simpl. split; lra. Qed.




(** C1 at the demonstration network: both reactions get their pair of
    rate constants. *)
Lemma eyring_rate_constants_witness :
  ∃ kfs krs s',
    get_rate_constants split_species_digits demo_owner demo_solver
      = (Ok (kfs, krs), s') ∧
    E s' = demo_E ∧ length kfs = 2%nat ∧ length krs = 2%nat.
Proof.
  destruct (eyring_rate_constants split_species_digits demo_owner demo_solver)
    as (kfs & krs & s' & Hrun & HE & Hf & Hr & _).
  - apply demo_constants.
  - apply demo_constants.
  - apply demo_network_known.
  - exists kfs, krs, s'. split_and!; done.
Defined.

(** The identity of C1 with rounded numbers, at the default precision of
    53 bits: an isomerisation [A_s -> A-B_s -> B_s] whose three energies
    are the doubles nearest to 0.1, 0.7 and 0.3. *)
Definition tenth : Mpf.t := Mpf.mk 3602879701896397 (-55).
Definition seven_tenths : Mpf.t := Mpf.mk 3152519739159347 (-52).
Definition three_tenths : Mpf.t := Mpf.mk 5404319552844595 (-54).

Example doubles_of_tenths :
  Mpf.truediv 53 (Mpf.of_Z 53 1) (Mpf.of_Z 53 10) = Ok tenth ∧
  Mpf.truediv 53 (Mpf.of_Z 53 7) (Mpf.of_Z 53 10) = Ok seven_tenths ∧
  Mpf.truediv 53 (Mpf.of_Z 53 3) (Mpf.of_Z 53 10) = Ok three_tenths.
Proof. vm_compute. done. Qed.

Definition isomerisation : rxn_t := [["A_s"]; ["A-B_s"]; ["B_s"]]%string.

Definition isomerisation_E : gmap string Mpf.t :=
  <["A_s" := tenth]> (<["A-B_s" := seven_tenths]>
  (<["B_s" := three_tenths]> ∅))%string.

(** C1 as claimed fails there: the barriers are 0.6 and
    0.39999999999999997 and differ by 0.2, while the energies of the final
    and the initial state differ by 0.19999999999999998.  The two
    differences are different numbers also when they are taken without
    rounding, as they are with 200 bits. *)
Lemma barrier_identity_counterexample :
  ∃ f_barrier r_barrier,
    Numbers.get_reaction_energies (Numbers.mpf 53) split_species_digits
      isomerisation_E isomerisation = Ok (f_barrier, r_barrier) ∧
    Numbers.accumulate_state (Numbers.mpf 53) split_species_digits
      isomerisation_E Mpf.zero ["A_s"%string] = Ok tenth ∧
    Numbers.accumulate_state (Numbers.mpf 53) split_species_digits
      isomerisation_E Mpf.zero ["B_s"%string] = Ok three_tenths ∧
    f_barrier = Mpf.mk 5404319552844595 (-53) ∧
    r_barrier = Mpf.mk 7205759403792793 (-54) ∧
    Mpf.sub 53 f_barrier r_barrier = Mpf.mk 3602879701896397 (-54) ∧
    Mpf.sub 53 three_tenths tenth = Mpf.mk 7205759403792793 (-55) ∧
    Mpf.sub 200 f_barrier r_barrier ≠ Mpf.sub 200 three_tenths tenth ∧
    ¬ barrier_identity_as_claimed 53 split_species_digits
        isomerisation_E isomerisation.
Proof.
  exists (Mpf.mk 5404319552844595 (-53)), (Mpf.mk 7205759403792793 (-54)).
  assert (Numbers.get_reaction_energies (Numbers.mpf 53)
            split_species_digits isomerisation_E isomerisation
          = Ok (Mpf.mk 5404319552844595 (-53),
                Mpf.mk 7205759403792793 (-54))) as Hrun
    by (vm_compute; reflexivity).
  assert (Numbers.accumulate_state (Numbers.mpf 53) split_species_digits
            isomerisation_E Mpf.zero ["A_s"%string] = Ok tenth) as HIS
    by (vm_compute; reflexivity).
  assert (Numbers.accumulate_state (Numbers.mpf 53) split_species_digits
            isomerisation_E Mpf.zero ["B_s"%string] = Ok three_tenths) as HFS
    by (vm_compute; reflexivity).
  split; [exact Hrun|]. split; [exact HIS|]. split; [exact HFS|].
  split; [reflexivity|]. split; [reflexivity|].
  split; [vm_compute; reflexivity|]. split; [vm_compute; reflexivity|].
  split; [vm_compute; discriminate|].
  intros Hclaim.
  pose proof (Hclaim ["A_s"%string] ["B_s"%string] _ _ _ _
                eq_refl eq_refl Hrun HIS HFS) as Heq.
  vm_compute in Heq. discriminate Heq.
Qed.



(** The demonstration solver after the energy of [CO_s] was lost. *)
Definition solver_without_CO : solver :=
  set_E (delete "CO_s"%string) demo_solver.

(** C7 at the demonstration network without an energy for [CO_s]. *)
Lemma missing_energy_raises_witness :
  E solver_without_CO !! "CO_s"%string = None ∧
  (∃ missing, E solver_without_CO !! missing = None ∧
     get_reaction_energies split_species_digits (E solver_without_CO)
       co_adsorption = Raise (Py.KeyError missing)) ∧
  (∃ missing, E solver_without_CO !! missing = None ∧
     get_rate_constants split_species_digits demo_owner solver_without_CO
       = (Raise (Py.KeyError missing), solver_without_CO)).
Proof.
  split; [reflexivity|].
  apply (missing_energy_raises split_species_digits demo_owner
           solver_without_CO co_adsorption ["CO_s"%string] "CO_s"%string).
  - apply demo_constants.
  - apply demo_constants.
  - apply demo_network_elementary.
  - apply list_elem_of_here.
  - apply list_elem_of_further, list_elem_of_here.
  - apply list_elem_of_here.
  - reflexivity.
Defined.

(** A thermoneutral adsorption: [CO_s] at the energy of [CO_g + *_s]; no
    state energies are cached yet. *)
Definition tie_solver : solver :=
  set_E (<["CO_s"%string := 0]>) demo_solver.

(** The state energies of the network at these energies, as
    [get_state_energy_dict] accumulates them. *)
Definition tie_state_energies : gmap string R :=
  <["CO_g + *_s" := 0 + 1 * 0 + 1 * 0]> (<["CO_s" := 0 + 1 * 0]>
  (<["HCOOH_s + *_s" := 0 + 1 * 0 + 1 * 0]>
  (<["HCO-OH_s + *_s" := 0 + 1 * 1 + 1 * 0]>
  (<["HCO_s + OH_s" := 0 + 1 * (-1/2) + 1 * 0]> ∅))))%string.

Example tie_state_energy_dict :
  ensure_state_energy_dict split_species_digits demo_owner tie_solver
  = (Ok tie_state_energies,
     set_state_energy_dict tie_state_energies tie_solver).
Proof. reflexivity. Qed.

Definition co_initial_symbol : sym_expr :=
  SAdd (SAdd (Symbol "0") (Symbol "G_CO_g")) (Symbol "G_*_s").

Definition co_final_symbol : sym_expr :=
  SAdd (Symbol "0") (Symbol "G_CO_s").

(** C6 on the thermoneutral adsorption: the barriers are those of
    [max(G_IS, G_FS)], and the symbolic path takes the final state as the
    transition state. *)
Lemma two_state_transition_energy_witness :
  get_reaction_energies split_species_digits (E tie_solver) co_adsorption
    = Ok (Rmax (1 * 0 + (1 * 0 + 0)) (1 * 0 + 0) - (1 * 0 + (1 * 0 + 0)),
          Rmax (1 * 0 + (1 * 0 + 0)) (1 * 0 + 0) - (1 * 0 + 0)) ∧
  get_single_delta_G_symbols split_species_digits demo_owner co_adsorption
    tie_solver
    = (Ok (SSub co_final_symbol co_initial_symbol,
           SSub co_final_symbol co_final_symbol),
       set_state_energy_dict tie_state_energies tie_solver).
Proof.
  destruct (two_state_transition_energy split_species_digits demo_owner
              tie_solver (set_state_energy_dict tie_state_energies tie_solver)
              ["CO_g"; "*_s"]%string ["CO_s"]%string
              (1 * 0 + (1 * 0 + 0)) (1 * 0 + 0)
              tie_state_energies
              co_initial_symbol co_final_symbol
              (0 + 1 * 0 + 1 * 0) (0 + 1 * 0))
    as (Hnum & _ & _ & Htie); try reflexivity.
  split; [exact Hnum | apply Htie; lra].
Defined.

(** C10 at the demonstration network. *)
Lemma boltzmann_coverages_normalised_witness :
  ∃ cvgs s',
    boltzmann_coverages demo_owner demo_solver = (Ok cvgs, s') ∧
    length cvgs = 4%nat ∧ Forall (fun cvg => 0 < cvg) cvgs ∧
    Py.sum cvgs = 1.
Proof.
  destruct (boltzmann_coverages_normalised demo_owner demo_solver)
    as (cvgs & s' & Hrun & _ & _ & Hlen & Hpos & Hsum & _).
  - reflexivity.
  - apply demo_constants.
  - discriminate.
  - intros name Hin. simpl in Hin. list_cases;
      eexists; vm_compute; reflexivity.
  - exists cvgs, s'. split_and!; done.
Defined.

(** The sum of C10 with rounded numbers, at the default precision of 53
    bits: six adsorbates of energy 0, with [kB = T = 1]. *)
Definition six_adsorbates : list string :=
  ["a_s"; "b_s"; "c_s"; "d_s"; "e_s"; "f_s"]%string.

Definition level_E : gmap string Mpf.t :=
  list_to_map ((fun name => (name, Mpf.zero)) <$> six_adsorbates).

(** The double nearest to 1/6. *)
Definition sixth : Mpf.t := Mpf.mk 6004799503160661 (-55).

(** C10 as claimed fails there.  Whatever [mp.exp] is away from 0, where
    it is 1, each of the six coverages is the double nearest to 1/6; added
    up as [sum] does they give 0.9999999999999999, and added up without
    rounding, as they are with 200 bits, [1 - 2^-54]. *)
Lemma coverages_sum_counterexample :
  Mpf.truediv 53 Mpf.one (Mpf.of_Z 53 6) = Ok sixth ∧
  Numbers.sum (Numbers.mpf 53) (replicate 6 sixth)
    = Mpf.mk 9007199254740991 (-53) ∧
  Numbers.sum (Numbers.mpf 200) (replicate 6 sixth)
    = Mpf.mk 18014398509481983 (-54) ∧
  ∀ mp_exp : Mpf.t → Mpf.t, mp_exp Mpf.zero = Mpf.one →
    Numbers.boltzmann_coverages (Numbers.mpf 53) mp_exp Mpf.one Mpf.one
      level_E six_adsorbates = Ok (replicate 6 sixth) ∧
    ¬ coverages_sum_as_claimed 53 mp_exp Mpf.one Mpf.one level_E
        six_adsorbates.
Proof.
  split; [vm_compute; reflexivity|].
  split; [vm_compute; reflexivity|].
  split; [vm_compute; reflexivity|].
  intros mp_exp Hone.
  assert (Numbers.boltzmann_coverages (Numbers.mpf 53) mp_exp Mpf.one
            Mpf.one level_E six_adsorbates = Ok (replicate 6 sixth)) as Hrun.
  { apply (boltzmann_coverages_level (Numbers.mpf 53) mp_exp Mpf.one
             Mpf.one Mpf.zero Mpf.zero sixth level_E six_adsorbates).
    - intros name Hin. unfold six_adsorbates in Hin.
      list_cases; vm_compute; reflexivity.
    - vm_compute. reflexivity.
    - change (Numbers.truediv (Numbers.mpf 53) (mp_exp Mpf.zero)
                (Numbers.sum (Numbers.mpf 53)
                   (replicate 6 (mp_exp Mpf.zero))) = Ok sixth).
      rewrite Hone. vm_compute. reflexivity. }
  split; [exact Hrun|].
  intros Hclaim. specialize (Hclaim _ Hrun).
  vm_compute in Hclaim. discriminate Hclaim.
Qed.

(** Modelled from the spec: [cvg_tuple2dict] is not in this file; section
    4.1 has the coverage of an adsorbate under its name and the occupancy
    of a free site, under the site marker and the site's name, as the
    site's total minus the coverages of the adsorbates on that site. *)
Definition theta_of (o : owner) (cvgs_tuple : list R) : M (gmap string R) :=
  let coverages := zip (adsorbate_names o) cvgs_tuple in
  lift (Py.for_each (fun theta site_name =>
      d ← lookup_species o site_name;
      total ← entry "total" (sp_total d);
      occupied ← Py.for_each (fun acc '(name, cvg) =>
          a ← lookup_species o name;
          Ok (if decide (sp_site a = Some site_name)
              then acc + cvg else acc))
        0 coverages;
      Ok (<[("*_" +:+ site_name)%string := total - occupied]> theta))
    (list_to_map coverages) (site_names o)).

(** A stand-in for [get_steady_state_cvgs]: a root finder that is handed
    its own fixed point and returns it. *)
Definition already_steady (o : owner) (c0 : list R) : M (list R) := mret c0.

(** The generated rate statements of the demonstration network:
    [rfs[0] = kf[0]*p['CO_g']*theta['*_s']], [rrs[0] = kr[0]*theta['CO_s']]
    and the two of the second reaction. *)
Example demo_rate_expressions :
  (get_rate_expressions split_species_digits demo_owner
     (elementary_rxns_list demo_owner) demo_solver).1
  = Ok ([ {| stmt_target := dir_f; stmt_target_idx := 0;
             stmt_k := dir_f; stmt_k_idx := 0;
             stmt_factors :=
               [ {| fac_table := tbl_p; fac_name := "CO_g";
                    fac_power := None |};
                 {| fac_table := tbl_theta; fac_name := "*_s";
                    fac_power := None |} ] |};
          {| stmt_target := dir_f; stmt_target_idx := 1;
             stmt_k := dir_f; stmt_k_idx := 1;
             stmt_factors :=
               [ {| fac_table := tbl_theta; fac_name := "HCOOH_s";
                    fac_power := None |};
                 {| fac_table := tbl_theta; fac_name := "*_s";
                    fac_power := None |} ] |} ],
        [ {| stmt_target := dir_r; stmt_target_idx := 0;
             stmt_k := dir_r; stmt_k_idx := 0;
             stmt_factors :=
               [ {| fac_table := tbl_theta; fac_name := "CO_s";
                    fac_power := None |} ] |};
          {| stmt_target := dir_r; stmt_target_idx := 1;
             stmt_k := dir_r; stmt_k_idx := 1;
             stmt_factors :=
               [ {| fac_table := tbl_theta; fac_name := "HCO_s";
                    fac_power := None |};
                 {| fac_table := tbl_theta; fac_name := "OH_s";
                    fac_power := None |} ] |} ])%string.
Proof. reflexivity. Qed.

Lemma demo_names_distinct :
  NoDup (adsorbate_names demo_owner ++ transition_state_names demo_owner).
Proof. apply (bool_decide_unpack _). vm_compute. exact I. Qed.

(** C9 at the demonstration network: five energies are written, the gas
    and the free site keep theirs. *)
Lemma get_tof_overwrites_energies_witness :
  let after :=
    E (get_tof split_species_digits theta_of already_steady demo_owner
         [7; 8; 9; 10; 11] demo_solver).2 in
  after !! "CO_s"%string = Some 7 ∧
  after !! "HCO-OH_s"%string = Some 11 ∧
  after !! "CO_g"%string = Some 0 ∧
  after !! "*_s"%string = Some 0 ∧
  after !! "H2_g"%string = None.
Proof.
  destruct (get_tof_overwrites_energies split_species_digits theta_of
              already_steady demo_owner [7; 8; 9; 10; 11] demo_solver)
    as [Hwritten Hother].
  - by intros c s.
  - by intros c s.
  - reflexivity.
  - apply demo_names_distinct.
  - cbv zeta. split_and!.
    + destruct (Hwritten 0%nat "CO_s"%string eq_refl) as (G & HG & ->).
      symmetry. exact HG.
    + destruct (Hwritten 4%nat "HCO-OH_s"%string eq_refl) as (G & HG & ->).
      symmetry. exact HG.
    + rewrite Hother; [reflexivity|].
      apply (bool_decide_unpack _). vm_compute. exact I.
    + rewrite Hother; [reflexivity|].
      apply (bool_decide_unpack _). vm_compute. exact I.
    + rewrite Hother; [reflexivity|].
      apply (bool_decide_unpack _). vm_compute. exact I.
Defined.

(** A network with a single adsorbate, so that a Jacobian over two
    coordinates has one of each class. *)
Definition co_owner : owner :=
  {| elementary_rxns_list := [co_adsorption];
     adsorbate_names := ["CO_s"]%string;
     transition_state_names := [];
     site_names := ["s"]%string;
     gas_names := ["CO_g"]%string;
     hasdata := true;
     species_definitions := species_definitions demo_owner;
     _kB := 1; _h := 1; temperature := 1;
     gas_matrix := [[1]] |}.

Definition sum_and_product (x : list R) : list R :=
  [x !!! 0%nat + x !!! 1%nat; x !!! 0%nat * x !!! 1%nat].

(** C8 on [sum_and_product] at the point [(1, 2)] with [h = 1/10]: the
    call raises at the [reshape]. *)
Example classified_jacobian_failing_input :
  classified_numerical_jacobian co_owner sum_and_product [1; 2] (1/10)
  = Raise (Py.AttributeError "'matrix' object has no attribute 'reshape'").
Proof. reflexivity. Qed.

(** The loop that the call does not reach, on the same input: the matrix
    has two rows, and the entry of the first row in the second column is a
    backward quotient. *)
Lemma jacobian_loop_directions_example :
  ∃ J row,
    Py.for_each
      (jacobian_round co_owner sum_and_product [1; 2]
         (sum_and_product [1; 2]) (1/10))
      (replicate 2 (replicate 2 0)) (seq 0 2) = Ok J ∧
    length J = 2%nat ∧ J !! 0%nat = Some row ∧
    row !! 1%nat = Some
      ((sum_and_product [1; 2 - Rmax (Rabs (1/10 * 2)) (1/10)] !!! 0%nat
        - sum_and_product [1; 2] !!! 0%nat)
       / (- Rmax (Rabs (1/10 * 2)) (1/10))).
Proof.
  destruct (jacobian_loop_directions co_owner sum_and_product [1; 2] (1/10))
    as (J & Hrun & Hlen & Hentries).
  - lra.
  - reflexivity.
  - destruct (Hentries 0%nat 1%nat) as (row & Hrow & _ & Hentry).
    + simpl. lia.
    + simpl. lia.
    + exists J, row. split_and!; [exact Hrun | exact Hlen | exact Hrow |].
      exact Hentry.
Qed.

(** Newton iterations over the integers, in one dimension: the Jacobian
    is the scalar 1, the solve returns its right-hand side, the golden
    search returns the step length 1 and the norm is the sum of the
    absolute values. *)
Definition unit_step (fl : Z → Z) : Z := 1%Z.
Definition abs_norm (v : list Z) : Z :=
  foldr (fun a acc => Z.abs a + acc)%Z 0%Z v.

Definition newton_over_Z (f : list Z → list Z) (x0 : list Z)
    (constraint : list Z → list Z)
    (solver : Z → list Z → result (list Z)) : @NewtonRoot Z Z unit :=
  {| f := f; J := fun _ _ => 1%Z; x0 := x0; real_constraint := constraint;
     _norm := abs_norm; _Axb_solver := solver;
     dtheta_dt_expressions := Some tt |}.

(** The root of [x - 4] from the guess 0: found by the first step, seen to
    be stationary by the second. *)
Definition shifted_root : @NewtonRoot Z Z unit :=
  newton_over_Z (fun x => (fun a => a - 4)%Z <$> x) [0%Z] (fun x => x)
    (fun _ b => Ok b).

(** A constant residual 1: every step moves the point down by 1, and the
    real constraint clips at 0. *)
Definition drifting : @NewtonRoot Z Z unit :=
  newton_over_Z (fun x => (fun _ => 1%Z) <$> x) [0%Z]
    (fun x => Z.max 0 <$> x) (fun _ b => Ok b).

(** A Jacobian that cannot be inverted. *)
Definition singular : @NewtonRoot Z Z unit :=
  newton_over_Z (fun x => x) [3%Z] (fun x => x)
    (fun _ _ => Raise Py.ZeroDivisionError).

Example shifted_root_run :
  pull Z.add Z.mul Z.opp unit_step 5 (Created shifted_root)
  = ([([4%Z], 0%Z, [0%Z]); ([4%Z], 0%Z, [0%Z])], Some StopIteration,
     Finished).
Proof. reflexivity. Qed.

Example drifting_run :
  (pull Z.add Z.mul Z.opp unit_step 7 (Created drifting)).1.1
  = [([-1], 1, [1]); ([-2], 1, [1]); ([-3], 1, [1]); ([-4], 1, [1]);
     ([-5], 1, [1]); ([0], 1, [1]); ([0], 1, [1])]%Z.
Proof. reflexivity. Qed.

(** C3 on [shifted_root]: one moving step, then the stationary point is
    yielded once more and the sequence ends. *)
Lemma newton_sequence_termination_witness :
  ∃ items,
    length items = 1%nat ∧
    pull Z.add Z.mul Z.opp unit_step 3 (Created shifted_root)
    = (items ++ [([4%Z], 0%Z, [0%Z])], Some StopIteration, Finished).
Proof.
  destruct (newton_sequence_termination Z.add Z.mul Z.opp unit_step
              shifted_root 1) as [_ Hstop].
  - intros m Hm. assert (m = 0%nat) as -> by lia.
    exists [0%Z], [4%Z]. split_and!; [reflexivity | reflexivity | discriminate].
  - destruct (Hstop [4%Z]) as (items & Hlen & _ & Hend);
      [reflexivity | reflexivity |].
    exists items. split; [exact Hlen | exact Hend].
Defined.

(** C4 on [drifting]: the sixth element is the first to go through the
    real constraint, which clips the stepped point [-6] to 0. *)
Lemma constraint_schedule_witness :
  ∃ items g printed fr',
    pull Z.add Z.mul Z.opp unit_step 5 (Created drifting)
      = (items, None, g) ∧
    next Z.add Z.mul Z.opp unit_step g
      = (printed, Yielded [0%Z] 1%Z [1%Z], Suspended drifting fr') ∧
    stepped Z.add Z.mul [(-5)%Z] 1%Z [(-1)%Z] = [(-6)%Z] ∧
    self_constraint fr' = Some real.
Proof.
  destruct (constraint_schedule Z.add Z.mul Z.opp unit_step drifting 5
              [(-5)%Z] [(-1)%Z])
    as (_ & items & g & printed & x1 & fr' & Hpull & _ & Hnext & Hx1 & Hkind).
  - intros m Hm.
    destruct m as [|[|[|[|[|m]]]]]; [| | | | |lia];
      do 2 eexists; (split_and!; [reflexivity | reflexivity | discriminate]).
  - reflexivity.
  - reflexivity.
  - reflexivity.
  - exists items, g, printed, fr'. rewrite Hx1 in Hnext.
    split_and!; [exact Hpull | exact Hnext | reflexivity | exact Hkind].
Defined.

(** C5 as claimed fails on [singular]: the first pull ends the sequence
    like any exhausted iterator, and no exception reaches the caller. *)
Lemma singular_solve_counterexample :
  newton_solve Z.opp singular (x0 singular)
    = Some (Raise Py.ZeroDivisionError) ∧
  next Z.add Z.mul Z.opp unit_step (Created singular)
    = (["ZeroDivisionError!"%string], StopIteration, Finished) ∧
  ¬ reports_error (next Z.add Z.mul Z.opp unit_step (Created singular)).
Proof.
  split_and!; [reflexivity | reflexivity |].
  intros [e He]. discriminate.
Qed.

(** C5, amended, on [singular]. *)
Lemma singular_solve_ends_sequence_witness :
  next Z.add Z.mul Z.opp unit_step (Created singular)
    = (["ZeroDivisionError!"%string], StopIteration, Finished) ∧
  ¬ reports_error (next Z.add Z.mul Z.opp unit_step (Created singular)) ∧
  next Z.add Z.mul Z.opp unit_step (@Finished Z Z unit)
    = ([], StopIteration, Finished).
Proof.
  apply (singular_solve_ends_sequence Z.add Z.mul Z.opp unit_step
           (Created singular) singular (enter singular)); reflexivity.
Defined.

(** The same constant residual without a real constraint: the point moves
    down by 1 for ever, so a caller that pulls [n] elements gets [n]
    elements, whatever [n]. *)
Definition free_drift : @NewtonRoot Z Z unit :=
  newton_over_Z (fun x => (fun _ => 1%Z) <$> x) [0%Z] (fun x => x)
    (fun _ b => Ok b).

Lemma free_drift_orbit n : ∀ k z,
  orbit Z.add Z.mul Z.opp unit_step free_drift k [z] n
  = Some [(z - Z.of_nat n)%Z].
Proof.
  induction n as [|n IH]; intros k z.
  - simpl. do 2 f_equal. lia.
  - cbn [orbit]. change (newton_solve Z.opp free_drift [z])
      with (Some (Ok (A:=list Z) [(-1)%Z])).
    cbv iota. rewrite decide_True by reflexivity.
    replace (newton_point Z.add Z.mul unit_step free_drift (S k) [z] [(-1)%Z])
      with [(z - 1)%Z].
    + rewrite IH. do 2 f_equal. lia.
    + unfold newton_point, constraint_at, apply_constraint, quasi_constraint.
      case_decide; simpl; f_equal; lia.
Qed.

Lemma free_drift_never_ends n :
  ∃ items g fr,
    pull Z.add Z.mul Z.opp unit_step n (Created free_drift)
      = (items, None, g) ∧
    frame_of g = Some (free_drift, fr) ∧
    cancel fr = false ∧ length items = n.
Proof.
  destruct (pull_live Z.add Z.mul Z.opp unit_step free_drift n
              (Created free_drift) (enter free_drift))
    as (items & g & fr & Hpull & Hg & Hn & Hlive & _); [done | done | |].
  - intros m Hm. eexists _, _.
    split_and!; [apply free_drift_orbit | apply free_drift_orbit |].
    intros [= Heq]. lia.
  - exists items, g, fr. done.
Qed.

(** ** Further worked instances *)

(** The adsorption step has no transition state: its faster direction
    runs at the prefactor. *)
Lemma two_state_rate_constants_witness :
  ∃ kfs krs kf kr,
    (get_rate_constants split_species_digits demo_owner demo_solver).1
      = Ok (kfs, krs) ∧
    kfs !! 0%nat = Some kf ∧ krs !! 0%nat = Some kr ∧
    Rmax kf kr = _kB demo_owner * temperature demo_owner / _h demo_owner.
Proof.
  destruct (two_state_rate_constants split_species_digits demo_owner
              demo_solver)
    as (kfs & krs & s' & Hrun & Hrows).
  - simpl. lra.
  - simpl. lra.
  - apply demo_network_known.
  - destruct (Hrows 0%nat ["CO_g"; "*_s"]%string ["CO_s"]%string eq_refl)
      as (kf & kr & Hkf & Hkr & _ & _ & Hmax).
    exists kfs, krs, kf, kr. rewrite Hrun. split_and!; done.
Defined.

(** Four states, the inner two naming species that have no energy: the
    barriers are those of a transition energy of [0]. *)
Lemma reaction_energies_other_lengths_witness :
  get_reaction_energies split_species_digits demo_E
    [["CO_g"]; ["X_s"]; ["Y_s"]; ["CO_s"]]%string
  = Ok (0 - (1 * 0 + 0), 0 - (1 * (-3/2) + 0)) ∧
  get_reaction_energies split_species_digits demo_E [] = Raise Py.IndexError.
Proof.
  split.
  - pose proof (reaction_energies_other_lengths split_species_digits demo_E
                  [["CO_g"]; ["X_s"]; ["Y_s"]; ["CO_s"]]%string
                  ltac:(discriminate) ltac:(discriminate)) as H.
    cbn [head last] in H. apply H; reflexivity.
  - exact (reaction_energies_other_lengths split_species_digits demo_E []
             ltac:(discriminate) ltac:(discriminate)).
Defined.

(** The demonstration model with other reactions, another value of
    Planck's constant, or without data. *)
Definition demo_variant (rxns : list rxn_t) (h : R) (data : bool) : owner :=
  {| elementary_rxns_list := rxns;
     adsorbate_names := adsorbate_names demo_owner;
     transition_state_names := transition_state_names demo_owner;
     site_names := site_names demo_owner;
     gas_names := gas_names demo_owner;
     hasdata := data;
     species_definitions := species_definitions demo_owner;
     _kB := 1; _h := h; temperature := 1;
     gas_matrix := gas_matrix demo_owner |}.

Lemma zero_constants_raise_witness :
  get_rate_constants split_species_digits
    (demo_variant [co_adsorption] 0 true) demo_solver
  = (Raise Py.ZeroDivisionError, demo_solver).
Proof.
  apply (zero_constants_raise split_species_digits
           (demo_variant [co_adsorption] 0 true) demo_solver).
  left. reflexivity.
Defined.

(** Loading the data of the demonstration model into a solver that held
    other energies. *)
Lemma get_data_dict_loads_witness :
  ∃ s',
    get_data_dict demo_owner tie_solver = (Ok tt, s') ∧ has_data s' = true ∧
    E s' !! "*_s"%string = Some 0 ∧ E s' !! "CO_s"%string = Some (-3/2) ∧
    E s' !! "s"%string = None ∧ p s' !! "CO_g"%string = Some 1.
Proof.
  destruct (get_data_dict_loads demo_owner tie_solver)
    as (s' & Hrun & Hdata & HE & Hnone & Hp & _).
  - reflexivity.
  - intros gas Hin. simpl in Hin. list_cases.
    eexists _, _. split; reflexivity.
  - intros kv Hin. simpl in Hin. list_cases; split; eexists; reflexivity.
  - apply (bool_decide_unpack _). vm_compute. exact I.
  - exists s'. split_and!; try done.
    + apply (HE ("s"%string, a_species "site" 0)).
      simpl. apply list_elem_of_further, list_elem_of_here.
    + apply (HE ("CO_s"%string, a_species "adsorbate" (-3/2))).
      simpl. do 2 apply list_elem_of_further. apply list_elem_of_here.
    + apply Hnone. apply (bool_decide_unpack _). vm_compute. exact I.
    + apply (Hp "CO_g"%string (a_species "gas" 0));
        [apply list_elem_of_here | reflexivity].
Defined.

Lemma get_data_dict_all_or_nothing_witness :
  get_data_dict (demo_variant [co_adsorption] 1 false) tie_solver
  = (Raise (Py.AttributeError
              "model object has no input data in species_definitions"),
     tie_solver) ∧
  tie_solver = tie_solver.
Proof.
  split; [reflexivity|].
  apply (get_data_dict_all_or_nothing
           (demo_variant [co_adsorption] 1 false) tie_solver
           (Py.AttributeError
              "model object has no input data in species_definitions")
           tie_solver eq_refl).
Defined.

(** A stand-in for the conversion to a double, for rates whose quotients
    are doubles already. *)
Definition as_double (x : R) : pyfloat := Double x.

Lemma reversibility_and_net_rate_witness :
  ∃ revs nets,
    (get_reversibilities as_double [2; 4] [1; 4] demo_solver).1 = Ok revs ∧
    (get_net_rates [2; 4] [1; 4] demo_solver).1 = Ok nets ∧
    revs !! 0%nat = Some (Double (1 / 2)) ∧
    revs !! 1%nat = Some (Double 1) ∧ nets !! 1%nat = Some 0.
Proof.
  destruct (reversibility_and_net_rate as_double [2; 4] [1; 4] demo_solver)
    as (revs & nets & s2 & Hrev & Hnet & _ & _ & Hrows).
  - reflexivity.
  - repeat constructor; lra.
  - destruct (Hrows 0%nat 2 1 eq_refl eq_refl) as (Hhalf & _ & _).
    destruct (Hrows 1%nat 4 4 eq_refl eq_refl) as (_ & _ & Hequal).
    destruct (Hequal eq_refl) as [Hone Hzero].
    exists revs, nets. rewrite Hrev, Hnet. split_and!; done.
Defined.

Lemma get_reversibilities_errors_witness :
  get_reversibilities as_double [1; 2] [1] demo_solver
  = (Raise (Py.ValueError "Different rates number is detected."),
     demo_solver) ∧
  ∃ nets s', get_net_rates [1; 2] [1] demo_solver = (Ok nets, s') ∧
             length nets = 1%nat.
Proof.
  destruct (get_reversibilities_errors as_double [1; 2] [1] demo_solver)
    as [(e & Hrun & Hvalue & _) Hnets].
  - left. discriminate.
  - split; [|exact Hnets]. rewrite Hrun, Hvalue; [reflexivity | discriminate].
Defined.

Lemma tof_projection_ignores_signs_witness :
  row_times_abs [1; 2] (fmap (M:=list) (fmap (M:=list) Ropp) [[1]; [-1]])
  = row_times_abs [1; 2] [[1]; [-1]].
Proof.
  apply (tof_projection_ignores_signs [1; 2] [[1]; [-1]] Ropp).
  intros x. by right.
Defined.

(** Reading back the five energies that [get_tof] was handed. *)
Lemma get_intermediates_Gs_after_get_tof_witness :
  (get_intermediates_Gs demo_owner
     (get_tof split_species_digits theta_of already_steady demo_owner
        [7; 8; 9; 10; 11] demo_solver).2).1
  = Ok [7; 8; 9; 10; 11].
Proof.
  rewrite (get_intermediates_Gs_after_get_tof split_species_digits theta_of
             already_steady demo_owner [7; 8; 9; 10; 11] demo_solver).
  - reflexivity.
  - by intros c s.
  - by intros c s.
  - reflexivity.
  - apply demo_names_distinct.
Defined.

(** The energies of the intermediates of the demonstration solver, and
    the solver once they are read. *)
Definition demo_Gs : list R := [-3/2; 0; -1/2; 0; 1].

Lemma get_tof_of_current_energies_witness :
  get_intermediates_Gs demo_owner demo_solver
  = (Ok demo_Gs, setattr "intermediates_Gs" (PyFloats demo_Gs) demo_solver) ∧
  E (get_tof split_species_digits theta_of already_steady demo_owner demo_Gs
       (setattr "intermediates_Gs" (PyFloats demo_Gs) demo_solver)).2
  = demo_E.
Proof.
  split; [reflexivity|].
  apply (get_tof_of_current_energies split_species_digits theta_of
           already_steady demo_owner demo_solver demo_Gs).
  - by intros c s.
  - by intros c s.
  - reflexivity.
Defined.

(** The demonstration solver once its rate expressions are built. *)
Definition demo_solver_with_expressions : solver :=
  set_rate_expressions (rate_statements split_species_digits demo_owner)
    demo_solver.

Lemma demo_network_known_after (Gs : list R) rxn :
  length Gs = 5%nat →
  rxn ∈ elementary_rxns_list demo_owner →
  elementary rxn ∧
  energies_known split_species_digits
    (overwrite_energies
       (adsorbate_names demo_owner ++ transition_state_names demo_owner)
       Gs demo_E) rxn.
Proof.
  intros HGs Hin.
  destruct Gs as [|g1 [|g2 [|g3 [|g4 [|g5 [|g6 Gs]]]]]]; try discriminate.
  simpl in Hin. list_cases.
  - split; [by left|]. intros state name Hs Hn.
    unfold co_adsorption in Hs. list_cases; vm_compute in Hn; list_cases;
      eexists; vm_compute; reflexivity.
  - split; [by right|]. intros state name Hs Hn.
    unfold hcooh_scission in Hs. list_cases; vm_compute in Hn; list_cases;
      eexists; vm_compute; reflexivity.
Qed.

Lemma get_tof_is_get_cvg_tof_witness :
  ∃ s2,
    get_tof split_species_digits theta_of already_steady demo_owner
      [7; 8; 9; 10; 11] demo_solver_with_expressions
    = get_cvg_tof split_species_digits theta_of demo_owner
        [1/4; 1/4; 1/4; 1/4] s2.
Proof.
  destruct (rate_constants_rows split_species_digits demo_owner
              (overwrite_energies
                 (adsorbate_names demo_owner
                  ++ transition_state_names demo_owner)
                 [7; 8; 9; 10; 11] demo_E))
    as (Gf & Gr & kfs & krs & Hrc & _).
  { apply demo_constants. }
  { apply demo_constants. }
  { intros rxn Hin. by apply demo_network_known_after. }
  eexists.
  apply (get_tof_is_get_cvg_tof split_species_digits theta_of already_steady
           demo_owner [7; 8; 9; 10; 11] demo_solver_with_expressions
           (kfs, krs) _ [1/4; 1/4; 1/4; 1/4] [1/4; 1/4; 1/4; 1/4]
           (rate_statements split_species_digits demo_owner)).
  - by intros c s.
  - by apply get_rate_constants_run.
  - reflexivity.
  - reflexivity.
  - reflexivity.
Defined.

Lemma get_cvg_tof_needs_rate_expressions_witness :
  ∃ e s',
    get_cvg_tof split_species_digits theta_of demo_owner
      [1/4; 1/4; 1/4; 1/4] demo_solver = (Raise e, s') ∧
    rate_expressions s' = None ∧ E s' = demo_E.
Proof.
  destruct (get_cvg_tof_needs_rate_expressions split_species_digits theta_of
              demo_owner [1/4; 1/4; 1/4; 1/4] demo_solver)
    as (e & s' & Hrun & Hnone & HE & _); [reflexivity|].
  exists e, s'. split_and!; done.
Defined.

(** A corrector in the Shomate mode that corrects the gas [CO_g], and
    one that also names a gas the solver has no energy for. *)
Definition shomate_mode (o : owner) : string := "shomate_gas".

Definition co_correction (o : owner) : result (list (string * R)) :=
  Ok [("CO_g"%string, 1/10)].

Definition co_h2_correction (o : owner) : result (list (string * R)) :=
  Ok [("CO_g"%string, 1/10); ("H2_g"%string, 1/5)].

Lemma correct_energies_adds_witness :
  ∃ E' s',
    correct_energies shomate_mode co_correction demo_owner demo_solver
      = (Ok E', s') ∧
    E' !! "CO_g"%string = Some (0 + 1/10) ∧
    E' !! "CO_s"%string = Some (-3/2).
Proof.
  destruct (correct_energies_adds shomate_mode co_correction demo_owner
              demo_solver [("CO_g"%string, 1/10)])
    as (E' & s' & Hrun & _ & _ & Hadded & Hother).
  - reflexivity.
  - reflexivity.
  - apply (bool_decide_unpack _). vm_compute. exact I.
  - intros name Hin. simpl in Hin. list_cases. eexists. reflexivity.
  - exists E', s'. split; [exact Hrun|]. split.
    + destruct (Hadded "CO_g"%string (1/10)) as (e & He & ->);
        [apply list_elem_of_here|].
      change (E demo_solver !! "CO_g"%string) with (Some 0) in He.
      by injection He as <-.
    + rewrite Hother; [reflexivity|].
      apply (bool_decide_unpack _). vm_compute. exact I.
Defined.

Lemma correct_energies_twice_witness :
  ∃ E'' s'',
    (correct_energies shomate_mode co_correction demo_owner
       ≫= fun _ => correct_energies shomate_mode co_correction demo_owner)
      demo_solver = (Ok E'', s'') ∧
    E'' !! "CO_g"%string = Some (0 + 1/10 + 1/10).
Proof.
  destruct (correct_energies_twice shomate_mode co_correction demo_owner
              demo_solver [("CO_g"%string, 1/10)])
    as (E'' & s'' & Hrun & _ & Hadded).
  - reflexivity.
  - reflexivity.
  - apply (bool_decide_unpack _). vm_compute. exact I.
  - intros name Hin. simpl in Hin. list_cases. eexists. reflexivity.
  - exists E'', s''. split; [exact Hrun|].
    destruct (Hadded "CO_g"%string (1/10)) as (e & He & ->);
      [apply list_elem_of_here|].
    change (E demo_solver !! "CO_g"%string) with (Some 0) in He.
    by injection He as <-.
Defined.

Lemma correct_energies_stops_part_way_witness :
  ∃ s',
    correct_energies shomate_mode co_h2_correction demo_owner demo_solver
      = (Raise (Py.KeyError "H2_g"), s') ∧
    attrs s' = attrs demo_solver ∧
    E s' !! "CO_g"%string = Some (0 + 1/10).
Proof.
  destruct (correct_energies_stops_part_way shomate_mode co_h2_correction
              demo_owner demo_solver [("CO_g"%string, 1/10)]
              "H2_g"%string (1/5) [])
    as (s' & Hrun & Hattrs & Hadded & _).
  - reflexivity.
  - reflexivity.
  - apply (bool_decide_unpack _). vm_compute. exact I.
  - intros name Hin. simpl in Hin. list_cases. eexists. reflexivity.
  - reflexivity.
  - exists s'. split; [exact Hrun|]. split; [exact Hattrs|].
    destruct (Hadded "CO_g"%string (1/10)) as (e & He & ->);
      [apply list_elem_of_here|].
    change (E demo_solver !! "CO_g"%string) with (Some 0) in He.
    by injection He as <-.
Defined.

(** All four adsorbates of the demonstration model sit on the site
    [s]. *)
Lemma classify_adsorbates_partition_witness :
  ∃ classified,
    classify_adsorbates demo_owner = Ok classified ∧
    classified !! "s"%string
      = Some ["CO_s"; "HCOOH_s"; "HCO_s"; "OH_s"]%string ∧
    classified !! "t"%string = None.
Proof.
  destruct (classify_adsorbates_partition demo_owner) as (c & Hrun & Hc).
  - intros a Hin. simpl in Hin.
    list_cases; exists "s"%string; (split; [reflexivity|]);
      apply list_elem_of_here.
  - exists c. split; [exact Hrun|]. rewrite !Hc. split; reflexivity.
Defined.

(** The scission step of the source's docstring: its barriers are
    [G_HCO-OH_s - G_HCOOH_s] and
    [G_*_s + G_HCO-OH_s - G_HCO_s - G_OH_s]. *)
Lemma symbolic_barriers_follow_stoichiometry_witness :
  ∃ delta_Gf_sym delta_Gr_sym,
    (get_single_delta_G_symbols split_species_digits demo_owner
       hcooh_scission demo_solver).1 = Ok (delta_Gf_sym, delta_Gr_sym) ∧
    (coefficient delta_Gf_sym "G_HCO-OH_s" = 1 ∧
     coefficient delta_Gf_sym "G_HCOOH_s" = -1 ∧
     coefficient delta_Gf_sym "G_*_s" = 0 ∧
     coefficient delta_Gf_sym "0" = 0)%Z ∧
    (coefficient delta_Gr_sym "G_*_s" = 1 ∧
     coefficient delta_Gr_sym "G_HCO-OH_s" = 1 ∧
     coefficient delta_Gr_sym "G_HCO_s" = -1 ∧
     coefficient delta_Gr_sym "G_OH_s" = -1 ∧
     coefficient delta_Gr_sym "0" = 0)%Z.
Proof.
  destruct (symbolic_barriers_follow_stoichiometry split_species_digits
              demo_owner demo_solver
              ["HCOOH_s"; "*_s"]%string ["HCO-OH_s"; "*_s"]%string
              ["HCO_s"; "OH_s"]%string)
    as (gf & gr & Hsym & [Hf0 Hr0] & Hforms).
  - reflexivity.
  - intros st name Hst Hn.
    list_cases; vm_compute in Hn; list_cases;
      apply (bool_decide_unpack _); vm_compute; exact I.
  - exists gf, gr. split; [exact (f_equal fst Hsym)|].
    split; split_and!; try done;
      match goal with
      | |- coefficient gf ?x = _ => destruct (Hforms x) as [-> _]
      | |- coefficient gr ?x = _ => destruct (Hforms x) as [_ ->]
      end; reflexivity.
Defined.

(** The transition state [HCO-OH_s] written as a term of a first state:
    after [HCOOH_s] it repeats the factor of [HCOOH_s], at the head it
    fails. *)
Lemma list2string_stale_factor_witness :
  list2string split_species_digits demo_owner ["HCOOH_s"; "HCO-OH_s"]%string
  = Ok [ {| fac_table := tbl_theta; fac_name := "HCOOH_s"%string;
            fac_power := None |};
         {| fac_table := tbl_theta; fac_name := "HCOOH_s"%string;
            fac_power := None |} ] ∧
  list2string split_species_digits demo_owner ["HCO-OH_s"; "*_s"]%string
  = Raise (Py.UnboundLocalError "sp_expr").
Proof.
  destruct (list2string_stale_factor split_species_digits demo_owner
              ["HCOOH_s"%string] "HCO-OH_s"%string
              (a_species "transition_state" 1) ["*_s"%string])
    as (Hstale & Hhead & _).
  - intros sp Hin. list_cases. eexists. reflexivity.
  - reflexivity.
  - reflexivity.
  - discriminate.
  - discriminate.
  - split; [exact Hstale | exact Hhead].
Defined.

Lemma demo_network_distinct : NoDup (elementary_rxns_list demo_owner).
Proof. apply (bool_decide_unpack _). vm_compute. exact I. Qed.

Lemma demo_network_typed (rxns : list rxn_t) (h : R) (data : bool) :
  (∀ rxn, rxn ∈ rxns → rxn ∈ elementary_rxns_list demo_owner) →
  typed_network split_species_digits (demo_variant rxns h data).
Proof.
  intros Hsub rxn Hin. apply Hsub in Hin. simpl in Hin. list_cases.
  - eexists _, _. split_and!; try reflexivity;
      intros sp Hsp; list_cases; eexists; reflexivity.
  - eexists _, _. split_and!; try reflexivity;
      intros sp Hsp; list_cases; eexists; reflexivity.
Qed.

Lemma get_rate_expressions_statements_witness :
  ∃ fs rs f,
    (get_rate_expressions split_species_digits
       (demo_variant [co_adsorption; hcooh_scission] 1 true)
       [co_adsorption; hcooh_scission] demo_solver).1 = Ok (fs, rs) ∧
    fs !! 1%nat = Some f ∧ stmt_target_idx f = 1%nat ∧
    stmt_k_idx f = 1%nat ∧ length (stmt_factors f) = 2%nat.
Proof.
  destruct (get_rate_expressions_statements split_species_digits
              (demo_variant [co_adsorption; hcooh_scission] 1 true)
              demo_solver)
    as (fs & rs & s' & Hrun & _ & _ & _ & _ & Hrows).
  - apply demo_network_distinct.
  - by apply demo_network_typed.
  - destruct (Hrows 1%nat hcooh_scission ["HCOOH_s"; "*_s"]%string
                ["HCO_s"; "OH_s"]%string eq_refl eq_refl eq_refl)
      as (f & r & Hf & _ & _ & _ & Hidx & Hk & _ & _ & _ & _ & Hlen & _).
    exists fs, rs, f.
    change (elementary_rxns_list
              (demo_variant [co_adsorption; hcooh_scission] 1 true))
      with [co_adsorption; hcooh_scission] in Hrun.
    rewrite Hrun. split_and!; done.
Defined.

(** The adsorption step listed a second time, at position 2: its
    statements assign entry 0. *)
Lemma repeated_reaction_statements_witness :
  ∃ fs rs f,
    (get_rate_expressions split_species_digits
       (demo_variant [co_adsorption; hcooh_scission; co_adsorption] 1 true)
       [co_adsorption; hcooh_scission; co_adsorption] demo_solver).1
      = Ok (fs, rs) ∧
    fs !! 2%nat = Some f ∧ stmt_target_idx f = 0%nat ∧
    stmt_k_idx f = 0%nat.
Proof.
  destruct (repeated_reaction_statements split_species_digits
              (demo_variant [co_adsorption; hcooh_scission; co_adsorption]
                 1 true)
              demo_solver 0 2 co_adsorption)
    as (fs & rs & s' & f & r & Hrun & Hf & _ & Hidx & Hk & _).
  - apply demo_network_typed. intros rxn Hin. simpl.
    list_cases; [apply list_elem_of_here
                | apply list_elem_of_further, list_elem_of_here
                | apply list_elem_of_here].
  - reflexivity.
  - reflexivity.
  - intros k Hk. lia.
  - lia.
  - exists fs, rs, f.
    change (elementary_rxns_list
              (demo_variant [co_adsorption; hcooh_scission; co_adsorption]
                 1 true))
      with [co_adsorption; hcooh_scission; co_adsorption] in Hrun.
    rewrite Hrun. split_and!; done.
Defined.

(** The coverages of the demonstration network at a quarter each: the
    free site is left with nothing. *)
Definition demo_theta : gmap string R :=
  <["*_s" := 1 - (0 + 1/4 + 1/4 + 1/4 + 1/4)]>
    (list_to_map (zip (adsorbate_names demo_owner) [1/4; 1/4; 1/4; 1/4]))%string.

Example demo_theta_of :
  theta_of demo_owner [1/4; 1/4; 1/4; 1/4] demo_solver
  = (Ok demo_theta, demo_solver).
Proof. reflexivity. Qed.

Lemma get_rates_mass_action_witness :
  ∃ kfs krs rfs rrs kf,
    (get_rate_constants split_species_digits demo_owner demo_solver).1
      = Ok (kfs, krs) ∧
    (get_rates split_species_digits theta_of demo_owner
       (rate_statements split_species_digits demo_owner)
       [1/4; 1/4; 1/4; 1/4] demo_solver).1 = Ok (rfs, rrs) ∧
    kfs !! 0%nat = Some kf ∧
    rfs !! 0%nat
      = Some (kf * state_activity split_species_digits demo_owner demo_theta
                     (p demo_solver) ["CO_g"; "*_s"]%string).
Proof.
  destruct (get_rates_mass_action split_species_digits theta_of demo_owner
              demo_solver [1/4; 1/4; 1/4; 1/4] demo_theta demo_solver)
    as (kfs & krs & rfs & rrs & s2 & s' & _ & Hrc & Hrun & _ & _ & Hrows).
  - apply demo_network_distinct.
  - apply demo_constants.
  - apply demo_constants.
  - apply demo_network_known.
  - apply demo_theta_of.
  - intros rxn st sp Hin Hst Hsp. simpl in Hin. list_cases;
      (destruct Hst as [Hst|Hst]; simpl in Hst; injection Hst as <-);
      list_cases;
      (split; [eexists; vm_compute; reflexivity | vm_compute; discriminate]).
  - destruct (Hrows 0%nat co_adsorption ["CO_g"; "*_s"]%string
                ["CO_s"]%string eq_refl eq_refl eq_refl)
      as (kf & kr & Hkf & _ & Hrf & _).
    exists kfs, krs, rfs, rrs, kf. rewrite Hrc, Hrun. split_and!; done.
Defined.

(** The first pull on [shifted_root]. *)
Lemma yielded_triple_consistent_witness :
  ∃ printed g',
    next Z.add Z.mul Z.opp unit_step (Created shifted_root)
      = (printed, Yielded [4%Z] 0%Z [0%Z], g') ∧
    [0%Z] = f shifted_root [4%Z] ∧ 0%Z = _norm shifted_root [0%Z] ∧
    printed = [].
Proof.
  destruct (yielded_triple_consistent Z.add Z.mul Z.opp unit_step
              (Created shifted_root) shifted_root (enter shifted_root)
              [] [4%Z] 0%Z [0%Z]
              (Suspended shifted_root
                 {| iter_counter := 1; loc_x0 := [4%Z]; loc_fx := [0%Z];
                    loc_fxnorm := 0%Z; cancel := false;
                    self_constraint := Some quasi |}))
    as (Hfx & Hnorm & fr' & _ & _ & _ & _ & Hprinted).
  - reflexivity.
  - reflexivity.
  - do 2 eexists. split; [reflexivity|]. split_and!; done.
Defined.

(** A solver that fails as [numpy.linalg.solve] does on a singular
    matrix. *)
Definition not_invertible : @NewtonRoot Z Z unit :=
  newton_over_Z (fun x => x) [3%Z] (fun x => x)
    (fun _ _ => Raise (Py.LinAlgError "Singular matrix")).

Lemma other_exceptions_reach_the_caller_witness :
  next Z.add Z.mul Z.opp unit_step (Created not_invertible)
    = ([], Raised (Py.LinAlgError "Singular matrix"), Finished) ∧
  reports_error (next Z.add Z.mul Z.opp unit_step (Created not_invertible)) ∧
  pull Z.add Z.mul Z.opp unit_step 3 (Created not_invertible)
    = ([], Some (Raised (Py.LinAlgError "Singular matrix")), Finished).
Proof.
  destruct (other_exceptions_reach_the_caller Z.add Z.mul Z.opp unit_step
              (Created not_invertible) not_invertible (enter not_invertible)
              (Py.LinAlgError "Singular matrix"))
    as (Hnext & Herror & Hpull).
  - reflexivity.
  - reflexivity.
  - left. split; [reflexivity | discriminate].
  - split_and!; [exact Hnext | exact Herror | exact (Hpull 2%nat)].
Defined.

(** [shifted_root] at its root 4 after the first pull: the solve
    returns the zero direction. *)
Lemma zero_direction_is_stationary_witness :
  ∃ g',
    next Z.add Z.mul Z.opp unit_step
      (Suspended shifted_root
         {| iter_counter := 1; loc_x0 := [4%Z]; loc_fx := [0%Z];
            loc_fxnorm := 0%Z; cancel := false;
            self_constraint := Some quasi |})
    = (["Solver: Found stationary point."%string],
       Yielded [4%Z] 0%Z [0%Z], g') ∧
    next Z.add Z.mul Z.opp unit_step g' = ([], StopIteration, Finished).
Proof.
  destruct (zero_direction_is_stationary Z.add Z.mul Z.opp unit_step
              (Suspended shifted_root
                 {| iter_counter := 1; loc_x0 := [4%Z]; loc_fx := [0%Z];
                    loc_fxnorm := 0%Z; cancel := false;
                    self_constraint := Some quasi |})
              shifted_root
              {| iter_counter := 1; loc_x0 := [4%Z]; loc_fx := [0%Z];
                 loc_fxnorm := 0%Z; cancel := false;
                 self_constraint := Some quasi |}
              [0%Z] 0%Z)
    as (g' & Hnext & Hstop).
  - intros a l. lia.
  - reflexivity.
  - reflexivity.
  - reflexivity.
  - reflexivity.
  - by repeat constructor.
  - left. simpl. lia.
  - exists g'. split; [exact Hnext | exact Hstop].
Defined.

(** Two values for five names: the first two names are written, the third
    keeps its energy. *)
Lemma get_tof_any_length_witness :
  let after :=
    E (get_tof split_species_digits theta_of already_steady demo_owner
         [7; 8] demo_solver).2 in
  after !! "HCOOH_s"%string = Some 8 ∧
  after !! "HCO_s"%string = Some (-1/2).
Proof.
  cbv zeta. split.
  - apply (get_tof_any_length split_species_digits theta_of already_steady
             demo_owner [7; 8] demo_solver 1 "HCOOH_s"%string);
      [by intros c s | by intros c s | apply demo_names_distinct
      | reflexivity].
  - apply (get_tof_any_length split_species_digits theta_of already_steady
             demo_owner [7; 8] demo_solver 2 "HCO_s"%string);
      [by intros c s | by intros c s | apply demo_names_distinct
      | reflexivity].
Defined.
